(** * Reverb replay service: a shallow embedding of reverb_service_impl.cc

    The development follows the layout of the C++ file: the status helpers of
    the anonymous namespace, the protocol messages the handlers touch, then
    one module per streaming handler ([InsertStream], [SampleStream]) holding
    the reactor class defined inside it, and the service facade
    ([Initialize], [TableByName]).

    Conventions.
    - [uint64_t] chunk and item keys are [N]; [int64_t]/[int32_t] fields are
      [Z], with the wrap-around of [int64_t] written out where the code adds.
    - [flat_hash_map] is a [gmap]; a [std::queue] is a list, front first.
    - A [std::shared_ptr] to an immutable chunk is the chunk value itself.
    - Calls into gRPC and into tables are recorded, in program order, in a
      list of [Effect]s returned next to the new state. *)

From Stdlib Require Import ZArith String List Lia DecimalString.
From stdpp Require Import gmap strings list fin_maps fin_sets.

Local Open Scope string_scope.
Local Open Scope list_scope.
Local Open Scope Z_scope.

(** ** Statuses (grpc::Status / absl::Status) *)

Inductive StatusCode :=
| OK | CANCELLED | UNKNOWN | INVALID_ARGUMENT | DEADLINE_EXCEEDED | NOT_FOUND
| ALREADY_EXISTS | PERMISSION_DENIED | RESOURCE_EXHAUSTED | FAILED_PRECONDITION
| ABORTED | OUT_OF_RANGE | UNIMPLEMENTED | INTERNAL | UNAVAILABLE | DATA_LOSS
| UNAUTHENTICATED.

#[global] Instance StatusCode_eq_dec : EqDecision StatusCode.
Proof. solve_decision. Defined.

Record Status := mkStatus { error_code : StatusCode; error_message : string }.

#[global] Instance Status_eq_dec : EqDecision Status.
Proof. solve_decision. Defined.

Definition Status_OK : Status := mkStatus OK "".

(** [status.ok()] *)
Definition ok (s : Status) : bool :=
  match error_code s with OK => true | _ => false end.

(** [absl::IsNotFound] *)
Definition IsNotFound (s : Status) : bool :=
  match error_code s with NOT_FOUND => true | _ => false end.

(** [absl::StrCat] on an unsigned and on a signed integer argument. *)
Definition StrCat_uint (n : N) : string := NilZero.string_of_uint (N.to_uint n).
Definition StrCat_int (z : Z) : string := NilZero.string_of_int (Z.to_int z).

Definition TableNotFound (name : string) : Status :=
  mkStatus NOT_FOUND ("Priority table " +:+ name +:+ " was not found").

Definition Internal (message : string) : Status := mkStatus INTERNAL message.

(** [ToGrpcStatus] carries code and message over unchanged; both status types
    are [Status] here. *)
Definition ToGrpcStatus (s : Status) : Status := s.

(** ** Protocol messages *)

(** ChunkStore::Key *)
Abbreviation Key := N.

(** A chunk: key, opaque tensor payload and the size protobuf reports for
    the serialised message ([ByteSizeLong], a [size_t]). *)
Record ChunkData := mkChunk {
  chunk_key : Key;
  chunk_payload : string;
  ByteSizeLong : N
}.

#[global] Instance ChunkData_eq_dec : EqDecision ChunkData.
Proof. solve_decision. Defined.

(** Modelled from the spec: the FlatTrajectory message is declared in the
    protocol files, which are not part of the sources at hand; the data model
    describes it as an ordered sequence of (chunk-key, slice) tuples. *)
Record ChunkSlice := mkSlice {
  slice_chunk_key : Key;
  slice_offset : Z;
  slice_length : Z
}.

Abbreviation FlatTrajectory := (list ChunkSlice).

Record Timestamp := mkTimestamp { seconds : Z; nanos : Z }.

(** [priority] is a double the handlers only copy; it is kept as its
    binary64 bit pattern. *)
Record PrioritizedItem := mkPrioritizedItem {
  key : Key;
  table : string;
  priority : N;
  flat_trajectory : FlatTrajectory;
  inserted_at : Timestamp;
  times_sampled : Z
}.

Definition PrioritizedItem_default : PrioritizedItem :=
  mkPrioritizedItem 0%N "" 0%N [] (mkTimestamp 0 0) 0.

(** Table::Item (TableItem): the item and the chunk references it holds. *)
Record TableItem := mkTableItem {
  item : PrioritizedItem;
  chunks : list ChunkData
}.

Definition TableItem_default : TableItem := mkTableItem PrioritizedItem_default [].

Record InsertStreamRequest := mkInsertStreamRequest {
  req_chunks : list ChunkData;
  req_items : list PrioritizedItem;
  keep_chunk_keys : list Key
}.

Record InsertStreamResponse := mkInsertStreamResponse { keys : list Key }.

(** absl::Duration, as far as the sample handler builds one. *)
Inductive Duration :=
| Milliseconds (ms : Z)
| InfiniteDuration.

(** ** Tables and the registry *)

(** The interface of [Table] the handlers call. A table is a mutable object
    behind a shared pointer: every call returns the table's next state.
    [InsertOrAssignAsync] returns the status and the value it stores through
    the [can_insert] out-parameter. *)
Class TableOps (Table : Type) := {
  name : Table → string;
  InsertOrAssignAsync : TableItem → Table → Status * bool * Table;
  DefaultFlexibleBatchSize : Table → Z;
  SetCallbackExecutor : Table → Table
}.

(** What a handler does to the outside, in program order. A call of
    [InsertOrAssignAsync] is recorded with what the table answered: the
    status and the value stored in [can_insert]. *)
Inductive Effect (Response : Type) :=
| StartRead
| StartWrite (payload : Response)
| Finish (status : Status)
| CallInsertOrAssignAsync (table_name : string) (it : TableItem)
    (status : Status) (can_insert : bool)
| CallEnqueSampleRequest (table_name : string) (batch_size : Z) (timeout : Duration).

Arguments StartRead {Response}.
Arguments StartWrite {Response} payload.
Arguments Finish {Response} status.
Arguments CallInsertOrAssignAsync {Response} table_name it status can_insert.
Arguments CallEnqueSampleRequest {Response} table_name batch_size timeout.

(** ** The service facade *)

Section service.
Context {Table : Type} `{!TableOps Table}.

(** The two loading calls of [Checkpointer] that [Initialize] makes; each
    may replace the table vector it is handed. The chunk store they also
    fill is not read by any handler modelled here. *)
Record Checkpointer := mkCheckpointer {
  LoadLatest : list Table → Status * list Table;
  LoadFallbackCheckpoint : list Table → Status * list Table
}.

Record ReverbServiceImpl := mkService {
  checkpointer_ : option Checkpointer;
  tables_ : gmap string Table;
  tables_state_id_ : N
}.

(** [absl::MakeUint128(high, low)] *)
Definition MakeUint128 (high low : N) : N := (high * 2 ^ 64 + low)%N.

(** The first block of [Initialize]: the status after the loading attempts
    and the table vector they leave. *)
Definition load_checkpoint (cp : option Checkpointer) (tables : list Table)
    : Status * list Table :=
  match cp with
  | None => (Status_OK, tables)
  | Some cp =>
      let '(status, tables) := LoadLatest cp tables in
      if IsNotFound status then LoadFallbackCheckpoint cp tables
      else (status, tables)
  end.

(** The loop [tables_[name] = std::move(table)]. *)
Definition register_tables (tables : list Table) (tables_ : gmap string Table)
    : gmap string Table :=
  foldl (λ m tbl, <[name tbl := tbl]> m) tables_ tables.

(** [rnd_high], [rnd_low]: the two draws of [absl::Uniform<uint64_t>]. *)
Definition Initialize (tables : list Table) (rnd_high rnd_low : N)
    (svc : ReverbServiceImpl) : Status * ReverbServiceImpl :=
  let '(status, tables) := load_checkpoint (checkpointer_ svc) tables in
  if negb (ok status) && negb (IsNotFound status) then (status, svc)
  else
    let registered := register_tables tables (tables_ svc) in
    (Status_OK,
     mkService (checkpointer_ svc) (SetCallbackExecutor <$> registered)
               (MakeUint128 rnd_high rnd_low)).

Definition Create (tables : list Table) (checkpointer : option Checkpointer)
    (rnd_high rnd_low : N) : Status * option ReverbServiceImpl :=
  let new_service := mkService checkpointer ∅ 0%N in
  let '(status, new_service) := Initialize tables rnd_high rnd_low new_service in
  if negb (ok status) then (status, None) else (Status_OK, Some new_service).

(** [ReverbServiceImpl::TableByName], on the registry. *)
Definition TableByName (tables_ : gmap string Table) (table_name : string)
    : option Table :=
  tables_ !! table_name.
End service.

(** ** The reactor skeleton *)

(** Modelled from the spec: ReverbServerReactor (reverb_server_reactor.h) is
    the base class of both stream reactors and is not among the sources at
    hand. The spec gives it a FIFO of prepared response contexts and a
    finished flag, and these operations:
    - MaybeStartRead: begin a read if not finished;
    - MaybeSendNextResponse: start a write from the queue head;
    - SetReactorAsFinished(status): flips is_finished, drops queued
      responses, signals completion with status; idempotent after the first
      call;
    - OnWriteDone: pops the head and chains the next write;
    - OnReadDone: runs ProcessIncomingRequest on a successful read, and any
      non-OK status it returns triggers SetReactorAsFinished;
    - ok == false in OnReadDone/OnWriteDone finishes the reactor; once
      finished, no read, write or callback takes effect.
    The status used when a read or a write fails is not given by the spec and
    is a parameter of the event ([read_failed], [write_failed] below). *)
Record ReverbServerReactor (ResponseCtx : Type) := mkBase {
  responses_to_send_ : list ResponseCtx;
  is_finished_ : bool
}.

Arguments mkBase {ResponseCtx} _ _.
Arguments responses_to_send_ {ResponseCtx} _.
Arguments is_finished_ {ResponseCtx} _.

Section skeleton.
Context {ResponseCtx Response : Type}.
Variable payload_of : ResponseCtx → Response.

(** Modelled from the spec: MaybeStartRead of the missing base class, "begin
    a read if none in flight and not finished"; callers only use it when no
    read is in flight. *)
Definition MaybeStartRead (b : ReverbServerReactor ResponseCtx)
    : list (Effect Response) :=
  if is_finished_ b then [] else [StartRead].

(** Modelled from the spec: MaybeSendNextResponse of the missing base class,
    "start a write from the queue head"; nothing is written from an empty
    queue. *)
Definition MaybeSendNextResponse (b : ReverbServerReactor ResponseCtx)
    : list (Effect Response) :=
  match responses_to_send_ b with
  | [] => []
  | front :: _ => [StartWrite (payload_of front)]
  end.

(** Modelled from the spec: SetReactorAsFinished of the missing base class,
    "flips is_finished, drops queued responses, and signals completion with
    status. Idempotent after the first call." *)
Definition SetReactorAsFinished (status : Status)
    (b : ReverbServerReactor ResponseCtx)
    : ReverbServerReactor ResponseCtx * list (Effect Response) :=
  if is_finished_ b then (b, [])
  else (mkBase [] true, [Finish status]).

(** Modelled from the spec: OnWriteDone of the missing base class, "pops the
    head and chains the next"; a failed write finishes the reactor, and a
    finished reactor ignores the callback. *)
Definition Base_OnWriteDone (write_ok : bool) (write_failed : Status)
    (b : ReverbServerReactor ResponseCtx)
    : ReverbServerReactor ResponseCtx * list (Effect Response) :=
  if is_finished_ b then (b, [])
  else if negb write_ok then SetReactorAsFinished write_failed b
  else
    let b' := mkBase (tail (responses_to_send_ b)) (is_finished_ b) in
    (b', MaybeSendNextResponse b').
End skeleton.

(** ** InsertStream *)

Module InsertStream.

Section reactor.
Context {Table : Type} `{!TableOps Table}.
(** [internal::GetChunkKeys], from trajectory_util. *)
Variable GetChunkKeys : FlatTrajectory → list Key.

(** *** Chunk bookkeeping *)

Definition SaveChunks (request : InsertStreamRequest)
    (chunks_ : gmap Key ChunkData) : Status * gmap Key ChunkData :=
  (Status_OK,
   foldl (λ m chunk,
            let key := chunk_key chunk in
            if decide (is_Some (m !! key)) then m else <[key := chunk]> m)
         chunks_ (req_chunks request)).

(** The loop of [GetItemWithChunks]: [acc] is [item->chunks] so far. *)
Fixpoint gather_chunks (chunks_ : gmap Key ChunkData) (ks : list Key)
    (acc : list ChunkData) : Status * list ChunkData :=
  match ks with
  | [] => (Status_OK, acc)
  | k :: rest =>
      match chunks_ !! k with
      | None =>
          (Internal ("Could not find sequence chunk " +:+ StrCat_uint k +:+ "."),
           acc)
      | Some c => gather_chunks chunks_ rest (acc ++ [c])
      end
  end.

Definition GetItemWithChunks (chunks_ : gmap Key ChunkData)
    (it : TableItem) (request_item : PrioritizedItem) : Status * TableItem :=
  let '(status, cs) :=
    gather_chunks chunks_ (GetChunkKeys (flat_trajectory request_item)) (chunks it) in
  if ok status
  then (Status_OK, mkTableItem request_item cs)
  else (status, mkTableItem (item it) cs).

(** [std::find(keep_keys.begin(), keep_keys.end(), k) != keep_keys.end()] *)
Definition std_find (keep_keys : list Key) (k : Key) : bool :=
  existsb (N.eqb k) keep_keys.

Definition ReleaseOutOfRangeChunks (keep_keys : list Key)
    (chunks_ : gmap Key ChunkData) : Status * gmap Key ChunkData :=
  let chunks' := filter (λ kv, std_find keep_keys kv.1 = true) chunks_ in
  if decide (size chunks' ≠ length keep_keys)
  then (mkStatus FAILED_PRECONDITION
          ("ReleaseOutOfRangeChunks: Kept less chunks than expected.  chunks_.size() == "
           +:+ StrCat_uint (N.of_nat (size chunks'))
           +:+ " != keep_keys.size() == "
           +:+ StrCat_uint (N.of_nat (length keep_keys))),
        chunks')
  else (Status_OK, chunks').

(** *** The reactor *)

Record InsertStreamResponseCtx := mkCtx { payload : InsertStreamResponse }.

Record WorkerlessInsertReactor := mkReactor {
  base : ReverbServerReactor InsertStreamResponseCtx;
  chunks_ : gmap Key ChunkData;
  read_in_flight_ : bool
}.

Definition set_base (b : ReverbServerReactor InsertStreamResponseCtx)
    (r : WorkerlessInsertReactor) : WorkerlessInsertReactor :=
  mkReactor b (chunks_ r) (read_in_flight_ r).
Definition set_chunks_ (c : gmap Key ChunkData)
    (r : WorkerlessInsertReactor) : WorkerlessInsertReactor :=
  mkReactor (base r) c (read_in_flight_ r).
Definition set_read_in_flight_ (f : bool)
    (r : WorkerlessInsertReactor) : WorkerlessInsertReactor :=
  mkReactor (base r) (chunks_ r) f.

(** The loop over [request->mutable_items()]. It returns the status the
    loop leaves with, the last value of [can_insert], the tables and the
    calls made. *)
Fixpoint insert_items (chunks_ : gmap Key ChunkData)
    (items : list PrioritizedItem) (can_insert : bool)
    (tables_ : gmap string Table)
    : Status * bool * gmap string Table * list (Effect InsertStreamResponse) :=
  match items with
  | [] => (Status_OK, can_insert, tables_, [])
  | request_item :: rest =>
      let '(status, it) := GetItemWithChunks chunks_ TableItem_default request_item in
      if negb (ok status) then (status, can_insert, tables_, [])
      else
        let table_name := table (item it) in
        match TableByName tables_ table_name with
        | None => (TableNotFound table_name, can_insert, tables_, [])
        | Some tbl =>
            let '(status, can_insert', tbl') := InsertOrAssignAsync it tbl in
            let tables' := <[table_name := tbl']> tables_ in
            let call := CallInsertOrAssignAsync table_name it status can_insert' in
            if negb (ok status)
            then (ToGrpcStatus status, can_insert', tables', [call])
            else
              let '(status', can_insert'', tables'', calls) :=
                insert_items chunks_ rest can_insert' tables' in
              (status', can_insert'', tables'', call :: calls)
        end
  end.

(** [request->ShortDebugString()], from protobuf. *)
Variable ShortDebugString : InsertStreamRequest → string.

Definition ProcessIncomingRequest (request : InsertStreamRequest)
    (r : WorkerlessInsertReactor) (tables_ : gmap string Table)
    : Status * WorkerlessInsertReactor * gmap string Table
      * list (Effect InsertStreamResponse) :=
  let r := set_read_in_flight_ false r in
  if (length (req_chunks request) =? 0)%nat && (length (req_items request) =? 0)%nat
  then (mkStatus INVALID_ARGUMENT
          ("ProcessIncomingRequest: Request lacks both chunks and item.  Request: "
           +:+ ShortDebugString request),
        r, tables_, [])
  else
    let '(status, saved) := SaveChunks request (chunks_ r) in
    let r := set_chunks_ saved r in
    if negb (ok status) then (status, r, tables_, [])
    else if (length (req_items request) =? 0)%nat
    then (Status_OK, set_read_in_flight_ true r, tables_, [StartRead])
    else
      let '(status, can_insert, tables', calls) :=
        insert_items (chunks_ r) (req_items request) true tables_ in
      if negb (ok status) then (status, r, tables', calls)
      else
        let '(status, kept) :=
          ReleaseOutOfRangeChunks (keep_chunk_keys request) (chunks_ r) in
        let r := set_chunks_ kept r in
        if negb (ok status) then (status, r, tables', calls)
        else if can_insert
        then (Status_OK, set_read_in_flight_ true r, tables', calls ++ [StartRead])
        else (Status_OK, r, tables', calls).

(** [responses_to_send_.back().payload.add_keys(key)] *)
Fixpoint back_add_keys (q : list InsertStreamResponseCtx) (k : Key)
    : list InsertStreamResponseCtx :=
  match q with
  | [] => []
  | [c] => [mkCtx (mkInsertStreamResponse (keys (payload c) ++ [k]))]
  | c :: q' => c :: back_add_keys q' k
  end.

(** The [insert_completed_] callback. *)
Definition insert_completed_ (k : Key) (r : WorkerlessInsertReactor)
    : WorkerlessInsertReactor * list (Effect InsertStreamResponse) :=
  let '(r, reads) :=
    if negb (read_in_flight_ r)
    then (set_read_in_flight_ true r, [StartRead])
    else (r, []) in
  if negb (is_finished_ (base r)) then
    let q := responses_to_send_ (base r) in
    let q := if (length q <? 2)%nat then q ++ [mkCtx (mkInsertStreamResponse [])] else q in
    let q := back_add_keys q k in
    let r := set_base (mkBase q (is_finished_ (base r))) r in
    let writes :=
      if (length q =? 1)%nat then MaybeSendNextResponse payload (base r) else [] in
    (r, reads ++ writes)
  else (r, reads).

(** The constructor: [read_in_flight_(true)], then [MaybeStartRead()]. *)
Definition new_reactor : WorkerlessInsertReactor * list (Effect InsertStreamResponse) :=
  let r := mkReactor (mkBase [] false) ∅ true in
  (r, MaybeStartRead (base r)).

(** *** The reactor driven by its callbacks *)

(** Modelled from the spec: OnReadDone of the missing base class. A finished
    reactor ignores the callback, a failed read finishes the reactor, and
    otherwise [ProcessIncomingRequest] runs and "all non-OK statuses returned
    by ProcessIncomingRequest trigger SetReactorAsFinished". *)
Definition OnReadDone (read_ok : bool) (read_failed : Status)
    (request : InsertStreamRequest)
    (r : WorkerlessInsertReactor) (tables_ : gmap string Table)
    : WorkerlessInsertReactor * gmap string Table
      * list (Effect InsertStreamResponse) :=
  if is_finished_ (base r) then (r, tables_, [])
  else if negb read_ok then
    let '(b, fin) := SetReactorAsFinished read_failed (base r) in
    (set_base b r, tables_, fin)
  else
    let '(status, r, tables', effs) := ProcessIncomingRequest request r tables_ in
    if negb (ok status) then
      let '(b, fin) := SetReactorAsFinished status (base r) in
      (set_base b r, tables', effs ++ fin)
    else (r, tables', effs).

Definition OnWriteDone (write_ok : bool) (write_failed : Status)
    (r : WorkerlessInsertReactor)
    : WorkerlessInsertReactor * list (Effect InsertStreamResponse) :=
  let '(b, effs) := Base_OnWriteDone payload write_ok write_failed (base r) in
  (set_base b r, effs).

Inductive Event :=
| ReadDone (read_ok : bool) (read_failed : Status) (request : InsertStreamRequest)
| WriteDone (write_ok : bool) (write_failed : Status)
| InsertCompleted (k : Key).

Definition step (ev : Event) (r : WorkerlessInsertReactor)
    (tables_ : gmap string Table)
    : WorkerlessInsertReactor * gmap string Table
      * list (Effect InsertStreamResponse) :=
  match ev with
  | ReadDone read_ok read_failed request =>
      OnReadDone read_ok read_failed request r tables_
  | WriteDone write_ok write_failed =>
      let '(r', effs) := OnWriteDone write_ok write_failed r in (r', tables_, effs)
  | InsertCompleted k =>
      let '(r', effs) := insert_completed_ k r in (r', tables_, effs)
  end.

(** Running a sequence of callbacks; the effects are concatenated in
    order. *)
Fixpoint run (evs : list Event) (r : WorkerlessInsertReactor)
    (tables_ : gmap string Table)
    : WorkerlessInsertReactor * gmap string Table
      * list (Effect InsertStreamResponse) :=
  match evs with
  | [] => (r, tables_, [])
  | ev :: rest =>
      let '(r', tables', effs) := step ev r tables_ in
      let '(r'', tables'', effs') := run rest r' tables' in
      (r'', tables'', effs ++ effs')
  end.

End reactor.

End InsertStream.

(** ** SampleStream *)

Module SampleStream.

Record SampleStreamRequest := mkSampleStreamRequest {
  req_table : string;
  num_samples : Z;
  flexible_batch_size : Z;
  (** [has_rate_limiter_timeout()] and, when set, its [milliseconds()] *)
  rate_limiter_timeout : option Z
}.

Record SampleInfo := mkSampleInfo {
  info_item : PrioritizedItem;
  info_probability : N;
  info_table_size : Z;
  info_rate_limited : bool
}.

(** One entry of a response: [data] is a repeated field. *)
Record Entry := mkEntry {
  info : option SampleInfo;
  data : list ChunkData;
  end_of_sequence : bool
}.

Definition Entry_default : Entry := mkEntry None [] false.

Record SampleStreamResponse := mkSampleStreamResponse { entries : list Entry }.

Record SampleStreamResponseCtx := mkCtx {
  payload : SampleStreamResponse;
  table_items : list TableItem
}.

Definition Ctx_default : SampleStreamResponseCtx :=
  mkCtx (mkSampleStreamResponse []) [].

(** Table::SampledItem *)
Record SampledItem := mkSampledItem {
  ref : TableItem;
  sample_priority : N;
  sample_times_sampled : Z;
  probability : N;
  table_size : Z;
  rate_limited : bool
}.

(** Table::SampleRequest, as the callback receives it. *)
Record SampleRequest := mkSampleRequest {
  status : Status;
  samples : list SampledItem
}.

(** Modelled from the spec: SampleTaskInfo is declared in a header that is
    not among the sources at hand. Its fields are the ones the handler
    assigns; [task_table] is the table the shared pointer refers to, by its
    registry name, [None] for a null pointer. NextSampleSize follows the
    batch-size policy of the spec: with remaining = requested_samples -
    fetched_samples, it returns 0 if remaining is 0 and otherwise
    min(remaining, flexible_batch_size). *)
Record SampleTaskInfo := mkTaskInfo {
  task_table : option string;
  task_flexible_batch_size : Z;
  fetched_samples : Z;
  requested_samples : Z;
  timeout : Duration
}.

(** Modelled from the spec: NextSampleSize of the missing SampleTaskInfo,
    the batch-size policy quoted above. *)
Definition NextSampleSize (t : SampleTaskInfo) : Z :=
  let remaining := requested_samples t - fetched_samples t in
  if remaining =? 0 then 0 else Z.min remaining (task_flexible_batch_size t).

Definition kMaxSampleResponseSizeBytes : Z := 1 * 1024 * 1024.

Definition kMaxQueuedResponses : nat := 3.

(** Two's-complement wrap-around of [int64_t]. *)
Definition wrap_int64 (z : Z) : Z := (z + 2 ^ 63) mod 2 ^ 64 - 2 ^ 63.

Record WorkerlessSampleReactor := mkReactor {
  base : ReverbServerReactor SampleStreamResponseCtx;
  task_info_ : SampleTaskInfo;
  current_response_size_bytes_ : Z;
  waiting_for_enqueued_sample_ : bool
}.

Definition set_base (b : ReverbServerReactor SampleStreamResponseCtx)
    (r : WorkerlessSampleReactor) : WorkerlessSampleReactor :=
  mkReactor b (task_info_ r) (current_response_size_bytes_ r)
            (waiting_for_enqueued_sample_ r).
Definition set_task_info_ (t : SampleTaskInfo)
    (r : WorkerlessSampleReactor) : WorkerlessSampleReactor :=
  mkReactor (base r) t (current_response_size_bytes_ r)
            (waiting_for_enqueued_sample_ r).
Definition set_waiting_for_enqueued_sample_ (w : bool)
    (r : WorkerlessSampleReactor) : WorkerlessSampleReactor :=
  mkReactor (base r) (task_info_ r) (current_response_size_bytes_ r) w.

(** *** Packing a sample into responses *)

(** The queue and the byte counter are what [ProcessSample] works on. *)
Abbreviation Queue := (list SampleStreamResponseCtx).

(** [f] applied to [responses_to_send_.back()]. *)
Fixpoint modify_back {A : Type} (f : A → A) (q : list A) : list A :=
  match q with
  | [] => []
  | [x] => [f x]
  | x :: q' => x :: modify_back f q'
  end.

(** [response->payload.add_entries()] *)
Definition add_entries (c : SampleStreamResponseCtx) : SampleStreamResponseCtx :=
  mkCtx (mkSampleStreamResponse (entries (payload c) ++ [Entry_default]))
        (table_items c).

(** [f] applied to the entry [add_entries] returned last. *)
Definition on_entry (f : Entry → Entry) (c : SampleStreamResponseCtx)
    : SampleStreamResponseCtx :=
  mkCtx (mkSampleStreamResponse (modify_back f (entries (payload c))))
        (table_items c).

Definition set_end_of_sequence (b : bool) (e : Entry) : Entry :=
  mkEntry (info e) (data e) b.

(** The body of [if (i == 0)]: the info header of the item. *)
Definition set_info (sample : SampledItem) (e : Entry) : Entry :=
  let sample_item := item (ref sample) in
  mkEntry
    (Some (mkSampleInfo
             (mkPrioritizedItem (key sample_item) (table sample_item)
                (sample_priority sample) (flat_trajectory sample_item)
                (inserted_at sample_item) (sample_times_sampled sample))
             (probability sample) (table_size sample) (rate_limited sample)))
    (data e) (end_of_sequence e).

(** [entry->mutable_data()->UnsafeArenaAddAllocated(chunk)] *)
Definition add_data (chunk : ChunkData) (e : Entry) : Entry :=
  mkEntry (info e) (data e ++ [chunk]) (end_of_sequence e).

(** [response->AddTableItem(sample->ref)] *)
Definition AddTableItem (it : TableItem) (c : SampleStreamResponseCtx)
    : SampleStreamResponseCtx :=
  mkCtx (payload c) (table_items c ++ [it]).

(** The [for] loop of [ProcessSample] from index [i] on: [cs] are the chunks
    [i], [i+1], ... of the sample and [n] is [chunks.size()]. [response] and
    [entry] of the code are the back of the queue and the last entry of that
    response. *)
Fixpoint chunk_loop (sample : SampledItem) (n i : nat) (cs : list ChunkData)
    (q : Queue) (bytes : Z) : Queue * Z :=
  match cs with
  | [] => (q, bytes)
  | chunk :: rest =>
      let q := modify_back (on_entry (set_end_of_sequence (i + 1 =? n)%nat)) q in
      let q := if (i =? 0)%nat then modify_back (on_entry (set_info sample)) q else q in
      let bytes := wrap_int64 (bytes + Z.of_N (ByteSizeLong chunk)) in
      let q := modify_back (on_entry (add_data chunk)) q in
      if (i <? n - 1)%nat && (bytes >? kMaxSampleResponseSizeBytes)
      then chunk_loop sample n (S i) rest
             (modify_back add_entries (q ++ [Ctx_default])) 0
      else chunk_loop sample n (S i) rest q bytes
  end.

Definition ProcessSample (sample : SampledItem) (write_in_flight : bool)
    (q : Queue) (bytes : Z) : Queue * Z :=
  let '(q, bytes) :=
    if (length q =? 0)%nat
       || ((length q =? 1)%nat && write_in_flight)
       || (bytes >? kMaxSampleResponseSizeBytes)
    then (q ++ [Ctx_default], 0)
    else (q, bytes) in
  let q := modify_back add_entries q in
  let '(q, bytes) :=
    chunk_loop sample (length (chunks (ref sample))) 0 (chunks (ref sample)) q bytes in
  (modify_back (AddTableItem (ref sample)) q, bytes).

(** The loop over [sample->samples] in the callback. *)
Fixpoint process_samples (ss : list SampledItem) (already_writing : bool)
    (q : Queue) (bytes : Z) : Queue * Z :=
  match ss with
  | [] => (q, bytes)
  | sample :: rest =>
      let '(q, bytes) := ProcessSample sample already_writing q bytes in
      process_samples rest already_writing q bytes
  end.

(** *** The reactor *)

Definition MaybeStartSampling (r : WorkerlessSampleReactor)
    : WorkerlessSampleReactor * list (Effect SampleStreamResponse) :=
  let next_batch_size := NextSampleSize (task_info_ r) in
  if next_batch_size =? 0 then (r, [])
  else if waiting_for_enqueued_sample_ r then (r, [])
  else if (kMaxQueuedResponses <=? length (responses_to_send_ (base r)))%nat
  then (r, [])
  else
    (set_waiting_for_enqueued_sample_ true r,
     match task_table (task_info_ r) with
     | Some table_name =>
         [CallEnqueSampleRequest table_name next_batch_size (timeout (task_info_ r))]
     | None => []
     end).

(** The [sampling_done_] callback. *)
Definition sampling_done_ (sample : SampleRequest) (r : WorkerlessSampleReactor)
    : WorkerlessSampleReactor * list (Effect SampleStreamResponse) :=
  let r := set_waiting_for_enqueued_sample_ false r in
  if negb (ok (status sample)) then
    if negb (is_finished_ (base r)) then
      let '(b, fin) := SetReactorAsFinished (ToGrpcStatus (status sample)) (base r) in
      (set_base b r, fin)
    else (r, [])
  else
    let t := task_info_ r in
    let r :=
      set_task_info_
        (mkTaskInfo (task_table t) (task_flexible_batch_size t)
           (fetched_samples t + Z.of_nat (length (samples sample)))
           (requested_samples t) (timeout t)) r in
    let already_writing := negb (length (responses_to_send_ (base r)) =? 0)%nat in
    let '(q, bytes) :=
      process_samples (samples sample) already_writing
        (responses_to_send_ (base r)) (current_response_size_bytes_ r) in
    let r :=
      mkReactor (mkBase q (is_finished_ (base r))) (task_info_ r) bytes
                (waiting_for_enqueued_sample_ r) in
    let writes :=
      if negb already_writing then MaybeSendNextResponse payload (base r) else [] in
    let next_batch_size := NextSampleSize (task_info_ r) in
    if negb (next_batch_size =? 0) then
      let '(r, calls) := MaybeStartSampling r in (r, writes ++ calls)
    else (r, writes ++ MaybeStartRead (base r)).

Definition OnWriteDone (write_ok : bool) (write_failed : Status)
    (r : WorkerlessSampleReactor)
    : WorkerlessSampleReactor * list (Effect SampleStreamResponse) :=
  let '(b, effs) := Base_OnWriteDone payload write_ok write_failed (base r) in
  let '(r, calls) := MaybeStartSampling (set_base b r) in
  (r, effs ++ calls).

Section server.
Context {Table : Type} `{!TableOps Table}.
(** [Sampler::kAutoSelectValue], from sampler.h. *)
Variable kAutoSelectValue : Z.

Definition ProcessIncomingRequest (request : SampleStreamRequest)
    (r : WorkerlessSampleReactor) (tables_ : gmap string Table)
    : Status * WorkerlessSampleReactor * list (Effect SampleStreamResponse) :=
  if num_samples request <=? 0 then
    (mkStatus INVALID_ARGUMENT
       ("`num_samples` must be > 0 (got" +:+ StrCat_int (num_samples request) +:+ ")."),
     r, [])
  else if (flexible_batch_size request <=? 0)
          && negb (flexible_batch_size request =? kAutoSelectValue) then
    (mkStatus INVALID_ARGUMENT
       ("`flexible_batch_size` must be > 0 or " +:+ StrCat_int kAutoSelectValue
        +:+ " (for auto tuning). Got" +:+ StrCat_int (flexible_batch_size request)
        +:+ "."),
     r, [])
  else
    let t := task_info_ r in
    let new_timeout :=
      match rate_limiter_timeout request with
      | Some ms => if ms >? 0 then Milliseconds ms else InfiniteDuration
      | None => InfiniteDuration
      end in
    match TableByName tables_ (req_table request) with
    | None =>
        let t :=
          mkTaskInfo None (task_flexible_batch_size t) (fetched_samples t)
            (requested_samples t) new_timeout in
        (TableNotFound (req_table request), set_task_info_ t r, [])
    | Some tbl =>
        let t :=
          mkTaskInfo (Some (req_table request))
            (if flexible_batch_size request =? kAutoSelectValue
             then DefaultFlexibleBatchSize tbl
             else flexible_batch_size request)
            0 (num_samples request) new_timeout in
        let '(r, calls) := MaybeStartSampling (set_task_info_ t r) in
        (Status_OK, r, calls)
    end.

(** The constructor: [waiting_for_enqueued_sample_(false)], then
    [MaybeStartRead()]. The byte counter has no initialiser in the code;
    [bytes0] is whatever it holds. *)
Definition new_reactor (t0 : SampleTaskInfo) (bytes0 : Z)
    : WorkerlessSampleReactor * list (Effect SampleStreamResponse) :=
  let r := mkReactor (mkBase [] false) t0 bytes0 false in
  (r, MaybeStartRead (base r)).

(** Modelled from the spec: OnReadDone of the missing base class, as for the
    insert reactor, with this reactor's [ProcessIncomingRequest]. *)
Definition OnReadDone (read_ok : bool) (read_failed : Status)
    (request : SampleStreamRequest)
    (r : WorkerlessSampleReactor) (tables_ : gmap string Table)
    : WorkerlessSampleReactor * list (Effect SampleStreamResponse) :=
  if is_finished_ (base r) then (r, [])
  else if negb read_ok then
    let '(b, fin) := SetReactorAsFinished read_failed (base r) in
    (set_base b r, fin)
  else
    let '(status, r, effs) := ProcessIncomingRequest request r tables_ in
    if negb (ok status) then
      let '(b, fin) := SetReactorAsFinished status (base r) in
      (set_base b r, effs ++ fin)
    else (r, effs).

Inductive Event :=
| ReadDone (read_ok : bool) (read_failed : Status) (request : SampleStreamRequest)
| WriteDone (write_ok : bool) (write_failed : Status)
| SamplingDone (sample : SampleRequest).

Definition step (tables_ : gmap string Table) (ev : Event)
    (r : WorkerlessSampleReactor)
    : WorkerlessSampleReactor * list (Effect SampleStreamResponse) :=
  match ev with
  | ReadDone read_ok read_failed request =>
      OnReadDone read_ok read_failed request r tables_
  | WriteDone write_ok write_failed => OnWriteDone write_ok write_failed r
  | SamplingDone sample => sampling_done_ sample r
  end.

Fixpoint run (tables_ : gmap string Table) (evs : list Event)
    (r : WorkerlessSampleReactor)
    : WorkerlessSampleReactor * list (Effect SampleStreamResponse) :=
  match evs with
  | [] => (r, [])
  | ev :: rest =>
      let '(r', effs) := step tables_ ev r in
      let '(r'', effs') := run tables_ rest r' in
      (r'', effs ++ effs')
  end.
End server.

End SampleStream.

(** ** A table for examples *)

(** A small implementation of the table interface used to run the handlers
    on concrete inputs: a table with [room] free slots admits at once while
    room is left and otherwise queues the item; a closed table refuses. *)
Record ExampleTable := mkExampleTable {
  ex_name : string;
  ex_room : nat;
  ex_closed : bool;
  ex_items : list TableItem
}.

#[global] Instance ExampleTable_ops : TableOps ExampleTable := {|
  name := ex_name;
  InsertOrAssignAsync it t :=
    if ex_closed t
    then (mkStatus CANCELLED "closed", false, t)
    else (Status_OK, (0 <? ex_room t)%nat,
          mkExampleTable (ex_name t) (ex_room t - 1) (ex_closed t) (ex_items t ++ [it]));
  DefaultFlexibleBatchSize _ := 64;
  SetCallbackExecutor t := t
|}.

(** One chunk key per slice, in order. *)
Definition example_GetChunkKeys (t : FlatTrajectory) : list Key :=
  slice_chunk_key <$> t.

Definition example_ShortDebugString (request : InsertStreamRequest) : string :=
  "<request>".

(** An item for table [tbl] whose trajectory has one slice per key. *)
Definition example_item (k : Key) (tbl : string) (trajectory : list Key)
    : PrioritizedItem :=
  mkPrioritizedItem k tbl 0%N ((λ ck, mkSlice ck 0 1) <$> trajectory)
    (mkTimestamp 0 0) 0.

(** A registry with a table that has no room left, one that has, and one
    that is closed. *)
Definition example_tables : gmap string ExampleTable :=
  <["full" := mkExampleTable "full" 0 false []]>
    (<["open" := mkExampleTable "open" 5 false []]>
       (<["closed" := mkExampleTable "closed" 5 true []]> ∅)).

Definition example_chunk (k : Key) (size : N) : ChunkData := mkChunk k "" size.

(** Two items in one message: the first goes to the table without room, the
    second to the table with room. *)
Definition example_request_two_tables : InsertStreamRequest :=
  mkInsertStreamRequest [] [example_item 1 "full" []; example_item 2 "open" []] [].

(** A chunk, an item that uses it, and a keep list that names another key. *)
Definition example_request_bad_keep : InsertStreamRequest :=
  mkInsertStreamRequest [example_chunk 1 10] [example_item 1 "open" [1%N]] [5%N].

(** The second item names a table that is not registered. *)
Definition example_request_unknown_table : InsertStreamRequest :=
  mkInsertStreamRequest [example_chunk 1 10]
    [example_item 1 "open" [1%N]; example_item 2 "nowhere" [1%N]] [1%N].

(** No chunk is sent, and the item's trajectory refers to chunk 1. *)
Definition example_request_missing_chunk : InsertStreamRequest :=
  mkInsertStreamRequest [] [example_item 7 "open" [1%N]] [].

(** ** Observations used to state the properties *)

(** The items handed to tables, in call order. *)
Definition submitted {Response : Type} (effs : list (Effect Response))
    : list PrioritizedItem :=
  omap (λ e, match e with
             | CallInsertOrAssignAsync _ it _ _ => Some (item it)
             | _ => None
             end) effs.

(** The values the tables stored in [can_insert], in call order. *)
Definition can_insert_values {Response : Type} (effs : list (Effect Response))
    : list bool :=
  omap (λ e, match e with
             | CallInsertOrAssignAsync _ _ _ c => Some c
             | _ => None
             end) effs.

Definition is_StartRead {Response : Type} (e : Effect Response) : bool :=
  match e with StartRead => true | _ => false end.

Definition is_StartWrite {Response : Type} (e : Effect Response) : bool :=
  match e with StartWrite _ => true | _ => false end.

Definition is_Finish {Response : Type} (e : Effect Response) : bool :=
  match e with Finish _ => true | _ => false end.

Definition is_CallEnqueSampleRequest {Response : Type} (e : Effect Response) : bool :=
  match e with CallEnqueSampleRequest _ _ _ => true | _ => false end.

(** All entries of a queue of sample responses, front response first. *)
Definition all_entries (q : SampleStream.Queue) : list SampleStream.Entry :=
  concat ((λ c, SampleStream.entries (SampleStream.payload c)) <$> q).

(** The chunks a response carries, in order, and their total size. *)
Definition response_chunks (c : SampleStream.SampleStreamResponseCtx)
    : list ChunkData :=
  concat (SampleStream.data <$> SampleStream.entries (SampleStream.payload c)).

Definition chunk_bytes (cs : list ChunkData) : Z :=
  foldr (λ c acc, Z.of_N (ByteSizeLong c) + acc) 0 cs.

(** A response is within the limit before its last chunk: whatever precedes
    the last chunk it carries adds up to at most the limit. *)
Definition within_limit_before_last_chunk
    (c : SampleStream.SampleStreamResponseCtx) : Prop :=
  ∀ front last_chunk,
    response_chunks c = front ++ [last_chunk] →
    chunk_bytes front ≤ SampleStream.kMaxSampleResponseSizeBytes.

(** The sizes of the sample's chunks are far enough from the [int64_t]
    range for the byte counter not to wrap. *)
Definition chunk_sizes_fit (sample : SampleStream.SampledItem) : Prop :=
  Forall (λ c, Z.of_N (ByteSizeLong c) + SampleStream.kMaxSampleResponseSizeBytes < 2 ^ 63)
         (chunks (SampleStream.ref sample)).

(** The info header [ProcessSample] writes for a sample. *)
Definition info_of (sample : SampleStream.SampledItem) : option SampleStream.SampleInfo :=
  SampleStream.info (SampleStream.set_info sample SampleStream.Entry_default).

(** The samples a callback delivers have chunk sizes that fit. *)
Definition event_chunks_fit (ev : SampleStream.Event) : Prop :=
  match ev with
  | SampleStream.SamplingDone sample =>
      Forall chunk_sizes_fit (SampleStream.samples sample)
  | _ => True
  end.

(** A write, if the effect is one, sends a response that is within the limit
    before its last chunk. *)
Definition write_within_limit (e : Effect SampleStream.SampleStreamResponse) : Prop :=
  match e with
  | StartWrite p => within_limit_before_last_chunk (SampleStream.mkCtx p [])
  | _ => True
  end.

(** *** Sample requests and batches for examples *)

Definition example_sampled (k : Key) (cs : list ChunkData) : SampleStream.SampledItem :=
  SampleStream.mkSampledItem (mkTableItem (example_item k "open" (chunk_key <$> cs)) cs)
    0%N 1 0%N 1 false.

(** A request for [n] samples of table "open", in batches of [batch]. *)
Definition example_sample_request (n batch : Z) : SampleStream.SampleStreamRequest :=
  SampleStream.mkSampleStreamRequest "open" n batch None.

Definition example_task_info : SampleStream.SampleTaskInfo :=
  SampleStream.mkTaskInfo None 0 0 0 InfiniteDuration.

(** One item with three chunks of 600 KiB. *)
Definition example_batch_600KiB : SampleStream.SampleRequest :=
  SampleStream.mkSampleRequest Status_OK
    [example_sampled 1 [example_chunk 1 614400; example_chunk 2 614400;
                        example_chunk 3 614400]].

(** Two items, each with three chunks of 2 MB. *)
Definition example_batch_2MB : SampleStream.SampleRequest :=
  SampleStream.mkSampleRequest Status_OK
    [example_sampled 1 [example_chunk 1 2000000; example_chunk 2 2000000;
                        example_chunk 3 2000000];
     example_sampled 2 [example_chunk 4 2000000; example_chunk 5 2000000;
                        example_chunk 6 2000000]].

(** One item with two chunks of 10 bytes. *)
Definition example_batch_small : SampleStream.SampleRequest :=
  SampleStream.mkSampleRequest Status_OK
    [example_sampled 1 [example_chunk 1 10; example_chunk 2 10]].

(** The first item is queued by its table, the second names no table. *)
Definition example_request_queued_then_unknown : InsertStreamRequest :=
  mkInsertStreamRequest [] [example_item 1 "full" []; example_item 2 "nowhere" []] [].

(** ** The unary handlers *)

(** MutatePrioritiesRequest: [priority] of an update is a double the handler
    only forwards, kept as its bit pattern. *)
Record KeyWithPriority := mkKeyWithPriority { update_key : Key; update_priority : N }.

Record MutatePrioritiesRequest := mkMutatePrioritiesRequest {
  mutate_table : string;
  updates : list KeyWithPriority;
  delete_keys : list Key
}.

(** The calls of [Table] the unary handlers make; each returns the status
    and the table's next state. *)
Class TableAdminOps (Table : Type) := {
  MutateItems : list KeyWithPriority → list Key → Table → Status * Table;
  Reset : Table → Status * Table
}.

Section unary.
Context {Table : Type} `{!TableOps Table} `{!TableAdminOps Table}.

(** [checkpointer_->Save(tables, 1, path)]: the status and the path the
    checkpointer stores in the response. *)
Variable Save : @Checkpointer Table → list Table → Z → Status * string.

(** [Checkpoint]: the status the reactor is finished with and
    [response->checkpoint_path()]. The vector handed to [Save] lists the
    tables of the registry in its iteration order. *)
Definition Checkpoint (svc : @ReverbServiceImpl Table) : Status * string :=
  match checkpointer_ svc with
  | None =>
      (mkStatus INVALID_ARGUMENT "no Checkpointer configured for the replay service.",
       "")
  | Some cp =>
      let tables := (map_to_list (tables_ svc)).*2 in
      let '(status, path) := Save cp tables 1 in
      (ToGrpcStatus status, path)
  end.

(** [MutatePriorities]: the status the reactor is finished with and the
    registry, in which the table called is in its next state. *)
Definition MutatePriorities (request : MutatePrioritiesRequest)
    (tables_ : gmap string Table) : Status * gmap string Table :=
  match TableByName tables_ (mutate_table request) with
  | None => (TableNotFound (mutate_table request), tables_)
  | Some tbl =>
      let '(status, tbl') := MutateItems (updates request) (delete_keys request) tbl in
      (ToGrpcStatus status, <[mutate_table request := tbl']> tables_)
  end.

(** [Reset] of the service, for the table named in the request. *)
Definition ServiceReset (reset_table : string) (tables_ : gmap string Table)
    : Status * gmap string Table :=
  match TableByName tables_ reset_table with
  | None => (TableNotFound reset_table, tables_)
  | Some tbl =>
      let '(status, tbl') := Reset tbl in
      (ToGrpcStatus status, <[reset_table := tbl']> tables_)
  end.
End unary.

(** ** InitializeConnection *)

Module InitializeConnection.

Record InitializeConnectionRequest := mkRequest {
  pid : Z;
  table_name : string;
  ownership_transferred : bool
}.

Record InitializeConnectionResponse := mkResponse { address : Z }.

(** [request_.Clear()] *)
Definition Request_default : InitializeConnectionRequest := mkRequest 0 "" false.

(** The heap cell [table_ptr_] points to: its address and the table the
    shared pointer stored in it refers to, by registry name. *)
Record HeapCell := mkHeapCell { cell_address : Z; cell_table : string }.

Record Reactor := mkReactor {
  request_ : InitializeConnectionRequest;
  response_ : InitializeConnectionResponse;
  (** [None] is [nullptr]. *)
  table_ptr_ : option HeapCell
}.

Section reactor.
Context {Table : Type}.
(** [getpid()] of the server process. *)
Variable server_pid : Z.

(** The constructor; [peer_is_local] is
    [IsLocalhostOrInProcess(context->peer())]. *)
Definition new_reactor (peer_is_local : bool)
    : Reactor * list (Effect InitializeConnectionResponse) :=
  let r := mkReactor Request_default (mkResponse 0) None in
  if negb peer_is_local then (r, [Finish Status_OK]) else (r, [StartRead]).

(** [OnReadDone]: [incoming] is the message gRPC stored in [request_];
    [new_address] is the address [new] returns if the handler allocates. *)
Definition OnReadDone (read_ok : bool) (incoming : InitializeConnectionRequest)
    (new_address : Z) (tables_ : gmap string Table) (r : Reactor)
    : Reactor * list (Effect InitializeConnectionResponse) :=
  if negb read_ok then (r, [Finish (Internal "Failed to read from stream")])
  else
    let r := mkReactor incoming (response_ r) (table_ptr_ r) in
    if negb (pid (request_ r) =? server_pid) then
      let r := mkReactor (request_ r) (mkResponse 0) (table_ptr_ r) in
      (r, [StartWrite (response_ r)])
    else
      match table_ptr_ r with
      | None =>
          match TableByName tables_ (table_name (request_ r)) with
          | None => (r, [Finish (TableNotFound (table_name (request_ r)))])
          | Some _ =>
              let r :=
                mkReactor (request_ r) (mkResponse new_address)
                  (Some (mkHeapCell new_address (table_name (request_ r)))) in
              (r, [StartWrite (response_ r)])
          end
      | Some _ =>
          let unexpected :=
            if negb (ownership_transferred (request_ r))
            then [Finish (Internal "Received unexpected request")]
            else [] in
          (r, unexpected ++ [Finish Status_OK])
      end.

Definition OnWriteDone (write_ok : bool) (r : Reactor)
    : Reactor * list (Effect InitializeConnectionResponse) :=
  if negb write_ok then (r, [Finish (Internal "Failed to write to stream")])
  else if address (response_ r) =? 0 then (r, [Finish Status_OK])
  else (mkReactor Request_default (response_ r) (table_ptr_ r), [StartRead]).

(** [OnDone]: the addresses of the heap cells it deletes. *)
Definition OnDone (r : Reactor) : list Z :=
  match table_ptr_ r with
  | Some cell => [cell_address cell]
  | None => []
  end.

Inductive Event :=
| ReadDone (read_ok : bool) (incoming : InitializeConnectionRequest) (new_address : Z)
| WriteDone (write_ok : bool).

Definition step (tables_ : gmap string Table) (ev : Event) (r : Reactor)
    : Reactor * list (Effect InitializeConnectionResponse) :=
  match ev with
  | ReadDone read_ok incoming new_address =>
      OnReadDone read_ok incoming new_address tables_ r
  | WriteDone write_ok => OnWriteDone write_ok r
  end.

Fixpoint run (tables_ : gmap string Table) (evs : list Event) (r : Reactor)
    : Reactor * list (Effect InitializeConnectionResponse) :=
  match evs with
  | [] => (r, [])
  | ev :: rest =>
      let '(r', effs) := step tables_ ev r in
      let '(r'', effs') := run tables_ rest r' in
      (r'', effs ++ effs')
  end.
End reactor.

End InitializeConnection.

(** ** Observations on the insert reactor's acknowledgements *)

(** The keys of the responses a queue holds, front first. *)
Definition queued_keys (q : list InsertStream.InsertStreamResponseCtx) : list Key :=
  concat ((λ c, keys (InsertStream.payload c)) <$> q).

(** The keys of the responses writes were started for, in order. *)
Definition written_keys (effs : list (Effect InsertStreamResponse)) : list Key :=
  concat (omap (λ e, match e with
                     | StartWrite p => Some (keys p)
                     | _ => None
                     end) effs).

(** The keys the tables reported as inserted, in callback order. *)
Definition completed_keys (evs : list InsertStream.Event) : list Key :=
  omap (λ ev, match ev with
              | InsertStream.InsertCompleted k => Some k
              | _ => None
              end) evs.

(** A request whose only content is a chunk; its keep list names another
    key. *)
Definition example_request_chunk_only : InsertStreamRequest :=
  mkInsertStreamRequest [example_chunk 1 10] [] [5%N].

(** The chunk and the item that uses it come in the same message. *)
Definition example_request_round_trip : InsertStreamRequest :=
  mkInsertStreamRequest [example_chunk 1 10; example_chunk 2 10]
    [example_item 9 "open" [1%N; 2%N]] [].

(** The second item goes to the closed table. *)
Definition example_request_closed_table : InsertStreamRequest :=
  mkInsertStreamRequest [example_chunk 1 10]
    [example_item 1 "open" [1%N]; example_item 2 "closed" [1%N];
     example_item 3 "open" [1%N]] [1%N].

(** ** Operations in flight *)

(** The number of operations of one kind that have been started and not yet
    completed: [n] before a callback, the result after it. [completes] says
    that the callback is the completion of such an operation and [starts]
    recognises the effects that start one. The result is [None] when the
    callback completes an operation although none is in flight, which the
    transport and the tables never do. *)
Definition in_flight_after {Response : Type} (starts : Effect Response → bool)
    (completes : bool) (effs : list (Effect Response)) (n : nat) : option nat :=
  let started := length (filter (λ e, starts e = true) effs) in
  if completes
  then match n with
       | O => None
       | S m => Some (m + started)%nat
       end
  else Some (n + started)%nat.

Section in_flight.
Context {Table : Type} `{!TableOps Table}.
Variable GetChunkKeys : FlatTrajectory → list Key.
Variable ShortDebugString : InsertStreamRequest → string.
Variable kAutoSelectValue : Z.

Definition is_ReadDone (ev : InsertStream.Event) : bool :=
  match ev with InsertStream.ReadDone _ _ _ => true | _ => false end.

Definition is_WriteDone (ev : InsertStream.Event) : bool :=
  match ev with InsertStream.WriteDone _ _ => true | _ => false end.

(** The reads (with [starts := is_StartRead], [completes := is_ReadDone]) or
    writes ([is_StartWrite], [is_WriteDone]) in flight after a run of the
    insert reactor that begins with [n] of them in flight. *)
Fixpoint insert_in_flight (starts : Effect InsertStreamResponse → bool)
    (completes : InsertStream.Event → bool) (evs : list InsertStream.Event)
    (r : InsertStream.WorkerlessInsertReactor) (tables_ : gmap string Table)
    (n : nat) : option nat :=
  match evs with
  | [] => Some n
  | ev :: rest =>
      let '(r', tables', effs) :=
        InsertStream.step GetChunkKeys ShortDebugString ev r tables_ in
      match in_flight_after starts (completes ev) effs n with
      | None => None
      | Some n' => insert_in_flight starts completes rest r' tables' n'
      end
  end.

Definition is_SamplingDone (ev : SampleStream.Event) : bool :=
  match ev with SampleStream.SamplingDone _ => true | _ => false end.

(** The sampling requests enqueued on the table and not yet answered, after a
    run of the sample reactor that begins with [n] of them. *)
Fixpoint sampling_in_flight (tables_ : gmap string Table)
    (evs : list SampleStream.Event) (r : SampleStream.WorkerlessSampleReactor)
    (n : nat) : option nat :=
  match evs with
  | [] => Some n
  | ev :: rest =>
      let '(r', effs) := SampleStream.step kAutoSelectValue tables_ ev r in
      match in_flight_after is_CallEnqueSampleRequest (is_SamplingDone ev) effs n with
      | None => None
      | Some n' => sampling_in_flight tables_ rest r' n'
      end
  end.
End in_flight.

(** A run of the insert reactor: two messages are read, three items are
    reported by their tables, and one write completes. *)
Definition example_insert_run : list InsertStream.Event :=
  [InsertStream.ReadDone true Status_OK example_request_round_trip;
   InsertStream.InsertCompleted 9;
   InsertStream.ReadDone true Status_OK example_request_two_tables;
   InsertStream.InsertCompleted 2;
   InsertStream.InsertCompleted 1;
   InsertStream.WriteDone true Status_OK].

(** ** Observations on the sample reactor's queue *)

(** The sampled items the responses of a queue keep alive, front response
    first. *)
Definition all_table_items (q : SampleStream.Queue) : list TableItem :=
  concat (SampleStream.table_items <$> q).

(** The chunks of a batch of samples, in order. *)
Definition batch_chunks (ss : list SampleStream.SampledItem) : list ChunkData :=
  concat ((λ s, chunks (SampleStream.ref s)) <$> ss).

(** A batch of three small items. *)
Definition example_batch_three_small : SampleStream.SampleRequest :=
  SampleStream.mkSampleRequest Status_OK
    [example_sampled 1 [example_chunk 1 10; example_chunk 2 10];
     example_sampled 2 [example_chunk 3 20];
     example_sampled 3 [example_chunk 4 30; example_chunk 5 30]].

(** A run of the sample reactor: a request for two samples in batches of
    one, the first batch, a completed write, and the second batch. *)
Definition example_sample_run : list SampleStream.Event :=
  [SampleStream.ReadDone true Status_OK (example_sample_request 2 1);
   SampleStream.SamplingDone example_batch_600KiB;
   SampleStream.WriteDone true Status_OK;
   SampleStream.SamplingDone example_batch_600KiB].

(** ** Example handshakes *)

(** A client of the server's process (pid 7) asks for the table "open", gets
    the cell at address 4096 and acknowledges the transfer. *)
Definition example_handshake : list InitializeConnection.Event :=
  [InitializeConnection.ReadDone true
     (InitializeConnection.mkRequest 7 "open" false) 4096;
   InitializeConnection.WriteDone true;
   InitializeConnection.ReadDone true
     (InitializeConnection.mkRequest 7 "open" true) 0].

(** The reactor after the address was written and before the client
    answers. *)
Definition example_connected_reactor : InitializeConnection.Reactor :=
  (InitializeConnection.run 7 example_tables (take 2 example_handshake)
     (InitializeConnection.new_reactor true).1).1.

(** * Properties *)

(** ** Facts about lists and maps used below *)

Lemma size_list_to_set_le (l : list Key) :
  (size (list_to_set l : gset Key) ≤ length l)%nat.
Proof.
  induction l as [|k l IH].
  - rewrite list_to_set_nil, size_empty. simpl. lia.
  - rewrite list_to_set_cons, size_union_alt, size_singleton.
    assert (size (list_to_set l ∖ {[k]} : gset Key) ≤ size (list_to_set l : gset Key))%nat
      as Hle.
    { apply subseteq_size. apply subseteq_difference_l. reflexivity. }
    simpl. lia.
Qed.

Lemma size_list_to_set_NoDup (l : list Key) :
  size (list_to_set l : gset Key) = length l → NoDup l.
Proof.
  induction l as [|k l IH]; [constructor|].
  rewrite list_to_set_cons. intros Hsz.
  destruct (decide (k ∈ l)) as [Hin|Hnin].
  - assert (({[k]} ∪ list_to_set l : gset Key) = list_to_set l) as Heq.
    { apply subseteq_union_1_L, singleton_subseteq_l, elem_of_list_to_set, Hin. }
    rewrite Heq in Hsz. pose proof (size_list_to_set_le l). simpl in Hsz. lia.
  - constructor; [done|]. apply IH.
    rewrite size_union in Hsz.
    2:{ apply disjoint_singleton_l. rewrite elem_of_list_to_set. exact Hnin. }
    rewrite size_singleton in Hsz. simpl in Hsz. lia.
Qed.

(** ** InsertStream: the chunk map *)

Lemma std_find_true (keep_keys : list Key) (k : Key) :
  InsertStream.std_find keep_keys k = true ↔ k ∈ keep_keys.
Proof.
  unfold InsertStream.std_find. rewrite existsb_exists. split.
  - intros (x & Hin & Heq). apply N.eqb_eq in Heq. subst x.
    by apply list_elem_of_In.
  - intros Hin. exists k. split; [by apply list_elem_of_In | apply N.eqb_refl].
Qed.

Lemma release_lookup (keep_keys : list Key) (chunks_ : gmap Key ChunkData) (k : Key) :
  (InsertStream.ReleaseOutOfRangeChunks keep_keys chunks_).2 !! k
  = if decide (k ∈ keep_keys) then chunks_ !! k else None.
Proof.
  assert ((InsertStream.ReleaseOutOfRangeChunks keep_keys chunks_).2
          = filter (λ kv, InsertStream.std_find keep_keys kv.1 = true) chunks_) as ->.
  { unfold InsertStream.ReleaseOutOfRangeChunks. by case_decide. }
  destruct (decide (k ∈ keep_keys)) as [Hin|Hnin].
  - destruct (chunks_ !! k) as [c|] eqn:Hk.
    + apply map_lookup_filter_Some. split; [done|]. simpl. by apply std_find_true.
    + apply map_lookup_filter_None. left. done.
  - apply map_lookup_filter_None. right. intros c _. simpl.
    rewrite std_find_true. done.
Qed.

Lemma release_dom_subseteq (keep_keys : list Key) (chunks_ : gmap Key ChunkData) :
  dom (InsertStream.ReleaseOutOfRangeChunks keep_keys chunks_).2
  ⊆ (list_to_set keep_keys : gset Key).
Proof.
  intros k Hk. apply elem_of_dom in Hk. rewrite release_lookup in Hk.
  case_decide as Hin; [by apply elem_of_list_to_set|].
  by destruct Hk.
Qed.

(** C5. [ReleaseOutOfRangeChunks keep_keys] keeps a chunk exactly when its
    key occurs in [keep_keys]; it answers FailedPrecondition exactly when the
    number of chunks left differs from the length of [keep_keys], and OK
    otherwise; when it answers OK the keys left are exactly the keys of
    [keep_keys]; a [keep_keys] with a repeated key is answered by
    FailedPrecondition. *)
Theorem ReleaseOutOfRangeChunks_keeps_exactly
    (keep_keys : list Key) (chunks_ : gmap Key ChunkData) :
  let status := (InsertStream.ReleaseOutOfRangeChunks keep_keys chunks_).1 in
  let chunks' := (InsertStream.ReleaseOutOfRangeChunks keep_keys chunks_).2 in
  (∀ k, chunks' !! k = if decide (k ∈ keep_keys) then chunks_ !! k else None)
  ∧ (size chunks' ≠ length keep_keys → error_code status = FAILED_PRECONDITION)
  ∧ (size chunks' = length keep_keys → status = Status_OK)
  ∧ (ok status = true → dom chunks' = list_to_set keep_keys)
  ∧ (¬ NoDup keep_keys → error_code status = FAILED_PRECONDITION).
Proof.
  intros status chunks'.
  assert (size chunks' ≠ length keep_keys → error_code status = FAILED_PRECONDITION)
    as Hfail.
  { subst status chunks'. unfold InsertStream.ReleaseOutOfRangeChunks.
    case_decide; simpl; [done|]. intros Hne. by destruct Hne. }
  assert (size chunks' = length keep_keys → status = Status_OK) as Hok.
  { subst status chunks'. unfold InsertStream.ReleaseOutOfRangeChunks.
    case_decide as Hd; simpl; [|done]. intros Heq. by destruct Hd. }
  assert (ok status = true → size chunks' = length keep_keys) as Hsize.
  { intros Hs. destruct (decide (size chunks' = length keep_keys)) as [|Hne]; [done|].
    apply Hfail in Hne. unfold ok in Hs. by rewrite Hne in Hs. }
  pose proof (release_dom_subseteq keep_keys chunks_) as Hsub.
  fold chunks' in Hsub.
  pose proof (size_list_to_set_le keep_keys) as Hle.
  pose proof (subseteq_size _ _ Hsub) as Hle'.
  rewrite size_dom in Hle'.
  split; [intros k; apply release_lookup|].
  split; [done|]. split; [done|]. split.
  - intros Hs. apply Hsize in Hs.
    apply set_subseteq_size_eq; [done|]. rewrite size_dom. lia.
  - intros Hdup. apply Hfail. intros Heq. apply Hdup.
    apply size_list_to_set_NoDup. lia.
Qed.

(** ** InsertStream: building an item *)

Section insert_item.
Context {Table : Type} `{!TableOps Table}.
Variable GetChunkKeys : FlatTrajectory → list Key.
Variable ShortDebugString : InsertStreamRequest → string.

Lemma gather_chunks_missing (chunks_ : gmap Key ChunkData)
    (pre : list Key) (K : Key) (post : list Key) (acc : list ChunkData) :
  Forall (λ k, is_Some (chunks_ !! k)) pre →
  chunks_ !! K = None →
  (InsertStream.gather_chunks chunks_ (pre ++ K :: post) acc).1
  = Internal ("Could not find sequence chunk " +:+ StrCat_uint K +:+ ".").
Proof.
  intros Hpre HK. revert acc.
  induction Hpre as [|k pre [c Hc] _ IH]; intros acc; simpl.
  - by rewrite HK.
  - rewrite Hc. apply IH.
Qed.

Lemma gather_chunks_present (chunks_ : gmap Key ChunkData)
    (ks : list Key) (acc : list ChunkData) :
  Forall (λ k, is_Some (chunks_ !! k)) ks →
  ∃ cs, InsertStream.gather_chunks chunks_ ks acc = (Status_OK, acc ++ cs)
        ∧ Forall2 (λ k c, chunks_ !! k = Some c) ks cs.
Proof.
  intros Hks. revert acc.
  induction Hks as [|k ks [c Hc] _ IH]; intros acc; simpl.
  - exists []. by rewrite app_nil_r.
  - rewrite Hc. destruct (IH (acc ++ [c])) as (cs & Heq & Hall).
    exists (c :: cs). rewrite Heq, <- app_assoc. split; [done|].
    by constructor.
Qed.

Lemma length_eqb_0_false {A : Type} (l : list A) :
  l ≠ [] → (length l =? 0)%nat = false.
Proof. by destruct l. Qed.

(** [ProcessIncomingRequest] on a message that carries items, with the
    two early exits resolved. *)
Lemma ProcessIncomingRequest_with_items
    (request : InsertStreamRequest) (r : InsertStream.WorkerlessInsertReactor)
    (tables_ : gmap string Table) :
  req_items request ≠ [] →
  InsertStream.ProcessIncomingRequest GetChunkKeys ShortDebugString request r tables_
  = let saved := (InsertStream.SaveChunks request (InsertStream.chunks_ r)).2 in
    let r1 := InsertStream.set_chunks_ saved (InsertStream.set_read_in_flight_ false r) in
    let loop := InsertStream.insert_items GetChunkKeys saved (req_items request) true tables_ in
    let released := InsertStream.ReleaseOutOfRangeChunks (keep_chunk_keys request) saved in
    let r2 := InsertStream.set_chunks_ released.2 r1 in
    if negb (ok loop.1.1.1) then (loop.1.1.1, r1, loop.1.2, loop.2)
    else if negb (ok released.1) then (released.1, r2, loop.1.2, loop.2)
    else if loop.1.1.2
    then (Status_OK, InsertStream.set_read_in_flight_ true r2, loop.1.2,
          loop.2 ++ [StartRead])
    else (Status_OK, r2, loop.1.2, loop.2).
Proof.
  intros Hitems. unfold InsertStream.ProcessIncomingRequest.
  rewrite (length_eqb_0_false _ Hitems), andb_false_r.
  unfold InsertStream.SaveChunks at 1. simpl.
  destruct (InsertStream.insert_items _ _ _ _ _) as [[[st ci] tb] calls]. simpl.
  destruct (InsertStream.ReleaseOutOfRangeChunks _ _) as [st' kept]. simpl.
  done.
Qed.

(** The item loop on a list split in two: the second part runs only if
    the first left with OK, from the tables and the [can_insert] the first
    part left. *)
Lemma insert_items_app (chunks_ : gmap Key ChunkData)
    (pre post : list PrioritizedItem) (can_insert : bool)
    (tables_ : gmap string Table) :
  InsertStream.insert_items GetChunkKeys chunks_ (pre ++ post) can_insert tables_
  = let first := InsertStream.insert_items GetChunkKeys chunks_ pre can_insert tables_ in
    if ok first.1.1.1 then
      let second :=
        InsertStream.insert_items GetChunkKeys chunks_ post first.1.1.2 first.1.2 in
      (second.1.1.1, second.1.1.2, second.1.2, first.2 ++ second.2)
    else first.
Proof.
  revert can_insert tables_.
  induction pre as [|it pre IH]; intros can_insert tables_.
  - simpl. by destruct (InsertStream.insert_items _ _ post _ _) as [[[??]?]?].
  - simpl.
    destruct (InsertStream.GetItemWithChunks _ _ _ _) as [st ti].
    destruct (ok st) eqn:Hst; simpl; [|by rewrite Hst].
    destruct (TableByName tables_ (table (item ti))) as [tbl|]; [|done].
    destruct (InsertOrAssignAsync ti tbl) as [[st' ci'] tbl'].
    unfold ToGrpcStatus.
    destruct (ok st') eqn:Hst'; simpl; [|by rewrite Hst'].
    rewrite IH.
    destruct (InsertStream.insert_items _ _ pre _ _) as [[[st1 ci1] tb1] calls1].
    simpl. destruct (ok st1); [|done].
    by destruct (InsertStream.insert_items _ _ post _ _) as [[[??]?]?].
Qed.

Lemma GetItemWithChunks_missing (chunks_ : gmap Key ChunkData)
    (request_item : PrioritizedItem) (pre : list Key) (K : Key) (post : list Key) :
  GetChunkKeys (flat_trajectory request_item) = pre ++ K :: post →
  Forall (λ k, is_Some (chunks_ !! k)) pre →
  chunks_ !! K = None →
  (InsertStream.GetItemWithChunks GetChunkKeys chunks_ TableItem_default request_item).1
  = Internal ("Could not find sequence chunk " +:+ StrCat_uint K +:+ ".").
Proof.
  intros Hks Hpre HK. unfold InsertStream.GetItemWithChunks. rewrite Hks.
  pose proof (gather_chunks_missing chunks_ pre K post (chunks TableItem_default) Hpre HK)
    as Hg.
  destruct (InsertStream.gather_chunks _ _ _) as [st cs]. simpl in Hg. subst st.
  done.
Qed.

Lemma GetItemWithChunks_present (chunks_ : gmap Key ChunkData)
    (request_item : PrioritizedItem) :
  Forall (λ k, is_Some (chunks_ !! k)) (GetChunkKeys (flat_trajectory request_item)) →
  ∃ cs, InsertStream.GetItemWithChunks GetChunkKeys chunks_ TableItem_default request_item
        = (Status_OK, mkTableItem request_item cs)
        ∧ Forall2 (λ k c, chunks_ !! k = Some c)
                  (GetChunkKeys (flat_trajectory request_item)) cs.
Proof.
  intros Hks. unfold InsertStream.GetItemWithChunks.
  destruct (gather_chunks_present chunks_ _ (chunks TableItem_default) Hks)
    as (cs & Heq & Hall).
  exists cs. rewrite Heq. simpl. done.
Qed.

(** C7. Building an item from a request item: if the first key of the
    trajectory that the local chunk map lacks is K, [GetItemWithChunks]
    fails with the status whose code is INTERNAL and whose message is
    "Could not find sequence chunk K.", K written in decimal; if every key
    is present, the item built holds the request item and one chunk
    reference per trajectory key, in trajectory order. When the failing item
    is reached in a message (the items before it went through), the read
    handler finishes the reactor and the stream ends with that very
    status. *)
Theorem missing_chunk_is_internal_error :
  (∀ (chunks_ : gmap Key ChunkData) request_item pre K post,
      GetChunkKeys (flat_trajectory request_item) = pre ++ K :: post →
      Forall (λ k, is_Some (chunks_ !! k)) pre →
      chunks_ !! K = None →
      (InsertStream.GetItemWithChunks GetChunkKeys chunks_ TableItem_default
         request_item).1
      = mkStatus INTERNAL ("Could not find sequence chunk " +:+ StrCat_uint K +:+ "."))
  ∧ (∀ (chunks_ : gmap Key ChunkData) request_item,
      Forall (λ k, is_Some (chunks_ !! k)) (GetChunkKeys (flat_trajectory request_item)) →
      ∃ cs, InsertStream.GetItemWithChunks GetChunkKeys chunks_ TableItem_default
              request_item
            = (Status_OK, mkTableItem request_item cs)
            ∧ Forall2 (λ k c, chunks_ !! k = Some c)
                      (GetChunkKeys (flat_trajectory request_item)) cs)
  ∧ (∀ request r (tables_ : gmap string Table) read_failed before it after pre K post,
      is_finished_ (InsertStream.base r) = false →
      req_items request = before ++ it :: after →
      let saved := (InsertStream.SaveChunks request (InsertStream.chunks_ r)).2 in
      ok (InsertStream.insert_items GetChunkKeys saved before true tables_).1.1.1 = true →
      GetChunkKeys (flat_trajectory it) = pre ++ K :: post →
      Forall (λ k, is_Some (saved !! k)) pre →
      saved !! K = None →
      let missing :=
        mkStatus INTERNAL ("Could not find sequence chunk " +:+ StrCat_uint K +:+ ".") in
      (InsertStream.ProcessIncomingRequest GetChunkKeys ShortDebugString
         request r tables_).1.1.1 = missing
      ∧ let done :=
          InsertStream.OnReadDone GetChunkKeys ShortDebugString true read_failed
            request r tables_ in
        is_finished_ (InsertStream.base done.1.1) = true
        ∧ last done.2 = Some (Finish missing)).
Proof.
  split; [|split].
  - intros. by eapply GetItemWithChunks_missing.
  - intros. by apply GetItemWithChunks_present.
  - intros request r tables_ read_failed before it after pre K post
           Hfin Hitems saved Hbefore Hks Hpre HK missing.
    assert (req_items request ≠ []) as Hne.
    { rewrite Hitems. by destruct before. }
    assert ((InsertStream.insert_items GetChunkKeys saved (req_items request) true
               tables_).1.1.1 = missing) as Hloop.
    { rewrite Hitems, insert_items_app. simpl.
      rewrite Hbefore. simpl.
      pose proof (GetItemWithChunks_missing saved it pre K post Hks Hpre HK) as Hg.
      destruct (InsertStream.GetItemWithChunks _ _ _ _) as [st ti].
      simpl in Hg. subst st. done. }
    assert (InsertStream.ProcessIncomingRequest GetChunkKeys ShortDebugString
              request r tables_
            = (missing,
               InsertStream.set_chunks_ saved (InsertStream.set_read_in_flight_ false r),
               (InsertStream.insert_items GetChunkKeys saved (req_items request) true
                  tables_).1.2,
               (InsertStream.insert_items GetChunkKeys saved (req_items request) true
                  tables_).2)) as HP.
    { rewrite (ProcessIncomingRequest_with_items _ _ _ Hne). cbv zeta.
      fold saved. rewrite Hloop. done. }
    split; [by rewrite HP|].
    unfold InsertStream.OnReadDone. rewrite Hfin. simpl negb. cbv iota.
    rewrite HP. simpl. unfold SetReactorAsFinished. rewrite Hfin. simpl.
    split; [done|]. by rewrite last_snoc.
Qed.
End insert_item.

(** ** InsertStream: the item loop and the back-pressure gate *)

Section insert_loop.
Context {Table : Type} `{!TableOps Table}.
Variable GetChunkKeys : FlatTrajectory → list Key.
Variable ShortDebugString : InsertStreamRequest → string.

Lemma GetItemWithChunks_ok_item (chunks_ : gmap Key ChunkData)
    (request_item : PrioritizedItem) :
  let res := InsertStream.GetItemWithChunks GetChunkKeys chunks_ TableItem_default
               request_item in
  ok res.1 = true → item res.2 = request_item.
Proof.
  unfold InsertStream.GetItemWithChunks.
  destruct (InsertStream.gather_chunks _ _ _) as [st cs].
  destruct (ok st) eqn:Hst; simpl; [done|]. by rewrite Hst.
Qed.

(** What the loop leaves: the calls it made are exactly the submissions of
    a prefix of the items (all of them when it leaves with OK), nothing but
    table calls is recorded, and [can_insert] is the value stored by the
    last call, or the initial one if no call was made. *)
Lemma insert_items_calls (chunks_ : gmap Key ChunkData)
    (items : list PrioritizedItem) (can_insert : bool)
    (tables_ : gmap string Table) :
  let loop := InsertStream.insert_items GetChunkKeys chunks_ items can_insert tables_ in
  (∃ rest, items = submitted loop.2 ++ rest
           ∧ (ok loop.1.1.1 = true → rest = []))
  ∧ length (can_insert_values loop.2) = length (submitted loop.2)
  ∧ loop.1.1.2 = default can_insert (last (can_insert_values loop.2))
  ∧ Forall (λ e, is_StartRead e = false) loop.2.
Proof.
  revert can_insert tables_.
  induction items as [|it items IH]; intros can_insert tables_; simpl.
  - repeat split; [|done..]. exists []. done.
  - pose proof (GetItemWithChunks_ok_item chunks_ it) as Hitem. simpl in Hitem.
    destruct (InsertStream.GetItemWithChunks _ _ _ _) as [st ti].
    simpl in Hitem.
    destruct (ok st) eqn:Hst; simpl.
    2:{ repeat split; [|done..]. exists (it :: items). rewrite Hst. done. }
    specialize (Hitem eq_refl).
    destruct (TableByName tables_ (table (item ti))) as [tbl|]; simpl.
    2:{ repeat split; [|done..]. exists (it :: items). done. }
    destruct (InsertOrAssignAsync ti tbl) as [[st' ci'] tbl'].
    unfold ToGrpcStatus.
    destruct (ok st') eqn:Hst'; simpl.
    2:{ repeat split; [|done..|by repeat constructor].
        exists items. rewrite Hitem, Hst'. done. }
    specialize (IH ci' (<[table (item ti) := tbl']> tables_)).
    destruct (InsertStream.insert_items _ _ items _ _) as [[[st1 ci1] tb1] calls1].
    simpl in *. destruct IH as ((rest & Heq & Hok) & Hlen & Hci & Hall).
    repeat split.
    + exists rest. rewrite Hitem. by rewrite Heq at 1.
    + lia.
    + rewrite Hci. destruct (can_insert_values calls1) as [|c cs] eqn:Hc; [done|].
      rewrite last_cons_cons.
      destruct (last (c :: cs)) eqn:Hl; [done|]. by apply last_None in Hl.
    + by constructor.
Qed.

Lemma can_insert_values_snoc_read (effs : list (Effect InsertStreamResponse)) :
  can_insert_values (effs ++ [StartRead]) = can_insert_values effs.
Proof. unfold can_insert_values. rewrite omap_app. simpl. by rewrite app_nil_r. Qed.

Lemma submitted_snoc_read (effs : list (Effect InsertStreamResponse)) :
  submitted (effs ++ [StartRead]) = submitted effs.
Proof. unfold submitted. rewrite omap_app. simpl. by rewrite app_nil_r. Qed.

Lemma no_StartRead_not_elem (effs : list (Effect InsertStreamResponse)) :
  Forall (λ e, is_StartRead e = false) effs → StartRead ∉ effs.
Proof.
  intros Hall Hin. rewrite Forall_forall in Hall.
  by specialize (Hall _ Hin).
Qed.

(** What the back-pressure gate tests. For a message with items that is
    processed without error, every item was submitted, and the reader is
    resumed (a read is started and [read_in_flight_] is set) exactly when the
    LAST call of [InsertOrAssignAsync] for the message stored true in
    [can_insert]: every call writes the same local, and the gate reads it
    once after the loop. *)
Theorem reader_resumes_iff_last_can_insert
    (request : InsertStreamRequest) (r : InsertStream.WorkerlessInsertReactor)
    (tables_ : gmap string Table) :
  let res := InsertStream.ProcessIncomingRequest GetChunkKeys ShortDebugString
               request r tables_ in
  req_items request ≠ [] →
  ok res.1.1.1 = true →
  submitted res.2 = req_items request
  ∧ length (can_insert_values res.2) = length (req_items request)
  ∧ (StartRead ∈ res.2 ↔ last (can_insert_values res.2) = Some true)
  ∧ (InsertStream.read_in_flight_ res.1.1.2 = true
     ↔ last (can_insert_values res.2) = Some true).
Proof.
  intros res Hitems. subst res.
  rewrite (ProcessIncomingRequest_with_items _ _ _ _ _ Hitems). cbv zeta.
  set (saved := (InsertStream.SaveChunks request (InsertStream.chunks_ r)).2).
  pose proof (insert_items_calls saved (req_items request) true tables_) as Hcalls.
  cbv zeta in Hcalls.
  destruct (InsertStream.insert_items _ _ _ _ _) as [[[st ci] tb] calls].
  destruct (InsertStream.ReleaseOutOfRangeChunks _ _) as [st' kept].
  simpl in *. destruct Hcalls as ((rest & Heq & Hrest) & Hlen & Hci & Hall).
  destruct (ok st) eqn:Hst; simpl; [|by rewrite Hst].
  rewrite (Hrest eq_refl), app_nil_r in Heq.
  destruct (ok st') eqn:Hst'; simpl; [|by rewrite Hst'].
  intros _.
  assert (last (can_insert_values calls) = Some ci) as Hlast.
  { destruct (last (can_insert_values calls)) as [c|] eqn:Hl; [by subst ci|].
    apply last_None in Hl. rewrite Hl, <- Heq in Hlen.
    destruct (req_items request); [done|]. simpl in Hlen. lia. }
  destruct ci; simpl.
  - rewrite can_insert_values_snoc_read, submitted_snoc_read, Hlast.
    repeat split; try done; [congruence|]. intros _. apply elem_of_app. right.
    apply list_elem_of_singleton. done.
  - rewrite Hlast. repeat split; try done; [congruence|].
    intros Hin. by apply no_StartRead_not_elem in Hin.
Qed.

Lemma SaveChunks_has_chunks (request : InsertStreamRequest)
    (chunks_ : gmap Key ChunkData) (c : ChunkData) :
  c ∈ req_chunks request →
  is_Some ((InsertStream.SaveChunks request chunks_).2 !! chunk_key c).
Proof.
  unfold InsertStream.SaveChunks. simpl. generalize (req_chunks request).
  intros l. revert chunks_.
  assert (∀ (l : list ChunkData) (m : gmap Key ChunkData) k,
            is_Some (m !! k) →
            is_Some (foldl (λ m chunk,
                       if decide (is_Some (m !! chunk_key chunk)) then m
                       else <[chunk_key chunk := chunk]> m) m l !! k)) as Hmono.
  { clear. induction l as [|x l IH]; intros m k Hk; simpl; [done|].
    apply IH. case_decide; [done|].
    destruct (decide (chunk_key x = k)) as [->|Hne].
    - rewrite lookup_insert_eq. by eexists.
    - by rewrite lookup_insert_ne. }
  induction l as [|x l IH]; intros chunks_ Hin; simpl.
  - by apply elem_of_nil in Hin.
  - apply elem_of_cons in Hin as [->|Hin]; [|by apply IH].
    apply Hmono. case_decide; [done|]. rewrite lookup_insert_eq. by eexists.
Qed.

Lemma release_status (keep_keys : list Key) (chunks_ : gmap Key ChunkData) :
  ok (InsertStream.ReleaseOutOfRangeChunks keep_keys chunks_).1 = false →
  error_code (InsertStream.ReleaseOutOfRangeChunks keep_keys chunks_).1
  = FAILED_PRECONDITION.
Proof. unfold InsertStream.ReleaseOutOfRangeChunks. by case_decide. Qed.

(** The first key of a list that the chunk map lacks. *)
Lemma first_missing_key (chunks_ : gmap Key ChunkData) (ks : list Key) :
  ¬ Forall (λ k, is_Some (chunks_ !! k)) ks →
  ∃ pre K post,
    ks = pre ++ K :: post
    ∧ Forall (λ k, is_Some (chunks_ !! k)) pre
    ∧ chunks_ !! K = None.
Proof.
  induction ks as [|k ks IH]; intros Hnot.
  - destruct Hnot. constructor.
  - destruct (chunks_ !! k) as [c|] eqn:Hk.
    + destruct IH as (pre & K & post & -> & Hpre & HK).
      { intros Hall. apply Hnot. constructor; [by rewrite Hk|done]. }
      exists (k :: pre), K, post. split; [done|]. split; [|done].
      constructor; [by rewrite Hk|done].
    + by exists [], k, ks.
Qed.

(** Why the loop over one item fails, and what it has done by then. *)
Lemma insert_items_one_failure (chunks_ : gmap Key ChunkData)
    (it : PrioritizedItem) (can_insert : bool) (tables_ : gmap string Table) :
  let loop := InsertStream.insert_items GetChunkKeys chunks_ [it] can_insert tables_ in
  let built :=
    (InsertStream.GetItemWithChunks GetChunkKeys chunks_ TableItem_default it).2 in
  ok loop.1.1.1 = false →
  (∃ pre K post,
     GetChunkKeys (flat_trajectory it) = pre ++ K :: post
     ∧ Forall (λ k, is_Some (chunks_ !! k)) pre
     ∧ chunks_ !! K = None
     ∧ loop.1.1.1
       = mkStatus INTERNAL ("Could not find sequence chunk " +:+ StrCat_uint K +:+ ".")
     ∧ loop.1.2 = tables_
     ∧ loop.2 = [])
  ∨ (Forall (λ k, is_Some (chunks_ !! k)) (GetChunkKeys (flat_trajectory it))
     ∧ TableByName tables_ (table it) = None
     ∧ loop.1.1.1
       = mkStatus NOT_FOUND ("Priority table " +:+ table it +:+ " was not found")
     ∧ loop.1.2 = tables_
     ∧ loop.2 = [])
  ∨ (Forall (λ k, is_Some (chunks_ !! k)) (GetChunkKeys (flat_trajectory it))
     ∧ ∃ tbl,
         TableByName tables_ (table it) = Some tbl
         ∧ ok (InsertOrAssignAsync built tbl).1.1 = false
         ∧ loop.1.1.1 = (InsertOrAssignAsync built tbl).1.1
         ∧ loop.1.2 = <[table it := (InsertOrAssignAsync built tbl).2]> tables_
         ∧ submitted loop.2 = [it]).
Proof.
  intros loop built. subst loop built.
  destruct (decide (Forall (λ k, is_Some (chunks_ !! k))
                      (GetChunkKeys (flat_trajectory it)))) as [Hall|Hnot].
  - destruct (GetItemWithChunks_present GetChunkKeys chunks_ it Hall)
      as (cs & Hbuilt & _).
    cbn [InsertStream.insert_items]. rewrite Hbuilt.
    cbn [ok error_code Status_OK negb item table snd].
    destruct (TableByName tables_ (table it)) as [tbl|] eqn:Htbl.
    + destruct (InsertOrAssignAsync (mkTableItem it cs) tbl) as [[st ci] tbl'] eqn:Hcall.
      destruct (ok st) eqn:Hst; cbn [negb fst snd].
      * cbn. done.
      * intros _. right. right. split; [done|]. exists tbl.
        rewrite Hcall. cbn [fst snd]. done.
    + intros _. right. left. done.
  - destruct (first_missing_key chunks_ _ Hnot) as (pre & K & post & Hks & Hpre & HK).
    pose proof (GetItemWithChunks_missing GetChunkKeys chunks_ it pre K post
                  Hks Hpre HK) as Hst.
    cbn [InsertStream.insert_items].
    destruct (InsertStream.GetItemWithChunks GetChunkKeys chunks_ TableItem_default it)
      as [st built].
    cbn [fst] in Hst. subst st. cbn [ok error_code Internal negb fst snd].
    intros _. left. exists pre, K, post. done.
Qed.

(** Why the loop fails: the items before the failing one all went through
    and were handed to their tables; the failing one lacks a chunk, or names
    no table, or is refused by its table, to which it has then been handed
    as well. *)
Lemma insert_items_failure (chunks_ : gmap Key ChunkData)
    (items : list PrioritizedItem) (can_insert : bool)
    (tables_ : gmap string Table) :
  let loop := InsertStream.insert_items GetChunkKeys chunks_ items can_insert tables_ in
  ok loop.1.1.1 = false →
  ∃ before it after,
    items = before ++ it :: after
    ∧ let first :=
        InsertStream.insert_items GetChunkKeys chunks_ before can_insert tables_ in
      let built :=
        (InsertStream.GetItemWithChunks GetChunkKeys chunks_ TableItem_default it).2 in
      ok first.1.1.1 = true
      ∧ ((∃ pre K post,
            GetChunkKeys (flat_trajectory it) = pre ++ K :: post
            ∧ Forall (λ k, is_Some (chunks_ !! k)) pre
            ∧ chunks_ !! K = None
            ∧ loop.1.1.1
              = mkStatus INTERNAL
                  ("Could not find sequence chunk " +:+ StrCat_uint K +:+ ".")
            ∧ loop.1.2 = first.1.2
            ∧ submitted loop.2 = before)
         ∨ (Forall (λ k, is_Some (chunks_ !! k)) (GetChunkKeys (flat_trajectory it))
            ∧ TableByName first.1.2 (table it) = None
            ∧ loop.1.1.1
              = mkStatus NOT_FOUND ("Priority table " +:+ table it +:+ " was not found")
            ∧ loop.1.2 = first.1.2
            ∧ submitted loop.2 = before)
         ∨ (Forall (λ k, is_Some (chunks_ !! k)) (GetChunkKeys (flat_trajectory it))
            ∧ ∃ tbl,
                TableByName first.1.2 (table it) = Some tbl
                ∧ ok (InsertOrAssignAsync built tbl).1.1 = false
                ∧ loop.1.1.1 = (InsertOrAssignAsync built tbl).1.1
                ∧ loop.1.2
                  = <[table it := (InsertOrAssignAsync built tbl).2]> first.1.2
                ∧ submitted loop.2 = before ++ [it])).
Proof.
  cbv zeta. induction items as [|y init IH] using rev_ind; [done|].
  rewrite insert_items_app. cbv zeta.
  pose proof (insert_items_calls chunks_ init can_insert tables_) as Hcalls.
  cbv zeta in Hcalls. destruct Hcalls as ((rest & Hsub & Hrest) & _).
  destruct (ok (InsertStream.insert_items GetChunkKeys chunks_ init can_insert
                  tables_).1.1.1) eqn:Hfirst.
  - rewrite (Hrest eq_refl), app_nil_r in Hsub.
    set (first := InsertStream.insert_items GetChunkKeys chunks_ init can_insert
                    tables_) in *.
    cbn [fst snd]. intros Hfail.
    exists init, y, []. split; [done|]. split; [done|].
    destruct (insert_items_one_failure chunks_ y first.1.1.2 first.1.2 Hfail)
      as [(pre & K & post & Hks & Hpre & HK & Hst & Htb & Heffs)
         |[(Hall & Htbl & Hst & Htb & Heffs)
          |(Hall & tbl & Htbl & Hok & Hst & Htb & Heffs)]].
    + left. exists pre, K, post. rewrite Heffs, app_nil_r. done.
    + right. left. rewrite Heffs, app_nil_r. done.
    + right. right. split; [done|]. exists tbl.
      unfold submitted in *. rewrite omap_app, Heffs, <- Hsub. done.
  - intros _. destruct (IH eq_refl) as (before & it & after & -> & Hbefore & Hwhy).
    exists before, it, (after ++ [y]).
    split; [by rewrite <- app_assoc|]. done.
Qed.

(** C9, amended. When [ProcessIncomingRequest] fails after [SaveChunks] has
    run, every chunk of the message had been saved, and the items submitted
    to tables so far are a prefix of the message's items. If the failure
    came from the item loop, the chunk map is left as [SaveChunks] left it,
    and the message splits at the failing item: the items listed before it
    went through the loop and have all been submitted, in order, and the
    items after it have not. The failing item lacks a chunk (status INTERNAL
    with the first missing key), or names no table (NotFound), and has not
    been submitted; or its table refused it, and it has been submitted as
    well. If the item loop went through, the failure is the
    FailedPrecondition of [ReleaseOutOfRangeChunks]: all items were
    submitted and the purge has already run, so of the saved chunks only
    those with a key in [keep_chunk_keys] are left. *)
Theorem failed_insert_message_leaves_effects
    (request : InsertStreamRequest) (r : InsertStream.WorkerlessInsertReactor)
    (tables_ : gmap string Table) :
  let res := InsertStream.ProcessIncomingRequest GetChunkKeys ShortDebugString
               request r tables_ in
  let saved := (InsertStream.SaveChunks request (InsertStream.chunks_ r)).2 in
  let loop_status :=
    (InsertStream.insert_items GetChunkKeys saved (req_items request) true tables_).1.1.1 in
  (req_chunks request ≠ [] ∨ req_items request ≠ []) →
  ok res.1.1.1 = false →
  (∀ c, c ∈ req_chunks request → is_Some (saved !! chunk_key c))
  ∧ (∃ rest, req_items request = submitted res.2 ++ rest)
  ∧ (ok loop_status = false →
       res.1.1.1 = loop_status
       ∧ InsertStream.chunks_ res.1.1.2 = saved
       ∧ ∃ before it after,
           req_items request = before ++ it :: after
           ∧ let first :=
               InsertStream.insert_items GetChunkKeys saved before true tables_ in
             let built :=
               (InsertStream.GetItemWithChunks GetChunkKeys saved TableItem_default
                  it).2 in
             ok first.1.1.1 = true
             ∧ ((∃ pre K post,
                   GetChunkKeys (flat_trajectory it) = pre ++ K :: post
                   ∧ Forall (λ k, is_Some (saved !! k)) pre
                   ∧ saved !! K = None
                   ∧ res.1.1.1
                     = mkStatus INTERNAL
                         ("Could not find sequence chunk " +:+ StrCat_uint K +:+ ".")
                   ∧ res.1.2 = first.1.2
                   ∧ submitted res.2 = before)
                ∨ (Forall (λ k, is_Some (saved !! k))
                          (GetChunkKeys (flat_trajectory it))
                   ∧ TableByName first.1.2 (table it) = None
                   ∧ res.1.1.1
                     = mkStatus NOT_FOUND
                         ("Priority table " +:+ table it +:+ " was not found")
                   ∧ res.1.2 = first.1.2
                   ∧ submitted res.2 = before)
                ∨ (Forall (λ k, is_Some (saved !! k))
                          (GetChunkKeys (flat_trajectory it))
                   ∧ ∃ tbl,
                       TableByName first.1.2 (table it) = Some tbl
                       ∧ ok (InsertOrAssignAsync built tbl).1.1 = false
                       ∧ res.1.1.1 = (InsertOrAssignAsync built tbl).1.1
                       ∧ res.1.2
                         = <[table it := (InsertOrAssignAsync built tbl).2]> first.1.2
                       ∧ submitted res.2 = before ++ [it])))
  ∧ (ok loop_status = true →
       error_code res.1.1.1 = FAILED_PRECONDITION
       ∧ submitted res.2 = req_items request
       ∧ ∀ k, InsertStream.chunks_ res.1.1.2 !! k
              = if decide (k ∈ keep_chunk_keys request) then saved !! k else None).
Proof.
  intros res saved loop_status Hnonempty Hfail.
  split; [intros c Hc; by apply SaveChunks_has_chunks|].
  assert (req_items request ≠ []) as Hitems.
  { intros Hnil. subst res. revert Hfail.
    unfold InsertStream.ProcessIncomingRequest. rewrite Hnil. simpl.
    destruct Hnonempty as [Hch|Hit]; [|done].
    rewrite (length_eqb_0_false _ Hch). simpl. done. }
  subst res loop_status. revert Hfail.
  rewrite (ProcessIncomingRequest_with_items _ _ _ _ _ Hitems). cbv zeta.
  fold saved.
  pose proof (insert_items_calls saved (req_items request) true tables_) as Hcalls.
  pose proof (insert_items_failure saved (req_items request) true tables_) as Hwhy.
  cbv zeta in Hcalls, Hwhy.
  pose proof (release_status (keep_chunk_keys request) saved) as Hrel.
  pose proof (release_lookup (keep_chunk_keys request) saved) as Hlook.
  destruct (InsertStream.insert_items GetChunkKeys saved (req_items request) true
              tables_) as [[[st ci] tb] calls].
  destruct (InsertStream.ReleaseOutOfRangeChunks _ _) as [st' kept].
  cbn [fst snd] in *. destruct Hcalls as ((rest & Heq & Hrest) & _).
  destruct (ok st) eqn:Hst; cbn [negb fst snd].
  - rewrite (Hrest eq_refl), app_nil_r in Heq.
    destruct (ok st') eqn:Hst'; cbn [negb fst snd].
    { destruct ci; cbn [fst snd ok error_code Status_OK]; done. }
    intros _. split; [exists []; by rewrite app_nil_r|].
    split; [done|]. intros _. split; [by apply Hrel|done].
  - intros _. split; [by exists rest|]. split; [|done].
    intros _. split; [done|]. split; [done|]. by apply Hwhy.
Qed.
End insert_loop.

(** ** InsertStream on concrete messages *)

Lemma existsb_is_StartRead {Response : Type} (effs : list (Effect Response)) :
  existsb is_StartRead effs = true → StartRead ∈ effs.
Proof.
  rewrite existsb_exists. intros (e & Hin & He).
  destruct e; try discriminate. by apply list_elem_of_In.
Qed.

Lemma missing_chunk_witness :
  (let request := example_request_missing_chunk in
   let r := (InsertStream.new_reactor).1 in
   let missing := mkStatus INTERNAL "Could not find sequence chunk 1." in
   (InsertStream.ProcessIncomingRequest example_GetChunkKeys example_ShortDebugString
      request r example_tables).1.1.1 = missing
   ∧ let done :=
       InsertStream.OnReadDone example_GetChunkKeys example_ShortDebugString true
         Status_OK request r example_tables in
     is_finished_ (InsertStream.base done.1.1) = true
     ∧ last done.2 = Some (Finish missing))
  ∧ (InsertStream.GetItemWithChunks example_GetChunkKeys
       (<[7%N := example_chunk 7 10]> ∅) TableItem_default
       (example_item 3 "open" [7%N; 18446744073709551615%N; 5%N])).1
    = mkStatus INTERNAL "Could not find sequence chunk 18446744073709551615.".
Proof.
  split.
  - intros request r missing.
    apply (proj2 (proj2 (missing_chunk_is_internal_error example_GetChunkKeys
                           example_ShortDebugString))
             request r example_tables Status_OK
             [] (example_item 7 "open" [1%N]) [] [] 1%N []).
    + reflexivity.
    + reflexivity.
    + reflexivity.
    + reflexivity.
    + constructor.
    + reflexivity.
  - apply (proj1 (missing_chunk_is_internal_error (Table := ExampleTable)
                    example_GetChunkKeys example_ShortDebugString)
             (<[7%N := example_chunk 7 10]> ∅)
             (example_item 3 "open" [7%N; 18446744073709551615%N; 5%N])
             [7%N] 18446744073709551615%N [5%N]).
    + reflexivity.
    + repeat constructor. vm_compute. by eexists.
    + vm_compute. reflexivity.
Defined.

Lemma reader_resumes_witness :
  let request := example_request_two_tables in
  let res := InsertStream.ProcessIncomingRequest example_GetChunkKeys
               example_ShortDebugString request (InsertStream.new_reactor).1
               example_tables in
  submitted res.2 = req_items request
  ∧ length (can_insert_values res.2) = length (req_items request)
  ∧ (StartRead ∈ res.2 ↔ last (can_insert_values res.2) = Some true)
  ∧ (InsertStream.read_in_flight_ res.1.1.2 = true
     ↔ last (can_insert_values res.2) = Some true).
Proof.
  apply (reader_resumes_iff_last_can_insert example_GetChunkKeys
           example_ShortDebugString example_request_two_tables
           (InsertStream.new_reactor).1 example_tables).
  - discriminate.
  - vm_compute. reflexivity.
Defined.

(** C4 fails on the code. The first item of [example_request_two_tables]
    goes to the table without room, which queues it and stores false in
    [can_insert]; the second goes to the table with room, which stores true
    over it. The message is processed without error and the reader is
    resumed, [read_in_flight_] set and a read started, although an item of
    the message was not admitted at once: the comment at the gate gives the
    reason for resuming as the insert not having exceeded the table's
    buffer. *)
Theorem reader_resumed_although_item_queued :
  let request := example_request_two_tables in
  let res := InsertStream.ProcessIncomingRequest example_GetChunkKeys
               example_ShortDebugString request (InsertStream.new_reactor).1
               example_tables in
  req_items request ≠ []
  ∧ ok res.1.1.1 = true
  ∧ submitted res.2 = req_items request
  ∧ can_insert_values res.2 = [false; true]
  ∧ StartRead ∈ res.2
  ∧ InsertStream.read_in_flight_ res.1.1.2 = true
  ∧ ¬ (StartRead ∈ res.2 ↔ Forall (λ c, c = true) (can_insert_values res.2)).
Proof.
  intros request res.
  assert (can_insert_values res.2 = [false; true]) as Hvalues
    by (vm_compute; reflexivity).
  assert (StartRead ∈ res.2) as Hread
    by (apply existsb_is_StartRead; vm_compute; reflexivity).
  split; [discriminate|]. split; [vm_compute; reflexivity|].
  split; [vm_compute; reflexivity|]. split; [done|]. split; [done|].
  split; [vm_compute; reflexivity|].
  intros [Hall _]. rewrite Hvalues in Hall.
  specialize (Hall Hread). by inversion Hall.
Qed.

Lemma failed_insert_message_witness :
  let request := example_request_unknown_table in
  let r := (InsertStream.new_reactor).1 in
  let res := InsertStream.ProcessIncomingRequest example_GetChunkKeys
               example_ShortDebugString request r example_tables in
  let saved := (InsertStream.SaveChunks request (InsertStream.chunks_ r)).2 in
  (res.1.1.1 = mkStatus NOT_FOUND "Priority table nowhere was not found"
   ∧ submitted res.2 = [example_item 1 "open" [1%N]])
  ∧ (∀ c, c ∈ req_chunks request → is_Some (saved !! chunk_key c))
  ∧ InsertStream.chunks_ res.1.1.2 = saved
  ∧ ∃ before it after,
      req_items request = before ++ it :: after
      ∧ (submitted res.2 = before ∨ submitted res.2 = before ++ [it]).
Proof.
  intros request r res saved.
  split; [split; vm_compute; reflexivity|].
  destruct (failed_insert_message_leaves_effects example_GetChunkKeys
              example_ShortDebugString request r example_tables)
    as (Hsaved & _ & Hloop & _).
  - left. discriminate.
  - vm_compute. reflexivity.
  - split; [exact Hsaved|].
    destruct Hloop as (_ & Hchunks & before & it & after & Hsplit & _ & Hwhy).
    + vm_compute. reflexivity.
    + split; [exact Hchunks|]. exists before, it, after. split; [exact Hsplit|].
      destruct Hwhy as [(pre & K & post & _ & _ & _ & _ & _ & Hsub)
                       |[(_ & _ & _ & _ & Hsub)
                        |(_ & tbl & _ & _ & _ & _ & Hsub)]].
      * left. exact Hsub.
      * left. exact Hsub.
      * right. exact Hsub.
Defined.

(** C9 as stated fails for the FailedPrecondition of the keep list: in
    [example_request_bad_keep] chunk 1 arrives with the message, the purge
    erases it before the count is compared, and it is gone when the error is
    returned. *)
Lemma purged_chunk_does_not_remain :
  let request := example_request_bad_keep in
  let res := InsertStream.ProcessIncomingRequest example_GetChunkKeys
               example_ShortDebugString request (InsertStream.new_reactor).1
               example_tables in
  error_code res.1.1.1 = FAILED_PRECONDITION
  ∧ ¬ (∀ c, c ∈ req_chunks request →
            is_Some (InsertStream.chunks_ res.1.1.2 !! chunk_key c)).
Proof.
  intros request res. split; [vm_compute; reflexivity|].
  intros Hall. specialize (Hall (example_chunk 1 10)).
  assert (InsertStream.chunks_ res.1.1.2 !! chunk_key (example_chunk 1 10) = None)
    as Hgone by (vm_compute; reflexivity).
  rewrite Hgone in Hall. destruct Hall as [c Hc]; [|discriminate].
  apply list_elem_of_singleton. reflexivity.
Qed.

(** ** The registry after [Initialize] *)

Section registry.
Context {Table : Type} `{!TableOps Table}.

Lemma register_tables_lookup (tables : list Table) (tables_ : gmap string Table)
    (n : string) :
  register_tables tables tables_ !! n
  = match last (filter (λ tbl, name tbl = n) tables) with
    | Some tbl => Some tbl
    | None => tables_ !! n
    end.
Proof.
  unfold register_tables. revert tables_.
  induction tables as [|tbl tables IH]; intros tables_; simpl; [done|].
  rewrite IH. rewrite filter_cons.
  destruct (decide (name tbl = n)) as [Heq|Hne].
  - destruct (filter (λ tbl, name tbl = n) tables) as [|t' ts] eqn:Hf.
    + simpl. rewrite <- Heq. apply lookup_insert_eq.
    + rewrite last_cons_cons.
      destruct (last (t' :: ts)) eqn:Hl; [done|]. by apply last_None in Hl.
  - destruct (last (filter (λ tbl, name tbl = n) tables)); [done|].
    by apply lookup_insert_ne.
Qed.

(** C10. Whatever names the tables carry, [Initialize] on a fresh service
    succeeds as soon as the checkpoint loading does not fail (it never
    fails without a checkpointer), and afterwards a name resolves to the
    LAST table of the vector that carries it (with the callback executor
    attached), and to nothing if no table carries it: earlier tables of
    the same name are dropped without an error. *)
Theorem Initialize_keeps_last_table_of_a_name
    (tables : list Table) (rnd_high rnd_low : N) (cp : option Checkpointer) :
  let loaded := load_checkpoint cp tables in
  let res := Initialize tables rnd_high rnd_low (mkService cp ∅ 0%N) in
  (cp = None → loaded = (Status_OK, tables))
  ∧ (ok loaded.1 || IsNotFound loaded.1 = true →
     res.1 = Status_OK
     ∧ ∀ n, TableByName (tables_ res.2) n
            = SetCallbackExecutor <$> last (filter (λ tbl, name tbl = n) loaded.2)).
Proof.
  intros loaded res. split; [by intros ->|].
  intros Hload. subst res. unfold Initialize. simpl checkpointer_.
  fold loaded. destruct loaded as [st loaded_tables]. simpl in *.
  replace (negb (ok st) && negb (IsNotFound st)) with false
    by (by destruct (ok st), (IsNotFound st)).
  simpl. split; [done|]. intros n. unfold TableByName.
  rewrite lookup_fmap, register_tables_lookup, lookup_empty.
  by destruct (last _).
Qed.
End registry.

Lemma Initialize_witness :
  let first := mkExampleTable "a" 1 false [] in
  let other := mkExampleTable "b" 2 false [] in
  let second := mkExampleTable "a" 3 false [] in
  let res := Initialize [first; other; second] 1%N 2%N (mkService None ∅ 0%N) in
  TableByName (tables_ res.2) "a" = Some second
  ∧ res.1 = Status_OK
  ∧ ∀ n, TableByName (tables_ res.2) n
         = SetCallbackExecutor
             <$> last (filter (λ tbl, name tbl = n) [first; other; second]).
Proof.
  intros first other second res.
  split; [vm_compute; reflexivity|].
  apply (proj2 (Initialize_keeps_last_table_of_a_name [first; other; second]
                  1%N 2%N None)).
  reflexivity.
Defined.

(** ** SampleStream: validating a request *)

Lemma MaybeStartSampling_task_info (r : SampleStream.WorkerlessSampleReactor) :
  SampleStream.task_info_ (SampleStream.MaybeStartSampling r).1
  = SampleStream.task_info_ r.
Proof.
  unfold SampleStream.MaybeStartSampling.
  repeat (case_match; simpl; try done).
Qed.

Section sample_request.
Context {Table : Type} `{!TableOps Table}.
Variable kAutoSelectValue : Z.

Lemma sample_request_passes_checks
    (request : SampleStream.SampleStreamRequest)
    (r : SampleStream.WorkerlessSampleReactor) (tables_ : gmap string Table) :
  0 < SampleStream.num_samples request →
  0 < SampleStream.flexible_batch_size request
  ∨ SampleStream.flexible_batch_size request = kAutoSelectValue →
  let res := SampleStream.ProcessIncomingRequest kAutoSelectValue request r tables_ in
  SampleStream.timeout (SampleStream.task_info_ res.1.2)
  = match SampleStream.rate_limiter_timeout request with
    | Some ms => if ms >? 0 then Milliseconds ms else InfiniteDuration
    | None => InfiniteDuration
    end
  ∧ match TableByName tables_ (SampleStream.req_table request) with
    | None => res.1.1 = TableNotFound (SampleStream.req_table request)
    | Some _ => res.1.1 = Status_OK
    end.
Proof.
  intros Hn Hb. unfold SampleStream.ProcessIncomingRequest.
  destruct (Z.leb_spec (SampleStream.num_samples request) 0) as [Hn'|_]; [lia|].
  replace ((SampleStream.flexible_batch_size request <=? 0)
           && negb (SampleStream.flexible_batch_size request =? kAutoSelectValue))
    with false.
  2:{ destruct Hb as [Hb|Hb].
      - destruct (Z.leb_spec (SampleStream.flexible_batch_size request) 0); [lia|done].
      - rewrite Hb, Z.eqb_refl. simpl. by rewrite andb_false_r. }
  destruct (TableByName tables_ (SampleStream.req_table request)) as [tbl|]; [|done].
  match goal with
  | |- context [SampleStream.MaybeStartSampling ?x] =>
      pose proof (MaybeStartSampling_task_info x) as Ht;
      destruct (SampleStream.MaybeStartSampling x) as [r' calls]
  end.
  simpl in *. by rewrite Ht.
Qed.

(** C6. [ProcessIncomingRequest] of the sample reactor answers
    InvalidArgument when [num_samples] is not greater than 0, and when
    [flexible_batch_size] is neither greater than 0 nor the auto-select
    value; for a request that passes both checks it answers NotFound when
    the table name does not resolve and OK when it does, and the timeout of
    the task is the request's [rate_limiter_timeout] in milliseconds when
    that field is present and positive, and infinite otherwise. *)
Theorem sample_request_validation
    (request : SampleStream.SampleStreamRequest)
    (r : SampleStream.WorkerlessSampleReactor) (tables_ : gmap string Table) :
  let res := SampleStream.ProcessIncomingRequest kAutoSelectValue request r tables_ in
  let batch := SampleStream.flexible_batch_size request in
  let valid_batch := 0 < batch ∨ batch = kAutoSelectValue in
  let task_timeout := SampleStream.timeout (SampleStream.task_info_ res.1.2) in
  (SampleStream.num_samples request ≤ 0 → error_code res.1.1 = INVALID_ARGUMENT)
  ∧ (¬ valid_batch → error_code res.1.1 = INVALID_ARGUMENT)
  ∧ (0 < SampleStream.num_samples request → valid_batch →
       (TableByName tables_ (SampleStream.req_table request) = None →
          res.1.1 = TableNotFound (SampleStream.req_table request)
          ∧ error_code res.1.1 = NOT_FOUND)
       ∧ (is_Some (TableByName tables_ (SampleStream.req_table request)) →
          res.1.1 = Status_OK)
       ∧ (∀ ms, SampleStream.rate_limiter_timeout request = Some ms → 0 < ms →
            task_timeout = Milliseconds ms)
       ∧ (SampleStream.rate_limiter_timeout request = None
          ∨ (∃ ms, SampleStream.rate_limiter_timeout request = Some ms ∧ ms ≤ 0) →
            task_timeout = InfiniteDuration)).
Proof.
  intros res batch valid_batch task_timeout.
  split; [|split].
  - intros Hn. subst res. unfold SampleStream.ProcessIncomingRequest.
    destruct (Z.leb_spec (SampleStream.num_samples request) 0); [done|lia].
  - intros Hb. subst res. unfold SampleStream.ProcessIncomingRequest.
    destruct (Z.leb_spec (SampleStream.num_samples request) 0); [done|].
    destruct (Z.leb_spec batch 0) as [Hle|Hgt].
    2:{ exfalso. apply Hb. by left. }
    destruct (Z.eqb_spec batch kAutoSelectValue) as [Heq|Hne].
    { exfalso. apply Hb. by right. }
    fold batch. destruct (Z.leb_spec batch 0); [|lia].
    destruct (Z.eqb_spec batch kAutoSelectValue); done.
  - intros Hn Hb.
    destruct (sample_request_passes_checks request r tables_ Hn Hb) as [Ht Hres].
    fold res in Ht, Hres. fold task_timeout in Ht.
    split; [|split; [|split]].
    + intros Hnone. rewrite Hnone in Hres. by rewrite Hres.
    + intros [tbl Htbl]. by rewrite Htbl in Hres.
    + intros ms Hms Hpos. rewrite Ht, Hms.
      destruct (Z.gtb_spec ms 0); [done|lia].
    + intros [Hnone|(ms & Hms & Hle)]; rewrite Ht.
      * by rewrite Hnone.
      * rewrite Hms. destruct (Z.gtb_spec ms 0); [lia|done].
Qed.
End sample_request.

(** ** SampleStream: packing samples into responses *)

Section packing.
Import SampleStream.

(** A response whose last entry is [e], the entry being filled. *)
Local Abbreviation open_ctx es e tis :=
  (mkCtx (mkSampleStreamResponse (es ++ [e])) tis).

Lemma modify_back_snoc {A : Type} (f : A → A) (l : list A) (x : A) :
  modify_back f (l ++ [x]) = l ++ [f x].
Proof.
  induction l as [|y l IH]; [done|].
  simpl. rewrite IH. by destruct l.
Qed.

Lemma modify_back_length {A : Type} (f : A → A) (l : list A) :
  length (modify_back f l) = length l.
Proof.
  induction l as [|y l IH]; [done|].
  simpl. destruct l; [done|]. simpl in *. by rewrite IH.
Qed.

Lemma on_entry_open (f : Entry → Entry) es e tis :
  on_entry f (open_ctx es e tis) = open_ctx es (f e) tis.
Proof. unfold on_entry. simpl. by rewrite modify_back_snoc. Qed.

Lemma all_entries_app (q1 q2 : Queue) :
  all_entries (q1 ++ q2) = all_entries q1 ++ all_entries q2.
Proof. unfold all_entries. by rewrite fmap_app, concat_app. Qed.

Lemma all_entries_open es e tis :
  all_entries [open_ctx es e tis] = es ++ [e].
Proof. unfold all_entries. simpl. by rewrite app_nil_r. Qed.

(** One turn of the [for] loop on a queue whose back is being filled. *)
Lemma chunk_loop_cons sample n i chunk rest qs es e tis bytes :
  chunk_loop sample n i (chunk :: rest) (qs ++ [open_ctx es e tis]) bytes
  = let e1 := set_end_of_sequence (i + 1 =? n)%nat e in
    let e2 := if (i =? 0)%nat then set_info sample e1 else e1 in
    let e3 := add_data chunk e2 in
    let bytes' := wrap_int64 (bytes + Z.of_N (ByteSizeLong chunk)) in
    if (i <? n - 1)%nat && (bytes' >? kMaxSampleResponseSizeBytes)
    then chunk_loop sample n (S i) rest
           ((qs ++ [open_ctx es e3 tis]) ++ [open_ctx [] Entry_default []]) 0
    else chunk_loop sample n (S i) rest (qs ++ [open_ctx es e3 tis]) bytes'.
Proof.
  simpl chunk_loop. cbv zeta.
  destruct (i =? 0)%nat;
    repeat (rewrite modify_back_snoc || rewrite on_entry_open);
    reflexivity.
Qed.

(** The entries the loop writes for the chunks from index [i] on, starting
    with the entry being filled. *)
Lemma chunk_loop_entries sample n cs :
  ∀ i qs es e tis bytes,
    (i + length cs = n)%nat →
    ∃ out,
      all_entries (chunk_loop sample n i cs (qs ++ [open_ctx es e tis]) bytes).1
      = all_entries qs ++ es ++ out
      ∧ length (chunk_loop sample n i cs (qs ++ [open_ctx es e tis]) bytes).1
        = (length qs + length out)%nat
      ∧ out ≠ []
      ∧ concat (data <$> out) = data e ++ cs
      ∧ (cs ≠ [] ∨ data e ≠ [] → Forall (λ x, data x ≠ []) out)
      ∧ info <$> out
        = (if (i =? 0)%nat && negb (length cs =? 0)%nat then info_of sample else info e)
          :: replicate (length out - 1) None
      ∧ (cs ≠ [] →
         end_of_sequence <$> out = replicate (length out - 1) false ++ [true])
      ∧ (cs = [] → out = [e]).
Proof.
  induction cs as [|chunk rest IH]; intros i qs es e tis bytes Hn.
  - exists [e]. simpl. rewrite all_entries_app, all_entries_open.
    rewrite length_app, app_nil_r, andb_false_r. simpl.
    repeat split; try done.
    intros [?|He]; [done|]. by repeat constructor.
  - rewrite chunk_loop_cons. cbv zeta.
    remember (add_data chunk
                (if (i =? 0)%nat
                 then set_info sample (set_end_of_sequence (i + 1 =? n)%nat e)
                 else set_end_of_sequence (i + 1 =? n)%nat e)) as e3 eqn:He3.
    assert (data e3 = data e ++ [chunk]) as Hdata.
    { rewrite He3. by destruct (i =? 0)%nat. }
    assert (info e3 = if (i =? 0)%nat then info_of sample else info e) as Hinfo.
    { rewrite He3. by destruct (i =? 0)%nat. }
    assert (end_of_sequence e3 = (i + 1 =? n)%nat) as Heos.
    { rewrite He3. by destruct (i =? 0)%nat. }
    assert (data e3 ≠ []) as Hne.
    { rewrite Hdata. by destruct (data e). }
    clear He3. rewrite length_cons in Hn.
    replace (negb (length (chunk :: rest) =? 0)%nat) with true by done.
    rewrite andb_true_r.
    destruct ((i <? n - 1)%nat && _) eqn:Hsplit.
    + apply andb_prop in Hsplit as [Hi _]. apply Nat.ltb_lt in Hi.
      destruct (IH (S i) (qs ++ [open_ctx es e3 tis]) [] Entry_default [] 0)
        as (out & Hall & Hlen & Hout & Hcat & Hnonempty & Hinf & Hend & _); [lia|].
      assert (rest ≠ []) as Hrest.
      { destruct rest; [|done]. rewrite length_nil in Hn. lia. }
      destruct out as [|o out]; [done|].
      exists (e3 :: o :: out). rewrite Hall, Hlen.
      rewrite all_entries_app, all_entries_open, length_app, !length_cons, length_nil.
      rewrite !length_cons, !Nat.sub_succ, Nat.sub_0_r in *.
      rewrite !fmap_cons in *.
      split; [by rewrite <- !app_assoc|].
      split; [lia|]. split; [done|]. split.
      { rewrite concat_cons, Hcat, Hdata, <- app_assoc. done. }
      split.
      { intros _. constructor; [done|]. apply Hnonempty. by left. }
      split.
      { rewrite Hinfo, Hinf. done. }
      split; [|done].
      intros _. rewrite (Hend Hrest), Heos.
      replace (i + 1 =? n)%nat with false by (symmetry; apply Nat.eqb_neq; lia).
      done.
    + destruct (IH (S i) qs es e3 tis
                  (wrap_int64 (bytes + Z.of_N (ByteSizeLong chunk))))
        as (out & Hall & Hlen & Hout & Hcat & Hnonempty & Hinf & Hend & Hnil); [lia|].
      exists out. rewrite Hall, Hlen.
      split; [done|]. split; [done|]. split; [done|]. split.
      { rewrite Hcat, Hdata, <- app_assoc. done. }
      split.
      { intros _. apply Hnonempty. by right. }
      split.
      { rewrite Hinf, Hinfo. done. }
      split; [|done].
      intros _. destruct rest as [|c' rest'].
      * rewrite (Hnil eq_refl), length_nil in *.
        rewrite fmap_cons, Heos.
        replace (i + 1 =? n)%nat with true by (symmetry; apply Nat.eqb_eq; lia).
        done.
      * by apply Hend.
Qed.

Lemma modify_back_AddTableItem_entries (it : TableItem) (q : Queue) :
  all_entries (modify_back (AddTableItem it) q) = all_entries q
  ∧ (response_chunks <$> modify_back (AddTableItem it) q) = (response_chunks <$> q).
Proof.
  destruct (decide (q = [])) as [->|Hne]; [done|].
  destruct (exists_last Hne) as (qs & c & ->).
  rewrite modify_back_snoc, !all_entries_app, !fmap_app. done.
Qed.

(** [ProcessSample] up to the loop: the response the sample starts in is
    either the back of the queue, when the counter is within the limit, or
    a fresh one. *)
Lemma ProcessSample_open (sample : SampledItem) (write_in_flight : bool)
    (q : Queue) (bytes : Z) :
  ∃ qs c b0,
    ProcessSample sample write_in_flight q bytes
    = (let res :=
         chunk_loop sample (length (chunks (ref sample))) 0 (chunks (ref sample))
           (qs ++ [open_ctx (entries (payload c)) Entry_default (table_items c)]) b0 in
       (modify_back (AddTableItem (ref sample)) res.1, res.2))
    ∧ ((q = qs ++ [c] ∧ b0 = bytes ∧ bytes ≤ kMaxSampleResponseSizeBytes)
       ∨ (qs = q ∧ c = Ctx_default ∧ b0 = 0)).
Proof.
  unfold ProcessSample.
  destruct ((length q =? 0)%nat || (length q =? 1)%nat && write_in_flight
            || (bytes >? kMaxSampleResponseSizeBytes)) eqn:Hnew.
  - exists q, Ctx_default, 0. rewrite modify_back_snoc.
    split; [|by right].
    by destruct (chunk_loop _ _ _ _ _ _).
  - apply orb_false_elim in Hnew as [Hnew Hbytes].
    apply orb_false_elim in Hnew as [Hlen _].
    assert (q ≠ []) as Hne by (by destruct q).
    destruct (exists_last Hne) as (qs & c & ->).
    exists qs, c, bytes. rewrite modify_back_snoc.
    split.
    + by destruct (chunk_loop _ _ _ _ _ _).
    + left. split; [done|]. split; [done|].
      destruct (Z.gtb_spec bytes kMaxSampleResponseSizeBytes); [done|lia].
Qed.

(** The entries [ProcessSample] appends for a sample. *)
Lemma ProcessSample_entries (sample : SampledItem)
    (write_in_flight : bool) (q : Queue) (bytes : Z) :
  ∃ out,
    all_entries (ProcessSample sample write_in_flight q bytes).1 = all_entries q ++ out
    ∧ (length (ProcessSample sample write_in_flight q bytes).1
       ≤ length q + length out)%nat
    ∧ out ≠ []
    ∧ concat (data <$> out) = chunks (ref sample)
    ∧ (chunks (ref sample) = [] → out = [Entry_default])
    ∧ (chunks (ref sample) ≠ [] →
       Forall (λ e, data e ≠ []) out
       ∧ info <$> out = info_of sample :: replicate (length out - 1) None
       ∧ end_of_sequence <$> out = replicate (length out - 1) false ++ [true]).
Proof.
  destruct (ProcessSample_open sample write_in_flight q bytes)
    as (qs & c & b0 & -> & Hstart).
  destruct (chunk_loop_entries sample (length (chunks (ref sample)))
              (chunks (ref sample)) 0 qs (entries (payload c)) Entry_default
              (table_items c) b0 eq_refl)
    as (out & Hall & Hlen & Hout & Hcat & Hnonempty & Hinf & Hend & Hnil).
  exists out. cbv zeta. cbn [fst].
  rewrite (proj1 (modify_back_AddTableItem_entries _ _)), modify_back_length.
  rewrite Hall, Hlen.
  assert (all_entries q = all_entries qs ++ entries (payload c)
          ∧ (length qs ≤ length q)%nat) as [Hq Hqlen].
  { destruct Hstart as [(-> & _)|(-> & -> & _)].
    - rewrite all_entries_app, length_app. split; [|lia].
      f_equal. unfold all_entries. simpl. by rewrite app_nil_r.
    - split; [|done]. simpl. by rewrite app_nil_r. }
  rewrite Hq, <- app_assoc.
  split; [done|]. split; [lia|]. split; [done|]. split; [done|].
  split; [done|]. intros Hchunks.
  replace ((0 =? 0)%nat && negb (length (chunks (ref sample)) =? 0)%nat)
    with true in Hinf by (by destruct (chunks (ref sample))).
  split; [|split]; [|done|by apply Hend].
  apply Hnonempty. by left.
Qed.





Lemma length_le_concat {A : Type} (ls : list (list A)) :
  Forall (λ l, l ≠ []) ls → (length ls ≤ length (concat ls))%nat.
Proof.
  induction 1 as [|l ls Hl _ IH]; [done|].
  rewrite concat_cons, length_app, length_cons.
  destruct l; [done|]. rewrite length_cons. lia.
Qed.

(** A sample adds at most one response per chunk, and one if it has no
    chunk. *)
Lemma ProcessSample_length (sample : SampledItem)
    (write_in_flight : bool) (q : Queue) (bytes : Z) :
  (length (ProcessSample sample write_in_flight q bytes).1
   ≤ length q + Nat.max 1 (length (chunks (ref sample))))%nat.
Proof.
  destruct (ProcessSample_entries sample write_in_flight q bytes)
    as (out & _ & Hlen & _ & Hcat & Hnil & Hrun).
  destruct (decide (chunks (ref sample) = [])) as [Hempty|Hchunks].
  - rewrite (Hnil Hempty) in Hlen. simpl in Hlen. lia.
  - destruct (Hrun Hchunks) as (Hdata & _).
    assert (length out ≤ length (chunks (ref sample)))%nat; [|lia].
    rewrite <- Hcat. etrans; [|apply length_le_concat].
    + by rewrite length_fmap.
    + by apply Forall_fmap.
Qed.

(** *** The byte counter and the size limit *)

Lemma wrap_int64_small (z : Z) : - 2 ^ 63 ≤ z < 2 ^ 63 → wrap_int64 z = z.
Proof. intros Hz. unfold wrap_int64. rewrite Z.mod_small; lia. Qed.

Lemma chunk_bytes_app (l1 l2 : list ChunkData) :
  chunk_bytes (l1 ++ l2) = chunk_bytes l1 + chunk_bytes l2.
Proof. induction l1 as [|c l1 IH]; simpl; [done|]. rewrite IH. lia. Qed.

Lemma chunk_bytes_nonneg (l : list ChunkData) : 0 ≤ chunk_bytes l.
Proof. induction l as [|c l IH]; simpl; lia. Qed.

Lemma response_chunks_open es e tis :
  response_chunks (open_ctx es e tis) = concat (data <$> es) ++ data e.
Proof.
  unfold response_chunks. simpl. rewrite fmap_app, concat_app. simpl.
  by rewrite app_nil_r.
Qed.

Lemma within_limit_of_total (c : SampleStreamResponseCtx) :
  chunk_bytes (response_chunks c) ≤ kMaxSampleResponseSizeBytes →
  within_limit_before_last_chunk c.
Proof.
  intros Htotal front last_chunk Heq. rewrite Heq, chunk_bytes_app in Htotal.
  pose proof (chunk_bytes_nonneg [last_chunk]). lia.
Qed.

Lemma within_limit_one_more (c : SampleStreamResponseCtx) (l : list ChunkData)
    (chunk : ChunkData) :
  response_chunks c = l ++ [chunk] →
  chunk_bytes l ≤ kMaxSampleResponseSizeBytes →
  within_limit_before_last_chunk c.
Proof.
  intros Hc Hl front last_chunk Heq. rewrite Hc in Heq.
  apply app_inj_tail in Heq as [-> _]. done.
Qed.

(** The loop keeps every response within the limit before its last chunk,
    and leaves the counter equal to the size of the back response. *)
Lemma chunk_loop_within_limit sample n cs :
  ∀ i qs es e tis bytes,
    (i + length cs = n)%nat →
    Forall (λ c, Z.of_N (ByteSizeLong c) + kMaxSampleResponseSizeBytes < 2 ^ 63) cs →
    Forall within_limit_before_last_chunk qs →
    bytes ≤ kMaxSampleResponseSizeBytes →
    bytes = chunk_bytes (concat (data <$> es) ++ data e) →
    let res := chunk_loop sample n i cs (qs ++ [open_ctx es e tis]) bytes in
    Forall within_limit_before_last_chunk res.1
    ∧ ∃ qs' c', res.1 = qs' ++ [c'] ∧ res.2 = chunk_bytes (response_chunks c').
Proof.
  induction cs as [|chunk rest IH]; intros i qs es e tis bytes Hn Hfit Hqs Hle Hbytes.
  - simpl. split.
    + apply Forall_app. split; [done|]. constructor; [|done].
      apply within_limit_of_total. rewrite response_chunks_open. lia.
    + exists qs, (open_ctx es e tis). by rewrite response_chunks_open.
  - rewrite chunk_loop_cons. cbv zeta.
    remember (add_data chunk
                (if (i =? 0)%nat
                 then set_info sample (set_end_of_sequence (i + 1 =? n)%nat e)
                 else set_end_of_sequence (i + 1 =? n)%nat e)) as e3 eqn:He3.
    assert (data e3 = data e ++ [chunk]) as Hdata.
    { rewrite He3. by destruct (i =? 0)%nat. }
    clear He3. rewrite length_cons in Hn.
    apply Forall_cons in Hfit as [Hchunk Hfit].
    pose proof (chunk_bytes_nonneg (concat (data <$> es) ++ data e)) as Hpos.
    assert (0 ≤ kMaxSampleResponseSizeBytes) as Hmax by done.
    assert (2 ^ 63 = 9223372036854775808) as Hpow by done.
    rewrite wrap_int64_small by lia.
    assert (response_chunks (open_ctx es e3 tis)
            = (concat (data <$> es) ++ data e) ++ [chunk]) as Hresp.
    { by rewrite response_chunks_open, Hdata, app_assoc. }
    assert (within_limit_before_last_chunk (open_ctx es e3 tis)) as Hsealed.
    { eapply within_limit_one_more; [exact Hresp|lia]. }
    destruct ((i <? n - 1)%nat && _) eqn:Hsplit.
    + apply (IH (S i) (qs ++ [open_ctx es e3 tis]) [] Entry_default [] 0);
        [lia|done| |done|done].
      apply Forall_app. split; [done|]. by constructor.
    + apply andb_false_iff in Hsplit as [Hi|Hsmall].
      * apply Nat.ltb_ge in Hi.
        assert (rest = []) as -> by (destruct rest; [done|simpl in Hn; lia]).
        simpl. split.
        -- apply Forall_app. split; [done|]. by constructor.
        -- exists qs, (open_ctx es e3 tis). split; [done|].
           rewrite Hresp, chunk_bytes_app. simpl. lia.
      * apply (IH (S i) qs es e3 tis); [lia|done|done| |].
        -- destruct (Z.gtb_spec (bytes + Z.of_N (ByteSizeLong chunk))
                       kMaxSampleResponseSizeBytes); [done|lia].
        -- rewrite Hdata, app_assoc, chunk_bytes_app. simpl. lia.
Qed.

(** The queue and the counter fit together: every response is within the
    limit before its last chunk, and the counter is the size of the back
    response. *)
Local Abbreviation packed q bytes :=
  (Forall within_limit_before_last_chunk q%list
   ∧ ∀ qs c, q%list = qs ++ [c] → bytes = chunk_bytes (response_chunks c)).

Lemma Forall_within_limit_response_chunks (q q' : Queue) :
  response_chunks <$> q' = response_chunks <$> q →
  Forall within_limit_before_last_chunk q →
  Forall within_limit_before_last_chunk q'.
Proof.
  revert q'. induction q as [|c q IH]; intros [|c' q'] Heq Hq; try done.
  rewrite !fmap_cons in Heq. injection Heq as Hc Hrest.
  apply Forall_cons in Hq as [Hc' Hq]. constructor; [|by apply IH].
  intros front last_chunk Hfront. rewrite Hc in Hfront.
  by apply (Hc' front last_chunk).
Qed.

Lemma ProcessSample_packed (sample : SampledItem) (write_in_flight : bool)
    (q : Queue) (bytes : Z) :
  chunk_sizes_fit sample →
  packed q bytes →
  packed (ProcessSample sample write_in_flight q bytes).1
         (ProcessSample sample write_in_flight q bytes).2.
Proof.
  intros Hfit [Hq Hbytes].
  destruct (ProcessSample_open sample write_in_flight q bytes)
    as (qs & c & b0 & -> & Hstart). cbv zeta. cbn [fst snd].
  assert (Forall within_limit_before_last_chunk qs
          ∧ b0 ≤ kMaxSampleResponseSizeBytes
          ∧ b0 = chunk_bytes (concat (data <$> entries (payload c)) ++ data Entry_default))
    as (Hqs & Hle & Hb0).
  { destruct Hstart as [(-> & -> & Hle)|(-> & -> & ->)].
    - apply Forall_app in Hq as [Hqs _]. split; [done|]. split; [done|].
      simpl. rewrite app_nil_r. by apply (Hbytes qs c).
    - done. }
  destruct (chunk_loop_within_limit sample (length (chunks (ref sample)))
              (chunks (ref sample)) 0 qs (entries (payload c)) Entry_default
              (table_items c) b0 eq_refl Hfit Hqs Hle Hb0)
    as (Hall & qs' & c' & Hres & Hcount).
  pose proof (modify_back_AddTableItem_entries (ref sample)
                (chunk_loop sample (length (chunks (ref sample))) 0
                   (chunks (ref sample))
                   (qs ++ [open_ctx (entries (payload c)) Entry_default (table_items c)])
                   b0).1) as [_ Hsame].
  split.
  - by eapply Forall_within_limit_response_chunks.
  - intros qs2 c2 Heq. rewrite Hcount. rewrite Hres in Heq, Hsame.
    rewrite Heq, !fmap_app in Hsame. simpl in Hsame.
    apply app_inj_tail in Hsame as [_ Hlast]. by rewrite Hlast.
Qed.

Lemma process_samples_packed (ss : list SampledItem) (already_writing : bool) :
  ∀ (q : Queue) (bytes : Z),
    Forall chunk_sizes_fit ss →
    packed q bytes →
    packed (process_samples ss already_writing q bytes).1
           (process_samples ss already_writing q bytes).2.
Proof.
  induction ss as [|sample ss IH]; intros q bytes Hfit Hpacked; [done|].
  apply Forall_cons in Hfit as [Hsample Hfit]. simpl.
  pose proof (ProcessSample_packed sample already_writing q bytes Hsample Hpacked)
    as Hstep.
  destruct (ProcessSample sample already_writing q bytes) as [q1 bytes1].
  by apply IH.
Qed.
End packing.

(** ** SampleStream: the reactor *)

Section sample_reactor.
Import SampleStream.
Context {Table : Type} `{!TableOps Table}.
Variable kAutoSelectValue : Z.

Local Abbreviation packed q bytes :=
  (Forall within_limit_before_last_chunk q%list
   ∧ ∀ qs c, q%list = qs ++ [c] → bytes = chunk_bytes (response_chunks c)).

Lemma MaybeStartSampling_keeps (r : WorkerlessSampleReactor) :
  base (MaybeStartSampling r).1 = base r
  ∧ current_response_size_bytes_ (MaybeStartSampling r).1
    = current_response_size_bytes_ r
  ∧ Forall write_within_limit (MaybeStartSampling r).2
  ∧ (existsb is_CallEnqueSampleRequest (MaybeStartSampling r).2 = true →
     (length (responses_to_send_ (base r)) < kMaxQueuedResponses)%nat).
Proof.
  unfold MaybeStartSampling.
  destruct (NextSampleSize (task_info_ r) =? 0); [done|].
  destruct (waiting_for_enqueued_sample_ r); [done|].
  destruct (Nat.leb_spec kMaxQueuedResponses (length (responses_to_send_ (base r))));
    [done|].
  simpl. repeat split; try done.
  destruct (task_table (task_info_ r)); by repeat constructor.
Qed.

Lemma packed_nil (bytes : Z) : packed (@nil SampleStreamResponseCtx) bytes.
Proof. split; [done|]. intros qs c Heq. by destruct qs. Qed.

Lemma packed_tail (q : Queue) (bytes : Z) : packed q bytes → packed (tail q) bytes.
Proof.
  intros [Hq Hbytes]. destruct q as [|c0 q]; [done|]. simpl.
  apply Forall_cons in Hq as [_ Hq]. split; [done|].
  intros qs c ->. by apply (Hbytes (c0 :: qs) c).
Qed.

Lemma MaybeSendNextResponse_within_limit (b : ReverbServerReactor SampleStreamResponseCtx) :
  Forall within_limit_before_last_chunk (responses_to_send_ b) →
  Forall write_within_limit (MaybeSendNextResponse payload b).
Proof.
  unfold MaybeSendNextResponse. destruct (responses_to_send_ b) as [|c q]; [done|].
  intros Hq. apply Forall_cons in Hq as [Hc _]. by repeat constructor.
Qed.

Lemma SetReactorAsFinished_packed (status : Status)
    (b : ReverbServerReactor SampleStreamResponseCtx) (bytes : Z) :
  packed (responses_to_send_ b) bytes →
  packed (responses_to_send_
            (SetReactorAsFinished (Response:=SampleStreamResponse) status b).1) bytes
  ∧ Forall write_within_limit
      (SetReactorAsFinished (Response:=SampleStreamResponse) status b).2.
Proof.
  intros Hb. unfold SetReactorAsFinished. destruct (is_finished_ b); simpl.
  - done.
  - split; [apply packed_nil|by repeat constructor].
Qed.

Lemma ProcessIncomingRequest_keeps (request : SampleStreamRequest)
    (r : WorkerlessSampleReactor) (tables_ : gmap string Table) :
  let res := ProcessIncomingRequest kAutoSelectValue request r tables_ in
  base res.1.2 = base r
  ∧ current_response_size_bytes_ res.1.2 = current_response_size_bytes_ r
  ∧ Forall write_within_limit res.2.
Proof.
  unfold ProcessIncomingRequest.
  destruct (num_samples request <=? 0); [done|].
  destruct (_ && _); [done|].
  destruct (TableByName tables_ (req_table request)) as [tbl|]; [|done].
  match goal with
  | |- context [MaybeStartSampling ?x] =>
      pose proof (MaybeStartSampling_keeps x) as (Hb & Hbytes & Heffs & _);
      destruct (MaybeStartSampling x) as [r' calls]
  end.
  simpl in *. done.
Qed.

(** Every callback keeps the queue and the counter fitting together, and
    starts only writes of responses within the limit. *)
Lemma step_packed (tables_ : gmap string Table) (ev : Event)
    (r : WorkerlessSampleReactor) :
  event_chunks_fit ev →
  packed (responses_to_send_ (base r)) (current_response_size_bytes_ r) →
  let res := step kAutoSelectValue tables_ ev r in
  packed (responses_to_send_ (base res.1)) (current_response_size_bytes_ res.1)
  ∧ Forall write_within_limit res.2.
Proof.
  intros Hfit Hpacked. destruct ev as [read_ok read_failed request
                                       |write_ok write_failed|sample]; simpl.
  - unfold OnReadDone. destruct (is_finished_ (base r)); [done|].
    destruct read_ok; simpl.
    + pose proof (ProcessIncomingRequest_keeps request r tables_) as Hkeep.
      cbv zeta in Hkeep.
      destruct (ProcessIncomingRequest _ _ _ _) as [[st r'] effs].
      simpl in Hkeep. destruct Hkeep as (Hb & Hbytes & Heffs).
      destruct (ok st); simpl.
      * by rewrite Hb, Hbytes.
      * pose proof (SetReactorAsFinished_packed st (base r')
                      (current_response_size_bytes_ r')) as Hfin.
        rewrite Hb, Hbytes in Hfin. specialize (Hfin Hpacked).
        rewrite Hb. destruct (SetReactorAsFinished st (base r)) as [b fin].
          simpl in *. destruct Hfin as [Hq Hfin]. rewrite Hbytes.
        split; [done|]. apply Forall_app. done.
    + pose proof (SetReactorAsFinished_packed read_failed (base r)
                    (current_response_size_bytes_ r) Hpacked) as Hfin.
      destruct (SetReactorAsFinished read_failed (base r)) as [b fin].
      simpl in *. done.
  - unfold OnWriteDone.
    assert (packed (responses_to_send_
                      (Base_OnWriteDone payload write_ok write_failed (base r)).1)
                   (current_response_size_bytes_ r)
            ∧ Forall write_within_limit
                (Base_OnWriteDone payload write_ok write_failed (base r)).2) as Hbase.
    { unfold Base_OnWriteDone. destruct (is_finished_ (base r)) eqn:Hf; [done|].
      destruct write_ok; simpl.
      - split; [by apply packed_tail|].
        apply MaybeSendNextResponse_within_limit. simpl.
        by apply (packed_tail _ (current_response_size_bytes_ r)).
      - by apply SetReactorAsFinished_packed. }
    destruct (Base_OnWriteDone payload write_ok write_failed (base r)) as [b effs].
    simpl in Hbase. destruct Hbase as [Hq Heffs].
    pose proof (MaybeStartSampling_keeps (set_base b r)) as (Hb & Hbytes & Hcalls & _).
    destruct (MaybeStartSampling (set_base b r)) as [r' calls]. simpl in *.
    rewrite Hb, Hbytes. split; [done|]. by apply Forall_app.
  - unfold sampling_done_. simpl.
    destruct (ok (status sample)); simpl.
    + pose proof (process_samples_packed (samples sample)
                    (negb (length (responses_to_send_ (base r)) =? 0)%nat)
                    (responses_to_send_ (base r)) (current_response_size_bytes_ r)
                    Hfit Hpacked) as Hproc.
      destruct (process_samples _ _ _ _) as [q bytes]. simpl in Hproc.
      assert (Forall write_within_limit
                (if negb (negb (length (responses_to_send_ (base r)) =? 0)%nat)
                 then MaybeSendNextResponse payload (mkBase q (is_finished_ (base r)))
                 else [])) as Hwrites.
      { destruct (negb _); [|done].
        apply MaybeSendNextResponse_within_limit. simpl. apply Hproc. }
      destruct (negb (NextSampleSize _ =? 0)).
      * match goal with
        | |- context [MaybeStartSampling ?x] =>
            pose proof (MaybeStartSampling_keeps x) as (Hb & Hbytes & Hcalls & _);
            destruct (MaybeStartSampling x) as [r' calls]
        end.
        simpl in *. rewrite Hb, Hbytes. simpl. split; [done|]. by apply Forall_app.
      * simpl. split; [done|]. apply Forall_app. split; [done|].
        unfold MaybeStartRead. simpl. destruct (is_finished_ (base r)); by repeat constructor.
    + destruct (is_finished_ (base r)) eqn:Hf; simpl; [done|].
      unfold SetReactorAsFinished. simpl. rewrite Hf. simpl.
      split; [apply packed_nil|by repeat constructor].
Qed.

(** C2, amended. Along every run of the sample reactor from its
    construction, each queued response, and each response a write is
    started for, is within the limit BEFORE ITS LAST CHUNK: the chunks it
    carries, the last one left out, add up to at most 1 048 576 bytes. (A
    response is closed as soon as its payload exceeds the limit, so it
    exceeds the limit by at most its last chunk.) The chunk sizes are
    assumed not to overflow the 64-bit counter. *)
Theorem sample_response_within_limit_before_last_chunk
    (tables_ : gmap string Table) (evs : list Event)
    (t0 : SampleTaskInfo) (bytes0 : Z) :
  Forall event_chunks_fit evs →
  let res := run kAutoSelectValue tables_ evs (new_reactor t0 bytes0).1 in
  Forall within_limit_before_last_chunk (responses_to_send_ (base res.1))
  ∧ Forall write_within_limit res.2.
Proof.
  intros Hfit.
  assert (∀ r, packed (responses_to_send_ (base r)) (current_response_size_bytes_ r) →
               let res := run kAutoSelectValue tables_ evs r in
               packed (responses_to_send_ (base res.1))
                      (current_response_size_bytes_ res.1)
               ∧ Forall write_within_limit res.2) as Hrun.
  { induction Hfit as [|ev evs Hev _ IH]; intros r Hpacked; [done|].
    simpl. pose proof (step_packed tables_ ev r Hev Hpacked) as Hstep.
    cbv zeta in Hstep.
    destruct (step kAutoSelectValue tables_ ev r) as [r1 effs1].
    simpl in Hstep. destruct Hstep as [Hp1 He1].
    specialize (IH r1 Hp1). cbv zeta in IH.
    destruct (run kAutoSelectValue tables_ evs r1) as [r2 effs2].
    simpl in *. destruct IH as [Hp2 He2]. split; [done|]. by apply Forall_app. }
  intros res. destruct (Hrun (new_reactor t0 bytes0).1 (packed_nil bytes0))
    as [[Hq _] Heffs].
  done.
Qed.
End sample_reactor.

(** ** The bounds on the response queues *)

Section queue_bounds.
Context {Table : Type} `{!TableOps Table}.
Variable GetChunkKeys : FlatTrajectory → list Key.
Variable ShortDebugString : InsertStreamRequest → string.

Lemma insert_ProcessIncomingRequest_base (request : InsertStreamRequest)
    (r : InsertStream.WorkerlessInsertReactor) (tables_ : gmap string Table) :
  InsertStream.base
    (InsertStream.ProcessIncomingRequest GetChunkKeys ShortDebugString
       request r tables_).1.1.2
  = InsertStream.base r.
Proof.
  unfold InsertStream.ProcessIncomingRequest, InsertStream.SaveChunks.
  repeat case_match; done.
Qed.

Lemma SetReactorAsFinished_length {ResponseCtx Response : Type} (status : Status)
    (b : ReverbServerReactor ResponseCtx) :
  (length (responses_to_send_
             (SetReactorAsFinished (Response:=Response) status b).1)
   ≤ length (responses_to_send_ b))%nat.
Proof.
  unfold SetReactorAsFinished. destruct (is_finished_ b); simpl; lia.
Qed.

Lemma back_add_keys_length (q : list InsertStream.InsertStreamResponseCtx) (k : Key) :
  length (InsertStream.back_add_keys q k) = length q.
Proof.
  induction q as [|c q IH]; [done|].
  simpl. destruct q; [done|]. simpl in *. by rewrite IH.
Qed.

Lemma insert_step_queue_bound (ev : InsertStream.Event)
    (r : InsertStream.WorkerlessInsertReactor) (tables_ : gmap string Table) :
  (length (responses_to_send_ (InsertStream.base r)) ≤ 2)%nat →
  (length (responses_to_send_
             (InsertStream.base
                (InsertStream.step GetChunkKeys ShortDebugString ev r tables_).1.1))
   ≤ 2)%nat.
Proof.
  intros Hr. destruct ev as [read_ok read_failed request
                             |write_ok write_failed|k]; simpl.
  - unfold InsertStream.OnReadDone.
    destruct (is_finished_ (InsertStream.base r)); [done|].
    destruct read_ok; simpl.
    + pose proof (insert_ProcessIncomingRequest_base request r tables_) as Hb.
      destruct (InsertStream.ProcessIncomingRequest _ _ _ _ _) as [[[st r'] tb] effs].
      simpl in Hb. destruct (ok st); simpl; [by rewrite Hb|].
      pose proof (SetReactorAsFinished_length (Response:=InsertStreamResponse)
                    st (InsertStream.base r')) as Hfin.
      destruct (SetReactorAsFinished st (InsertStream.base r')) as [b fin].
      simpl in *. rewrite Hb in Hfin. lia.
    + pose proof (SetReactorAsFinished_length (Response:=InsertStreamResponse)
                    read_failed (InsertStream.base r)) as Hfin.
      destruct (SetReactorAsFinished read_failed (InsertStream.base r)) as [b fin].
      simpl in *. lia.
  - unfold InsertStream.OnWriteDone, Base_OnWriteDone.
    destruct (is_finished_ (InsertStream.base r)); simpl; [done|].
    destruct write_ok; simpl.
    + destruct (responses_to_send_ (InsertStream.base r)); simpl in *; lia.
    + unfold SetReactorAsFinished.
      destruct (is_finished_ (InsertStream.base r)); simpl; [done|lia].
  - unfold InsertStream.insert_completed_.
    destruct (negb (InsertStream.read_in_flight_ r)); simpl.
    all: destruct (negb (is_finished_ (InsertStream.base r))); simpl; [|done].
    all: rewrite back_add_keys_length.
    all: destruct (Nat.ltb_spec (length (responses_to_send_ (InsertStream.base r))) 2);
      [rewrite length_app; simpl; lia|done].
Qed.

Lemma insert_run_queue_bound (evs : list InsertStream.Event) :
  ∀ (r : InsertStream.WorkerlessInsertReactor) (tables_ : gmap string Table),
    (length (responses_to_send_ (InsertStream.base r)) ≤ 2)%nat →
    (length (responses_to_send_
               (InsertStream.base
                  (InsertStream.run GetChunkKeys ShortDebugString evs r tables_).1.1))
     ≤ 2)%nat.
Proof.
  induction evs as [|ev evs IH]; intros r tables_ Hr; [done|].
  simpl. pose proof (insert_step_queue_bound ev r tables_ Hr) as Hstep.
  destruct (InsertStream.step _ _ ev r tables_) as [[r1 tb1] effs1].
  specialize (IH r1 tb1 Hstep).
  by destruct (InsertStream.run _ _ evs r1 tb1) as [[r2 tb2] effs2].
Qed.

(** C1, amended. The queue of the insert reactor holds at most 2 responses
    in every state a run of callbacks reaches from its construction. For
    the sample reactor the constant 3 is a gate, not a bound on the queue:
    [MaybeStartSampling] asks the table for a batch only while fewer than 3
    responses are queued, and processing a sampled item of the batch then
    adds at most one response per chunk of the item (one if it has none),
    whatever the queue holds already. *)
Theorem response_queue_bounds :
  (∀ (evs : list InsertStream.Event) (tables_ : gmap string Table),
      (length (responses_to_send_
                 (InsertStream.base
                    (InsertStream.run GetChunkKeys ShortDebugString evs
                       (InsertStream.new_reactor).1 tables_).1.1))
       ≤ 2)%nat)
  ∧ (∀ r : SampleStream.WorkerlessSampleReactor,
       existsb is_CallEnqueSampleRequest (SampleStream.MaybeStartSampling r).2 = true →
       (length (responses_to_send_ (SampleStream.base r))
        < SampleStream.kMaxQueuedResponses)%nat)
  ∧ (∀ sample write_in_flight (q : SampleStream.Queue) bytes,
       (length (SampleStream.ProcessSample sample write_in_flight q bytes).1
        ≤ length q + Nat.max 1 (length (chunks (SampleStream.ref sample))))%nat).
Proof.
  split; [|split].
  - intros evs tables_. apply insert_run_queue_bound. simpl. lia.
  - intros r. apply MaybeStartSampling_keeps.
  - intros. apply ProcessSample_length.
Qed.
End queue_bounds.

(** ** SampleStream on concrete batches *)

(** C1 as stated fails for the sample reactor: a request for two samples is
    accepted, the table delivers the batch of [example_batch_2MB], and the
    queue then holds six responses. *)
Lemma sample_queue_exceeds_three :
  let res :=
    SampleStream.run (-1) example_tables
      [SampleStream.ReadDone true Status_OK (example_sample_request 2 2);
       SampleStream.SamplingDone example_batch_2MB]
      (SampleStream.new_reactor example_task_info 0).1 in
  ¬ (length (responses_to_send_ (SampleStream.base res.1))
     ≤ SampleStream.kMaxQueuedResponses)%nat.
Proof.
  intros res.
  assert (length (responses_to_send_ (SampleStream.base res.1)) = 6%nat) as ->
    by (vm_compute; reflexivity).
  unfold SampleStream.kMaxQueuedResponses. lia.
Qed.

(** C2 as stated fails: with the three chunks of 600 KiB of
    [example_batch_600KiB], the first response carries two chunks, 1 228 800
    bytes in all, and none of them exceeds the limit alone. *)
Lemma response_exceeds_limit_without_large_chunk :
  let res :=
    SampleStream.run (-1) example_tables
      [SampleStream.ReadDone true Status_OK (example_sample_request 1 1);
       SampleStream.SamplingDone example_batch_600KiB]
      (SampleStream.new_reactor example_task_info 0).1 in
  ¬ Forall (λ c, chunk_bytes (response_chunks c) ≤ SampleStream.kMaxSampleResponseSizeBytes
                 ∨ ∃ chunk, response_chunks c = [chunk]
                            ∧ SampleStream.kMaxSampleResponseSizeBytes
                              < Z.of_N (ByteSizeLong chunk))
           (responses_to_send_ (SampleStream.base res.1)).
Proof.
  intros res Hall.
  assert (response_chunks <$> responses_to_send_ (SampleStream.base res.1)
          = [[example_chunk 1 614400; example_chunk 2 614400]; [example_chunk 3 614400]])
    as Hq by (vm_compute; reflexivity).
  destruct (responses_to_send_ (SampleStream.base res.1)) as [|c q]; [done|].
  rewrite fmap_cons in Hq. injection Hq as Hc _.
  apply Forall_cons in Hall as [[Htotal|(chunk & Hone & _)] _]; rewrite Hc in *.
  - vm_compute in Htotal. by apply Htotal.
  - discriminate.
Qed.

Lemma sample_response_within_limit_witness :
  let res :=
    SampleStream.run (-1) example_tables
      [SampleStream.ReadDone true Status_OK (example_sample_request 1 1);
       SampleStream.SamplingDone example_batch_600KiB]
      (SampleStream.new_reactor example_task_info 0).1 in
  Forall within_limit_before_last_chunk (responses_to_send_ (SampleStream.base res.1))
  ∧ Forall write_within_limit res.2.
Proof.
  apply (sample_response_within_limit_before_last_chunk (-1) example_tables
           [SampleStream.ReadDone true Status_OK (example_sample_request 1 1);
            SampleStream.SamplingDone example_batch_600KiB]
           example_task_info 0).
  repeat (constructor; try done).
Defined.



(** ** Callbacks on a finished reactor *)

(** C3 fails on the code. Insert reactor: the first item of
    [example_request_queued_then_unknown] is queued by its table, the second
    names no table, so the read handler finishes the reactor with NotFound
    while [read_in_flight_] is false; when the table later completes the
    first item, [insert_completed_] starts a read on the finished reactor.
    Sample reactor: a write fails while a batch is outstanding; when the
    batch arrives, [sampling_done_] queues a response on the finished reactor
    and a write is started for it. *)
Theorem callbacks_act_after_finish :
  (let done :=
     InsertStream.OnReadDone example_GetChunkKeys example_ShortDebugString true
       Status_OK example_request_queued_then_unknown (InsertStream.new_reactor).1
       example_tables in
   is_finished_ (InsertStream.base done.1.1) = true
   ∧ last done.2 = Some (Finish (TableNotFound "nowhere"))
   ∧ (InsertStream.insert_completed_ 1 done.1.1).2 = [StartRead])
  ∧ (let before :=
       SampleStream.run (-1) example_tables
         [SampleStream.ReadDone true Status_OK (example_sample_request 2 1);
          SampleStream.SamplingDone example_batch_small;
          SampleStream.WriteDone false (mkStatus CANCELLED "write failed")]
         (SampleStream.new_reactor example_task_info 0).1 in
     let after := SampleStream.sampling_done_ example_batch_small before.1 in
     is_finished_ (SampleStream.base before.1) = true
     ∧ responses_to_send_ (SampleStream.base before.1) = []
     ∧ existsb is_Finish before.2 = true
     ∧ length (responses_to_send_ (SampleStream.base after.1)) = 1%nat
     ∧ existsb is_StartWrite after.2 = true).
Proof. vm_compute. repeat split; reflexivity. Qed.

(** * Further properties of the code *)

(** ** InsertStream: messages and their chunks *)

Section insert_messages.
Context {Table : Type} `{!TableOps Table}.
Variable GetChunkKeys : FlatTrajectory → list Key.
Variable ShortDebugString : InsertStreamRequest → string.

Lemma SaveChunks_lookup (request : InsertStreamRequest)
    (chunks_ : gmap Key ChunkData) (k : Key) :
  (InsertStream.SaveChunks request chunks_).2 !! k
  = match chunks_ !! k with
    | Some c => Some c
    | None => head (filter (λ c, chunk_key c = k) (req_chunks request))
    end.
Proof.
  unfold InsertStream.SaveChunks. cbn [snd]. generalize (req_chunks request).
  intros l. revert chunks_.
  induction l as [|c l IH]; intros chunks_; simpl.
  - by destruct (chunks_ !! k).
  - rewrite IH, filter_cons. clear IH.
    destruct (decide (is_Some (chunks_ !! chunk_key c))) as [[c0 Hc0]|Hnone].
    + destruct (chunks_ !! k) as [ck|] eqn:Hk; [done|].
      destruct (decide (chunk_key c = k)) as [Heq|Hne]; [|done].
      rewrite Heq in Hc0. congruence.
    + destruct (decide (chunk_key c = k)) as [Heq|Hne].
      * rewrite <- Heq, lookup_insert_eq.
        destruct (chunks_ !! chunk_key c) eqn:Hc; [|done].
        exfalso. apply Hnone. by eexists.
      * by rewrite lookup_insert_ne.
Qed.

(** X1. [SaveChunks] never overwrites: a key the map already holds keeps its
    chunk, and a key it does not hold gets the FIRST chunk of the message
    that carries it (later chunks with the same key are dropped), or stays
    absent if the message has none. It always answers OK. *)
Theorem SaveChunks_first_chunk_wins (request : InsertStreamRequest)
    (chunks_ : gmap Key ChunkData) :
  (InsertStream.SaveChunks request chunks_).1 = Status_OK
  ∧ (∀ k c, chunks_ !! k = Some c →
            (InsertStream.SaveChunks request chunks_).2 !! k = Some c)
  ∧ (∀ k, chunks_ !! k = None →
          (InsertStream.SaveChunks request chunks_).2 !! k
          = head (filter (λ c, chunk_key c = k) (req_chunks request)))
  ∧ dom (InsertStream.SaveChunks request chunks_).2
    = dom chunks_ ∪ list_to_set (chunk_key <$> req_chunks request).
Proof.
  split; [done|]. split; [|split].
  - intros k c Hk. by rewrite SaveChunks_lookup, Hk.
  - intros k Hk. by rewrite SaveChunks_lookup, Hk.
  - apply set_eq. intros k.
    rewrite elem_of_union, !elem_of_dom, SaveChunks_lookup, elem_of_list_to_set.
    rewrite list_elem_of_fmap.
    destruct (chunks_ !! k) as [c|] eqn:Hk.
    + split; [intros _; left; by eexists|intros _; by eexists].
    + split.
      * intros [c Hc]. right. apply head_Some_elem_of in Hc.
        apply list_elem_of_filter in Hc as [Hkey Hin]. by exists c.
      * intros [[c Hc]|(c & -> & Hin)]; [done|].
        destruct (filter (λ c0, chunk_key c0 = chunk_key c) (req_chunks request))
          as [|c' l] eqn:Hf; [|by eexists].
        assert (c ∈ filter (λ c0, chunk_key c0 = chunk_key c) (req_chunks request))
          as Hc by (by apply list_elem_of_filter).
        rewrite Hf in Hc. by apply elem_of_nil in Hc.
Qed.

(** X2. A message without items never reaches a table and never purges
    chunks. If it has no chunk either it is refused with InvalidArgument and
    nothing changes; if it has chunks they are saved, [keep_chunk_keys] is not
    looked at, the answer is OK and exactly one read is started. *)
Theorem message_without_items (request : InsertStreamRequest)
    (r : InsertStream.WorkerlessInsertReactor) (tables_ : gmap string Table) :
  let res := InsertStream.ProcessIncomingRequest GetChunkKeys ShortDebugString
               request r tables_ in
  req_items request = [] →
  res.1.2 = tables_
  ∧ InsertStream.base res.1.1.2 = InsertStream.base r
  ∧ (req_chunks request = [] →
       error_code res.1.1.1 = INVALID_ARGUMENT
       ∧ InsertStream.chunks_ res.1.1.2 = InsertStream.chunks_ r
       ∧ res.2 = []
       ∧ InsertStream.read_in_flight_ res.1.1.2 = false)
  ∧ (req_chunks request ≠ [] →
       res.1.1.1 = Status_OK
       ∧ InsertStream.chunks_ res.1.1.2
         = (InsertStream.SaveChunks request (InsertStream.chunks_ r)).2
       ∧ res.2 = [StartRead]
       ∧ InsertStream.read_in_flight_ res.1.1.2 = true).
Proof.
  intros res Hitems. subst res. unfold InsertStream.ProcessIncomingRequest.
  rewrite Hitems. simpl length. simpl Nat.eqb.
  destruct (req_chunks request) as [|c cs] eqn:Hchunks.
  - simpl. repeat split; done.
  - simpl. repeat split; done.
Qed.

Lemma SaveChunks_keeps_present (request : InsertStreamRequest)
    (chunks_ : gmap Key ChunkData) (k : Key) :
  is_Some (chunks_ !! k) →
  is_Some ((InsertStream.SaveChunks request chunks_).2 !! k).
Proof. intros [c Hc]. rewrite SaveChunks_lookup, Hc. by eexists. Qed.

(** X3. An item may use chunks that arrive in its own message: if every key
    of its trajectory is in the chunk map or is the key of a chunk of the
    message, then after [SaveChunks] the item is built, with one chunk per
    trajectory key, in order; a key the map already held resolves to the
    chunk held, any other to a chunk of the message with that key. *)
Theorem item_may_use_chunks_of_its_message (request : InsertStreamRequest)
    (chunks_ : gmap Key ChunkData) (request_item : PrioritizedItem) :
  let saved := (InsertStream.SaveChunks request chunks_).2 in
  Forall (λ k, is_Some (chunks_ !! k) ∨ k ∈ chunk_key <$> req_chunks request)
         (GetChunkKeys (flat_trajectory request_item)) →
  ∃ cs,
    InsertStream.GetItemWithChunks GetChunkKeys saved TableItem_default request_item
    = (Status_OK, mkTableItem request_item cs)
    ∧ Forall2 (λ k c, match chunks_ !! k with
                      | Some held => c = held
                      | None => c ∈ req_chunks request ∧ chunk_key c = k
                      end)
              (GetChunkKeys (flat_trajectory request_item)) cs.
Proof.
  intros saved Hkeys.
  assert (Forall (λ k, is_Some (saved !! k))
                 (GetChunkKeys (flat_trajectory request_item))) as Hpresent.
  { eapply Forall_impl; [exact Hkeys|]. intros k [Hk|Hk].
    - by apply SaveChunks_keeps_present.
    - apply list_elem_of_fmap in Hk as (c & -> & Hc).
      by apply SaveChunks_has_chunks. }
  destruct (GetItemWithChunks_present GetChunkKeys saved request_item Hpresent)
    as (cs & Heq & Hall).
  exists cs. split; [done|].
  eapply Forall2_impl; [exact Hall|]. intros k c Hc. simpl in Hc.
  subst saved. rewrite SaveChunks_lookup in Hc.
  destruct (chunks_ !! k) as [held|]; [congruence|].
  apply head_Some_elem_of in Hc. by apply list_elem_of_filter in Hc as [? ?].
Qed.

Lemma insert_items_ok_submitted (chunks_ : gmap Key ChunkData)
    (items : list PrioritizedItem) (can_insert : bool) (tables_ : gmap string Table) :
  ok (InsertStream.insert_items GetChunkKeys chunks_ items can_insert tables_).1.1.1 = true →
  submitted (InsertStream.insert_items GetChunkKeys chunks_ items can_insert tables_).2
  = items.
Proof.
  intros Hok.
  destruct (insert_items_calls GetChunkKeys chunks_ items can_insert tables_)
    as ((rest & Heq & Hrest) & _).
  rewrite (Hrest Hok), app_nil_r in Heq. done.
Qed.

Lemma submitted_app {Response : Type} (effs1 effs2 : list (Effect Response)) :
  submitted (effs1 ++ effs2) = submitted effs1 ++ submitted effs2.
Proof. unfold submitted. apply omap_app. Qed.

(** X4. An item for a table that is not registered stops the message with
    NotFound: the items before it have been submitted, the item itself and
    the items after it have not, the chunks saved from the message stay (no
    purge), and no read is started. *)
Theorem unknown_table_stops_the_message (request : InsertStreamRequest)
    (r : InsertStream.WorkerlessInsertReactor) (tables_ : gmap string Table)
    (before : list PrioritizedItem) (it : PrioritizedItem)
    (after : list PrioritizedItem) :
  let saved := (InsertStream.SaveChunks request (InsertStream.chunks_ r)).2 in
  let first := InsertStream.insert_items GetChunkKeys saved before true tables_ in
  let res := InsertStream.ProcessIncomingRequest GetChunkKeys ShortDebugString
               request r tables_ in
  req_items request = before ++ it :: after →
  ok first.1.1.1 = true →
  Forall (λ k, is_Some (saved !! k)) (GetChunkKeys (flat_trajectory it)) →
  TableByName first.1.2 (table it) = None →
  res.1.1.1 = TableNotFound (table it)
  ∧ submitted res.2 = before
  ∧ res.1.2 = first.1.2
  ∧ InsertStream.chunks_ res.1.1.2 = saved
  ∧ InsertStream.read_in_flight_ res.1.1.2 = false
  ∧ StartRead ∉ res.2.
Proof.
  intros saved first res Hitems Hfirst Hkeys Htable.
  assert (req_items request ≠ []) as Hne by (rewrite Hitems; by destruct before).
  pose proof (insert_items_ok_submitted saved before true tables_ Hfirst) as Hsub.
  pose proof (insert_items_calls GetChunkKeys saved before true tables_)
    as (_ & _ & _ & Hnoread).
  fold first in Hsub, Hnoread.
  destruct (GetItemWithChunks_present GetChunkKeys saved it Hkeys) as (cs & Hitem & _).
  assert (InsertStream.insert_items GetChunkKeys saved (req_items request) true tables_
          = (TableNotFound (table it), first.1.1.2, first.1.2, first.2)) as Hloop.
  { rewrite Hitems, insert_items_app. cbv zeta. fold first. rewrite Hfirst.
    simpl. rewrite Hitem. simpl. rewrite Htable. by rewrite app_nil_r. }
  subst res. rewrite (ProcessIncomingRequest_with_items _ _ _ _ _ Hne). cbv zeta.
  fold saved. rewrite Hloop. simpl.
  repeat split; try done. by apply no_StartRead_not_elem.
Qed.

(** X5. An error of [InsertOrAssignAsync] stops the message with the table's
    status: the items up to and including the refused one have been handed
    to their tables, the items after it have not, the chunks saved from the
    message stay (no purge), and no read is started. *)
Theorem table_error_stops_the_message (request : InsertStreamRequest)
    (r : InsertStream.WorkerlessInsertReactor) (tables_ : gmap string Table)
    (before : list PrioritizedItem) (it : PrioritizedItem)
    (after : list PrioritizedItem) (tbl : Table) :
  let saved := (InsertStream.SaveChunks request (InsertStream.chunks_ r)).2 in
  let first := InsertStream.insert_items GetChunkKeys saved before true tables_ in
  let built :=
    (InsertStream.GetItemWithChunks GetChunkKeys saved TableItem_default it).2 in
  let answer := InsertOrAssignAsync built tbl in
  let res := InsertStream.ProcessIncomingRequest GetChunkKeys ShortDebugString
               request r tables_ in
  req_items request = before ++ it :: after →
  ok first.1.1.1 = true →
  Forall (λ k, is_Some (saved !! k)) (GetChunkKeys (flat_trajectory it)) →
  TableByName first.1.2 (table it) = Some tbl →
  ok answer.1.1 = false →
  res.1.1.1 = answer.1.1
  ∧ submitted res.2 = before ++ [it]
  ∧ res.1.2 = <[table it := answer.2]> first.1.2
  ∧ InsertStream.chunks_ res.1.1.2 = saved
  ∧ InsertStream.read_in_flight_ res.1.1.2 = false
  ∧ StartRead ∉ res.2.
Proof.
  intros saved first built answer res Hitems Hfirst Hkeys Htable Hanswer.
  assert (req_items request ≠ []) as Hne by (rewrite Hitems; by destruct before).
  pose proof (insert_items_ok_submitted saved before true tables_ Hfirst) as Hsub.
  pose proof (insert_items_calls GetChunkKeys saved before true tables_)
    as (_ & _ & _ & Hnoread).
  fold first in Hsub, Hnoread.
  destruct (GetItemWithChunks_present GetChunkKeys saved it Hkeys) as (cs & Hitem & _).
  assert (built = mkTableItem it cs) as Hbuilt by (subst built; by rewrite Hitem).
  assert (InsertStream.insert_items GetChunkKeys saved (req_items request) true tables_
          = (answer.1.1, answer.1.2, <[table it := answer.2]> first.1.2,
             first.2 ++ [CallInsertOrAssignAsync (table it) built answer.1.1 answer.1.2]))
    as Hloop.
  { rewrite Hitems, insert_items_app. cbv zeta. fold first. rewrite Hfirst.
    simpl. rewrite Hitem. simpl. rewrite Htable.
    subst answer. rewrite Hbuilt in *.
    destruct (InsertOrAssignAsync (mkTableItem it cs) tbl) as [[st ci] tbl'].
    simpl in *. unfold ToGrpcStatus. by rewrite Hanswer. }
  subst res. rewrite (ProcessIncomingRequest_with_items _ _ _ _ _ Hne). cbv zeta.
  fold saved. rewrite Hloop. simpl. rewrite Hanswer. simpl.
  split; [done|]. split.
  { rewrite submitted_app, Hsub. simpl. by rewrite Hbuilt. }
  repeat split; try done.
  intros Hin. apply elem_of_app in Hin as [Hin|Hin].
  - by apply no_StartRead_not_elem in Hin.
  - apply list_elem_of_singleton in Hin. discriminate.
Qed.

Lemma release_ok_dom (keep_keys : list Key) (chunks_ : gmap Key ChunkData) :
  ok (InsertStream.ReleaseOutOfRangeChunks keep_keys chunks_).1 = true →
  dom (InsertStream.ReleaseOutOfRangeChunks keep_keys chunks_).2
  = list_to_set keep_keys
  ∧ NoDup keep_keys.
Proof.
  intros Hok.
  assert (size (InsertStream.ReleaseOutOfRangeChunks keep_keys chunks_).2
          = length keep_keys) as Hsize.
  { revert Hok. unfold InsertStream.ReleaseOutOfRangeChunks.
    case_decide as Hd; simpl; [done|]. intros _.
    destruct (decide (size (filter (λ kv, InsertStream.std_find keep_keys kv.1 = true)
                              chunks_) = length keep_keys)); [done|].
    by destruct Hd. }
  pose proof (release_dom_subseteq keep_keys chunks_) as Hsub.
  pose proof (size_list_to_set_le keep_keys) as Hle.
  pose proof (subseteq_size _ _ Hsub) as Hle'.
  rewrite size_dom in Hle'. split.
  - apply set_subseteq_size_eq; [done|]. rewrite size_dom. lia.
  - apply size_list_to_set_NoDup. lia.
Qed.

(** X6. After a message with items has been processed without error, the
    local chunk map holds exactly the keys listed in [keep_chunk_keys] (which
    then has no repeated key): every listed key resolves to the chunk held
    after [SaveChunks], and every other chunk, old or just received, has
    been released. *)
Theorem processed_message_keeps_exactly_the_keep_keys
    (request : InsertStreamRequest) (r : InsertStream.WorkerlessInsertReactor)
    (tables_ : gmap string Table) :
  let saved := (InsertStream.SaveChunks request (InsertStream.chunks_ r)).2 in
  let res := InsertStream.ProcessIncomingRequest GetChunkKeys ShortDebugString
               request r tables_ in
  req_items request ≠ [] →
  ok res.1.1.1 = true →
  dom (InsertStream.chunks_ res.1.1.2) = list_to_set (keep_chunk_keys request)
  ∧ NoDup (keep_chunk_keys request)
  ∧ (∀ k, k ∈ keep_chunk_keys request →
          is_Some (saved !! k)
          ∧ InsertStream.chunks_ res.1.1.2 !! k = saved !! k)
  ∧ (∀ k, k ∉ keep_chunk_keys request → InsertStream.chunks_ res.1.1.2 !! k = None).
Proof.
  intros saved res Hitems. subst res.
  rewrite (ProcessIncomingRequest_with_items _ _ _ _ _ Hitems). cbv zeta.
  fold saved.
  pose proof (release_ok_dom (keep_chunk_keys request) saved) as Hdom.
  pose proof (release_lookup (keep_chunk_keys request) saved) as Hlook.
  destruct (InsertStream.insert_items _ _ _ _ _) as [[[st ci] tb] calls].
  destruct (InsertStream.ReleaseOutOfRangeChunks _ _) as [st' kept].
  simpl in *.
  destruct (ok st) eqn:Hst; simpl; [|by rewrite Hst].
  destruct (ok st') eqn:Hst'; simpl; [|by rewrite Hst'].
  intros _. destruct (Hdom eq_refl) as [Hd Hnodup].
  destruct ci; simpl.
  all: split; [done|]; split; [done|]; split.
  all: try (intros k Hk; rewrite Hlook; rewrite decide_True by done;
            split; [|done];
            assert (k ∈ dom kept) as Hin by (rewrite Hd; by apply elem_of_list_to_set);
            apply elem_of_dom in Hin; by rewrite Hlook, decide_True in Hin by done).
  all: intros k Hk; rewrite Hlook; by rewrite decide_False by done.
Qed.
End insert_messages.

Lemma message_without_items_witness :
  let request := example_request_chunk_only in
  let r := (InsertStream.new_reactor).1 in
  let res := InsertStream.ProcessIncomingRequest example_GetChunkKeys
               example_ShortDebugString request r example_tables in
  res.1.2 = example_tables
  ∧ InsertStream.base res.1.1.2 = InsertStream.base r
  ∧ (req_chunks request = [] →
       error_code res.1.1.1 = INVALID_ARGUMENT
       ∧ InsertStream.chunks_ res.1.1.2 = InsertStream.chunks_ r
       ∧ res.2 = []
       ∧ InsertStream.read_in_flight_ res.1.1.2 = false)
  ∧ (req_chunks request ≠ [] →
       res.1.1.1 = Status_OK
       ∧ InsertStream.chunks_ res.1.1.2
         = (InsertStream.SaveChunks request (InsertStream.chunks_ r)).2
       ∧ res.2 = [StartRead]
       ∧ InsertStream.read_in_flight_ res.1.1.2 = true).
Proof.
  apply (message_without_items example_GetChunkKeys example_ShortDebugString
           example_request_chunk_only (InsertStream.new_reactor).1 example_tables).
  reflexivity.
Defined.

Lemma item_may_use_chunks_of_its_message_witness :
  let request := example_request_round_trip in
  let request_item := example_item 9 "open" [1%N; 2%N] in
  let saved := (InsertStream.SaveChunks request ∅).2 in
  ∃ cs,
    InsertStream.GetItemWithChunks example_GetChunkKeys saved TableItem_default
      request_item
    = (Status_OK, mkTableItem request_item cs)
    ∧ Forall2 (λ k c, match (∅ : gmap Key ChunkData) !! k with
                      | Some held => c = held
                      | None => c ∈ req_chunks request ∧ chunk_key c = k
                      end)
              (example_GetChunkKeys (flat_trajectory request_item)) cs.
Proof.
  apply (item_may_use_chunks_of_its_message example_GetChunkKeys
           example_request_round_trip ∅ (example_item 9 "open" [1%N; 2%N])).
  apply Forall_cons. split.
  { right. apply list_elem_of_here. }
  apply Forall_cons. split.
  { right. apply list_elem_of_further, list_elem_of_here. }
  constructor.
Defined.

Lemma unknown_table_stops_the_message_witness :
  let request := example_request_unknown_table in
  let r := (InsertStream.new_reactor).1 in
  let before := [example_item 1 "open" [1%N]] in
  let it := example_item 2 "nowhere" [1%N] in
  let saved := (InsertStream.SaveChunks request (InsertStream.chunks_ r)).2 in
  let first := InsertStream.insert_items example_GetChunkKeys saved before true
                 example_tables in
  let res := InsertStream.ProcessIncomingRequest example_GetChunkKeys
               example_ShortDebugString request r example_tables in
  res.1.1.1 = TableNotFound (table it)
  ∧ submitted res.2 = before
  ∧ res.1.2 = first.1.2
  ∧ InsertStream.chunks_ res.1.1.2 = saved
  ∧ InsertStream.read_in_flight_ res.1.1.2 = false
  ∧ StartRead ∉ res.2.
Proof.
  apply (unknown_table_stops_the_message example_GetChunkKeys example_ShortDebugString
           example_request_unknown_table (InsertStream.new_reactor).1 example_tables
           [example_item 1 "open" [1%N]] (example_item 2 "nowhere" [1%N]) []).
  - reflexivity.
  - vm_compute. reflexivity.
  - repeat constructor. vm_compute. eexists. reflexivity.
  - vm_compute. reflexivity.
Defined.

Lemma table_error_stops_the_message_witness :
  let request := example_request_closed_table in
  let r := (InsertStream.new_reactor).1 in
  let before := [example_item 1 "open" [1%N]] in
  let it := example_item 2 "closed" [1%N] in
  let tbl := mkExampleTable "closed" 5 true [] in
  let saved := (InsertStream.SaveChunks request (InsertStream.chunks_ r)).2 in
  let first := InsertStream.insert_items example_GetChunkKeys saved before true
                 example_tables in
  let built :=
    (InsertStream.GetItemWithChunks example_GetChunkKeys saved TableItem_default it).2 in
  let answer := InsertOrAssignAsync built tbl in
  let res := InsertStream.ProcessIncomingRequest example_GetChunkKeys
               example_ShortDebugString request r example_tables in
  res.1.1.1 = answer.1.1
  ∧ submitted res.2 = before ++ [it]
  ∧ res.1.2 = <[table it := answer.2]> first.1.2
  ∧ InsertStream.chunks_ res.1.1.2 = saved
  ∧ InsertStream.read_in_flight_ res.1.1.2 = false
  ∧ StartRead ∉ res.2.
Proof.
  apply (table_error_stops_the_message example_GetChunkKeys example_ShortDebugString
           example_request_closed_table (InsertStream.new_reactor).1 example_tables
           [example_item 1 "open" [1%N]] (example_item 2 "closed" [1%N])
           [example_item 3 "open" [1%N]] (mkExampleTable "closed" 5 true [])).
  - reflexivity.
  - vm_compute. reflexivity.
  - repeat constructor. vm_compute. eexists. reflexivity.
  - vm_compute. reflexivity.
  - vm_compute. reflexivity.
Defined.

Lemma processed_message_keeps_exactly_the_keep_keys_witness :
  let request := example_request_round_trip in
  let r := (InsertStream.new_reactor).1 in
  let saved := (InsertStream.SaveChunks request (InsertStream.chunks_ r)).2 in
  let res := InsertStream.ProcessIncomingRequest example_GetChunkKeys
               example_ShortDebugString request r example_tables in
  dom (InsertStream.chunks_ res.1.1.2) = list_to_set (keep_chunk_keys request)
  ∧ NoDup (keep_chunk_keys request)
  ∧ (∀ k, k ∈ keep_chunk_keys request →
          is_Some (saved !! k)
          ∧ InsertStream.chunks_ res.1.1.2 !! k = saved !! k)
  ∧ (∀ k, k ∉ keep_chunk_keys request → InsertStream.chunks_ res.1.1.2 !! k = None).
Proof.
  apply (processed_message_keeps_exactly_the_keep_keys example_GetChunkKeys
           example_ShortDebugString example_request_round_trip
           (InsertStream.new_reactor).1 example_tables).
  - discriminate.
  - vm_compute. reflexivity.
Defined.

(** ** InsertStream: acknowledgements and operations in flight *)

Lemma back_add_keys_snoc (q : list InsertStream.InsertStreamResponseCtx)
    (c : InsertStream.InsertStreamResponseCtx) (k : Key) :
  InsertStream.back_add_keys (q ++ [c]) k
  = q ++ [InsertStream.mkCtx (mkInsertStreamResponse (keys (InsertStream.payload c) ++ [k]))].
Proof.
  induction q as [|c0 q IH]; [done|].
  simpl. rewrite IH. by destruct q.
Qed.

Lemma queued_keys_app (q1 q2 : list InsertStream.InsertStreamResponseCtx) :
  queued_keys (q1 ++ q2) = queued_keys q1 ++ queued_keys q2.
Proof. unfold queued_keys. by rewrite fmap_app, concat_app. Qed.

Lemma written_keys_app (effs1 effs2 : list (Effect InsertStreamResponse)) :
  written_keys (effs1 ++ effs2) = written_keys effs1 ++ written_keys effs2.
Proof. unfold written_keys. by rewrite omap_app, concat_app. Qed.

Lemma back_add_keys_keys (q : list InsertStream.InsertStreamResponseCtx) (k : Key) :
  q ≠ [] → queued_keys (InsertStream.back_add_keys q k) = queued_keys q ++ [k].
Proof.
  intros Hq. destruct (exists_last Hq) as (init & c & ->).
  rewrite back_add_keys_snoc, !queued_keys_app. unfold queued_keys. simpl.
  by rewrite !app_nil_r, app_assoc.
Qed.

(** The callback on an unfinished reactor, in terms of the queue. *)
Lemma insert_completed_unfinished (k : Key) (r : InsertStream.WorkerlessInsertReactor) :
  is_finished_ (InsertStream.base r) = false →
  let res := InsertStream.insert_completed_ k r in
  let q := responses_to_send_ (InsertStream.base r) in
  let q' :=
    InsertStream.back_add_keys
      (if (length q <? 2)%nat
       then q ++ [InsertStream.mkCtx (mkInsertStreamResponse [])] else q) k in
  is_finished_ (InsertStream.base res.1) = false
  ∧ responses_to_send_ (InsertStream.base res.1) = q'
  ∧ filter (λ e, is_StartWrite e = true) res.2
    = (if (length q' =? 1)%nat
       then MaybeSendNextResponse InsertStream.payload (mkBase q' false) else []).
Proof.
  intros Hfin res q q'. subst res. unfold InsertStream.insert_completed_.
  destruct (negb (InsertStream.read_in_flight_ r));
    cbn [InsertStream.base InsertStream.set_read_in_flight_];
    rewrite Hfin; cbn [negb fst snd InsertStream.base InsertStream.set_base
                       is_finished_ responses_to_send_]; fold q; fold q'.
  all: split; [done|]; split; [done|].
  all: destruct (length q' =? 1)%nat; [|done].
  all: unfold MaybeSendNextResponse; cbn [responses_to_send_].
  all: by destruct q'.
Qed.

(** X7. When the table reports an inserted key to an unfinished reactor, the
    key is appended after all keys already queued and nothing queued is lost;
    the response at the front of the queue, the one being written, is left
    as it is; and a write is started exactly when the queue was empty, for a
    response holding just that key. On a finished reactor the callback
    leaves the queue alone and starts no write. *)
Theorem insert_completed_appends_the_key (k : Key)
    (r : InsertStream.WorkerlessInsertReactor) :
  let res := InsertStream.insert_completed_ k r in
  let q := responses_to_send_ (InsertStream.base r) in
  let q' := responses_to_send_ (InsertStream.base res.1) in
  InsertStream.chunks_ res.1 = InsertStream.chunks_ r
  ∧ (is_finished_ (InsertStream.base r) = false →
       queued_keys q' = queued_keys q ++ [k]
       ∧ head q' = (if q is [] then Some (InsertStream.mkCtx (mkInsertStreamResponse [k]))
                    else head q)
       ∧ filter (λ e, is_StartWrite e = true) res.2
         = (if q is [] then [StartWrite (mkInsertStreamResponse [k])] else []))
  ∧ (is_finished_ (InsertStream.base r) = true →
       q' = q ∧ filter (λ e, is_StartWrite e = true) res.2 = []).
Proof.
  intros res q q'. split; [|split].
  - subst res. unfold InsertStream.insert_completed_.
    destruct (negb (InsertStream.read_in_flight_ r)); simpl;
      by destruct (negb (is_finished_ (InsertStream.base r))).
  - intros Hfin.
    pose proof (insert_completed_unfinished k r Hfin) as (_ & Hq & Hw).
    cbv zeta in Hq, Hw. fold res q q' in Hq, Hw. fold q in Hq, Hw.
    rewrite Hw, Hq. clear Hw Hq.
    destruct q as [|front [|second rest]].
    + done.
    + split; [|done]. unfold queued_keys. simpl. by rewrite !app_nil_r.
    + replace (length (front :: second :: rest) <? 2)%nat with false by done.
      split; [by apply back_add_keys_keys|].
      pose proof (back_add_keys_length (second :: rest) k) as Hlen.
      change (InsertStream.back_add_keys (front :: second :: rest) k)
        with (front :: InsertStream.back_add_keys (second :: rest) k).
      split; [done|].
      destruct (InsertStream.back_add_keys (second :: rest) k); [done|].
      done.
  - intros Hfin. subst res q q'. unfold InsertStream.insert_completed_.
    destruct (negb (InsertStream.read_in_flight_ r)); simpl; by rewrite Hfin.
Qed.

Section insert_runs.
Context {Table : Type} `{!TableOps Table}.
Variable GetChunkKeys : FlatTrajectory → list Key.
Variable ShortDebugString : InsertStreamRequest → string.

(** The item loop records table calls and nothing else. *)
Lemma insert_items_only_calls (chunks_ : gmap Key ChunkData)
    (items : list PrioritizedItem) (can_insert : bool) (tables_ : gmap string Table) :
  Forall (λ e, is_StartRead e = false ∧ is_StartWrite e = false)
         (InsertStream.insert_items GetChunkKeys chunks_ items can_insert tables_).2.
Proof.
  revert can_insert tables_.
  induction items as [|it items IH]; intros can_insert tables_; simpl; [done|].
  destruct (InsertStream.GetItemWithChunks _ _ _ _) as [st ti].
  destruct (ok st); simpl; [|done].
  destruct (TableByName tables_ (table (item ti))) as [tbl|]; simpl; [|done].
  destruct (InsertOrAssignAsync ti tbl) as [[st' ci'] tbl'].
  destruct (ok st'); simpl; [|by repeat constructor].
  specialize (IH ci' (<[table (item ti) := tbl']> tables_)).
  destruct (InsertStream.insert_items _ _ items _ _) as [[[st1 ci1] tb1] calls1].
  by constructor.
Qed.

Lemma filter_nil_of_false {A : Type} (f : A → bool) (l : list A) :
  Forall (λ x, f x = false) l → filter (λ x, f x = true) l = [].
Proof.
  induction 1 as [|x l Hx _ IH]; [done|].
  rewrite filter_cons, decide_False; [done|]. by rewrite Hx.
Qed.

(** The effects of the insert reactor's [ProcessIncomingRequest]: no write,
    and one read exactly when it leaves [read_in_flight_] set. *)
Lemma insert_ProcessIncomingRequest_effects (request : InsertStreamRequest)
    (r : InsertStream.WorkerlessInsertReactor) (tables_ : gmap string Table) :
  let res := InsertStream.ProcessIncomingRequest GetChunkKeys ShortDebugString
               request r tables_ in
  filter (λ e, is_StartWrite e = true) res.2 = []
  ∧ length (filter (λ e, is_StartRead e = true) res.2)
    = (if InsertStream.read_in_flight_ res.1.1.2 then 1 else 0)%nat.
Proof.
  destruct (decide (req_items request = [])) as [Hnil|Hitems].
  - unfold InsertStream.ProcessIncomingRequest. rewrite Hnil.
    destruct (req_chunks request); simpl; done.
  - rewrite (ProcessIncomingRequest_with_items _ _ _ _ _ Hitems). cbv zeta.
    pose proof (insert_items_only_calls
                  (InsertStream.SaveChunks request (InsertStream.chunks_ r)).2
                  (req_items request) true tables_) as Hcalls.
    destruct (InsertStream.insert_items _ _ _ _ _) as [[[st ci] tb] calls].
    destruct (InsertStream.ReleaseOutOfRangeChunks _ _) as [st' kept].
    simpl in *.
    assert (filter (λ e, is_StartWrite e = true) calls = []) as Hw.
    { apply filter_nil_of_false. eapply Forall_impl; [exact Hcalls|]. by intros ? [? ?]. }
    assert (filter (λ e, is_StartRead e = true) calls = []) as Hr.
    { apply filter_nil_of_false. eapply Forall_impl; [exact Hcalls|]. by intros ? [? ?]. }
    destruct (ok st); simpl; [|by rewrite Hw, Hr].
    destruct (ok st'); simpl; [|by rewrite Hw, Hr].
    destruct ci; simpl; rewrite ?filter_app, Hw, Hr; done.
Qed.

Lemma written_keys_filter (effs : list (Effect InsertStreamResponse)) :
  written_keys effs = written_keys (filter (λ e, is_StartWrite e = true) effs).
Proof.
  induction effs as [|e effs IH]; [done|].
  rewrite filter_cons.
  destruct e as [|p| | |]; simpl; try done.
  change (written_keys (StartWrite p :: effs)) with (keys p ++ written_keys effs).
  change (written_keys (StartWrite p :: filter (λ e, is_StartWrite e = true) effs))
    with (keys p ++ written_keys (filter (λ e, is_StartWrite e = true) effs)).
  by rewrite IH.
Qed.

(** Once finished, the insert reactor stays finished. *)
Lemma insert_step_finished (ev : InsertStream.Event)
    (r : InsertStream.WorkerlessInsertReactor) (tables_ : gmap string Table) :
  is_finished_ (InsertStream.base r) = true →
  is_finished_
    (InsertStream.base
       (InsertStream.step GetChunkKeys ShortDebugString ev r tables_).1.1) = true.
Proof.
  intros Hfin. destruct ev as [read_ok read_failed request|write_ok write_failed|k];
    simpl.
  - unfold InsertStream.OnReadDone. by rewrite Hfin.
  - unfold InsertStream.OnWriteDone, Base_OnWriteDone. by rewrite Hfin.
  - unfold InsertStream.insert_completed_.
    destruct (negb (InsertStream.read_in_flight_ r)); simpl; by rewrite Hfin.
Qed.

Lemma insert_run_finished (evs : list InsertStream.Event) :
  ∀ (r : InsertStream.WorkerlessInsertReactor) (tables_ : gmap string Table),
    is_finished_ (InsertStream.base r) = true →
    is_finished_
      (InsertStream.base
         (InsertStream.run GetChunkKeys ShortDebugString evs r tables_).1.1) = true.
Proof.
  induction evs as [|ev evs IH]; intros r tables_ Hfin; [done|].
  simpl. pose proof (insert_step_finished ev r tables_ Hfin) as Hstep.
  destruct (InsertStream.step _ _ ev r tables_) as [[r1 tb1] effs1].
  specialize (IH r1 tb1 Hstep).
  by destruct (InsertStream.run _ _ evs r1 tb1) as [[r2 tb2] effs2].
Qed.

(** One callback on a reactor that is and stays unfinished: the keys written
    and the keys queued behind the front after it are those queued behind the
    front before it, followed by the key the callback reports, if any. *)
Lemma insert_step_keys (ev : InsertStream.Event)
    (r : InsertStream.WorkerlessInsertReactor) (tables_ : gmap string Table) :
  let res := InsertStream.step GetChunkKeys ShortDebugString ev r tables_ in
  is_finished_ (InsertStream.base r) = false →
  is_finished_ (InsertStream.base res.1.1) = false →
  written_keys res.2 ++ queued_keys (tail (responses_to_send_ (InsertStream.base res.1.1)))
  = queued_keys (tail (responses_to_send_ (InsertStream.base r))) ++ completed_keys [ev].
Proof.
  intros res Hfin. subst res.
  destruct ev as [read_ok read_failed request|write_ok write_failed|k]; simpl.
  - unfold InsertStream.OnReadDone. rewrite Hfin.
    destruct read_ok; simpl.
    2:{ unfold SetReactorAsFinished. rewrite Hfin. simpl. done. }
    pose proof (insert_ProcessIncomingRequest_base GetChunkKeys ShortDebugString
                  request r tables_) as Hbase.
    pose proof (insert_ProcessIncomingRequest_effects request r tables_) as [Hw _].
    destruct (InsertStream.ProcessIncomingRequest _ _ _ _ _) as [[[st r'] tb] effs].
    simpl in *. destruct (ok st); simpl.
    + intros _. rewrite written_keys_filter, Hw, Hbase. simpl.
      by rewrite app_nil_r.
    + unfold SetReactorAsFinished. rewrite Hbase, Hfin. simpl. done.
  - unfold InsertStream.OnWriteDone, Base_OnWriteDone. rewrite Hfin.
    destruct write_ok; simpl.
    2:{ unfold SetReactorAsFinished. rewrite Hfin. simpl. done. }
    intros _. rewrite app_nil_r.
    destruct (responses_to_send_ (InsertStream.base r)) as [|front [|second rest]];
      [done|done|].
    unfold MaybeSendNextResponse, written_keys, queued_keys. simpl.
    by rewrite app_nil_r.
  - intros _.
    pose proof (insert_completed_unfinished k r Hfin) as (_ & Hq & Hw).
    cbv zeta in Hq, Hw.
    destruct (InsertStream.insert_completed_ k r) as [r1 effs1].
    cbn [fst snd] in Hq, Hw.
    cbn [fst snd]. rewrite written_keys_filter, Hw, Hq. clear Hw Hq.
    destruct (responses_to_send_ (InsertStream.base r)) as [|front [|second rest]].
    + done.
    + unfold queued_keys. simpl. done.
    + replace (length (front :: second :: rest) <? 2)%nat with false by done.
      pose proof (back_add_keys_length (second :: rest) k) as Hlen.
      change (InsertStream.back_add_keys (front :: second :: rest) k)
        with (front :: InsertStream.back_add_keys (second :: rest) k).
      replace (length (front :: InsertStream.back_add_keys (second :: rest) k) =? 1)%nat
        with false by (by rewrite length_cons, Hlen).
      cbn [tail app written_keys]. by rewrite back_add_keys_keys.
Qed.

(** X8. Every key a table reports is acknowledged once, in the order of the
    reports: along a run of callbacks from the construction of the insert
    reactor that leaves it unfinished, the keys of the responses written so
    far, followed by the keys of the responses queued behind the one being
    written, are exactly the keys reported so far. (Reads and writes complete
    as the reactor base class of the spec handles them.) *)
Theorem completed_keys_are_acknowledged_in_order
    (evs : list InsertStream.Event) (tables_ : gmap string Table) :
  let res := InsertStream.run GetChunkKeys ShortDebugString evs
               (InsertStream.new_reactor).1 tables_ in
  is_finished_ (InsertStream.base res.1.1) = false →
  written_keys res.2 ++ queued_keys (tail (responses_to_send_ (InsertStream.base res.1.1)))
  = completed_keys evs.
Proof.
  assert (∀ evs (r : InsertStream.WorkerlessInsertReactor) (tables_ : gmap string Table),
            let res := InsertStream.run GetChunkKeys ShortDebugString evs r tables_ in
            is_finished_ (InsertStream.base res.1.1) = false →
            written_keys res.2
            ++ queued_keys (tail (responses_to_send_ (InsertStream.base res.1.1)))
            = queued_keys (tail (responses_to_send_ (InsertStream.base r)))
              ++ completed_keys evs) as Hrun.
  { clear evs tables_.
    induction evs as [|ev evs IH]; intros r tables_; simpl.
    - intros _. unfold completed_keys. simpl. by rewrite app_nil_r.
    - pose proof (insert_step_keys ev r tables_) as Hstep.
      pose proof (insert_step_finished ev r tables_) as Hsticky.
      cbv zeta in Hstep.
      destruct (InsertStream.step _ _ ev r tables_) as [[r1 tb1] effs1].
      specialize (IH r1 tb1). cbv zeta in IH.
      pose proof (insert_run_finished evs r1 tb1) as Hsticky1.
      destruct (InsertStream.run _ _ evs r1 tb1) as [[r2 tb2] effs2].
      simpl in *. intros Hfin2.
      assert (is_finished_ (InsertStream.base r1) = false) as Hfin1.
      { destruct (is_finished_ (InsertStream.base r1)); [|done].
        rewrite Hsticky1 in Hfin2; done. }
      assert (is_finished_ (InsertStream.base r) = false) as Hfin0.
      { destruct (is_finished_ (InsertStream.base r)); [|done].
        rewrite Hsticky in Hfin1; done. }
      rewrite written_keys_app, <- app_assoc, (IH Hfin2), app_assoc.
      rewrite (Hstep Hfin0 Hfin1), <- app_assoc. f_equal.
      unfold completed_keys. by destruct ev. }
  intros res Hfin. subst res. rewrite (Hrun evs _ tables_ Hfin). done.
Qed.

Lemma insert_completed_reads (k : Key) (r : InsertStream.WorkerlessInsertReactor) :
  let res := InsertStream.insert_completed_ k r in
  InsertStream.read_in_flight_ res.1 = true
  ∧ length (filter (λ e, is_StartRead e = true) res.2)
    = (if InsertStream.read_in_flight_ r then 0 else 1)%nat.
Proof.
  unfold InsertStream.insert_completed_.
  destruct (InsertStream.read_in_flight_ r) eqn:Hflag; simpl.
  all: destruct (is_finished_ (InsertStream.base r)); simpl; [by rewrite ?Hflag|].
  all: rewrite ?Hflag; split; [done|].
  all: destruct (length _ =? 1)%nat; [|done].
  all: unfold MaybeSendNextResponse; simpl.
  all: by destruct (InsertStream.back_add_keys _ _).
Qed.

Lemma SetReactorAsFinished_effects {ResponseCtx Response : Type} (status : Status)
    (b : ReverbServerReactor ResponseCtx) :
  Forall (λ e, is_StartRead e = false ∧ is_StartWrite e = false)
         (SetReactorAsFinished (Response:=Response) status b).2.
Proof.
  unfold SetReactorAsFinished. destruct (is_finished_ b); by repeat constructor.
Qed.

(** One callback keeps the reads in flight within what [read_in_flight_]
    says. *)
Lemma insert_step_reads (ev : InsertStream.Event)
    (r : InsertStream.WorkerlessInsertReactor) (tables_ : gmap string Table)
    (n n' : nat) :
  let res := InsertStream.step GetChunkKeys ShortDebugString ev r tables_ in
  (n ≤ if InsertStream.read_in_flight_ r then 1 else 0)%nat →
  in_flight_after is_StartRead (is_ReadDone ev) res.2 n = Some n' →
  (n' ≤ if InsertStream.read_in_flight_ res.1.1 then 1 else 0)%nat.
Proof.
  intros res Hn. subst res. unfold in_flight_after.
  destruct ev as [read_ok read_failed request|write_ok write_failed|k]; simpl.
  - destruct n as [|m]; [done|].
    assert (InsertStream.read_in_flight_ r = true ∧ m = 0%nat) as [Hflag ->].
    { destruct (InsertStream.read_in_flight_ r); [split; [done|lia]|lia]. }
    unfold InsertStream.OnReadDone.
    destruct (is_finished_ (InsertStream.base r)); simpl.
    { intros [= <-]. rewrite Hflag. lia. }
    destruct read_ok; simpl.
    + pose proof (insert_ProcessIncomingRequest_effects request r tables_) as [_ Hr].
      destruct (InsertStream.ProcessIncomingRequest _ _ _ _ _) as [[[st r'] tb] effs].
      simpl in Hr. destruct (ok st); simpl.
      * intros [= <-]. rewrite Hr. by destruct (InsertStream.read_in_flight_ r').
      * pose proof (SetReactorAsFinished_effects (Response:=InsertStreamResponse)
                      st (InsertStream.base r')) as Hfin.
        destruct (SetReactorAsFinished st (InsertStream.base r')) as [b fin].
        simpl in *. intros [= <-]. rewrite filter_app, length_app, Hr.
        rewrite (filter_nil_of_false is_StartRead fin).
        -- by destruct (InsertStream.read_in_flight_ r').
        -- eapply Forall_impl; [exact Hfin|]. by intros ? [? ?].
    + pose proof (SetReactorAsFinished_effects (Response:=InsertStreamResponse)
                    read_failed (InsertStream.base r)) as Hfin.
      destruct (SetReactorAsFinished read_failed (InsertStream.base r)) as [b fin].
      simpl in *. intros [= <-].
      rewrite (filter_nil_of_false is_StartRead fin).
      * rewrite Hflag. simpl. lia.
      * eapply Forall_impl; [exact Hfin|]. by intros ? [? ?].
  - unfold InsertStream.OnWriteDone, Base_OnWriteDone.
    destruct (is_finished_ (InsertStream.base r)) eqn:Hf; simpl.
    { intros [= <-]. lia. }
    destruct write_ok; simpl.
    + unfold MaybeSendNextResponse. simpl.
      destruct (tail (responses_to_send_ (InsertStream.base r))); simpl;
        intros [= <-]; lia.
    + unfold SetReactorAsFinished. rewrite Hf. simpl. intros [= <-]. lia.
  - pose proof (insert_completed_reads k r) as [Hflag Hr]. cbv zeta in Hflag, Hr.
    destruct (InsertStream.insert_completed_ k r) as [r1 effs1]. simpl in *.
    intros [= <-]. rewrite Hr, Hflag.
    destruct (InsertStream.read_in_flight_ r); lia.
Qed.

(** X9. At most one read is in flight on an insert stream at any time:
    counting the reads started (one by the constructor) and completed along
    any run of callbacks in which a read completes only if one is in flight,
    the number in flight never exceeds one, whether or not the reactor has
    finished. *)
Theorem insert_stream_has_at_most_one_read_in_flight
    (evs : list InsertStream.Event) (tables_ : gmap string Table) (n : nat) :
  insert_in_flight GetChunkKeys ShortDebugString is_StartRead is_ReadDone evs
    (InsertStream.new_reactor).1 tables_ 1 = Some n →
  (n ≤ 1)%nat.
Proof.
  assert (∀ evs (r : InsertStream.WorkerlessInsertReactor) (tables_ : gmap string Table)
            n0 n,
            (n0 ≤ if InsertStream.read_in_flight_ r then 1 else 0)%nat →
            insert_in_flight GetChunkKeys ShortDebugString is_StartRead is_ReadDone
              evs r tables_ n0 = Some n →
            (n ≤ 1)%nat) as Hrun.
  { clear. induction evs as [|ev evs IH]; intros r tables_ n0 n Hn0; simpl.
    - intros [= <-]. destruct (InsertStream.read_in_flight_ r); lia.
    - pose proof (insert_step_reads ev r tables_ n0) as Hstep. cbv zeta in Hstep.
      destruct (InsertStream.step _ _ ev r tables_) as [[r1 tb1] effs1].
      simpl in Hstep.
      destruct (in_flight_after is_StartRead (is_ReadDone ev) effs1 n0) as [n1|];
        [|done].
      apply (IH r1 tb1 n1). by apply Hstep. }
  apply Hrun. simpl. lia.
Qed.

(** One callback keeps the writes in flight at one at most, and at none when
    the queue of an unfinished reactor is empty. *)
Lemma insert_step_writes (ev : InsertStream.Event)
    (r : InsertStream.WorkerlessInsertReactor) (tables_ : gmap string Table)
    (n n' : nat) :
  let res := InsertStream.step GetChunkKeys ShortDebugString ev r tables_ in
  let idle (r : InsertStream.WorkerlessInsertReactor) :=
    is_finished_ (InsertStream.base r) = false
    ∧ responses_to_send_ (InsertStream.base r) = [] in
  (n ≤ 1)%nat ∧ (idle r → n = 0%nat) →
  in_flight_after is_StartWrite (is_WriteDone ev) res.2 n = Some n' →
  (n' ≤ 1)%nat ∧ (idle res.1.1 → n' = 0%nat).
Proof.
  intros res idle [Hn Hidle]. subst res idle. unfold in_flight_after.
  destruct ev as [read_ok read_failed request|write_ok write_failed|k]; simpl.
  - unfold InsertStream.OnReadDone.
    destruct (is_finished_ (InsertStream.base r)) eqn:Hf; simpl.
    { intros [= <-]. rewrite Hf. split; [lia|]. by intros [? ?]. }
    destruct read_ok; simpl.
    + pose proof (insert_ProcessIncomingRequest_effects request r tables_) as [Hw _].
      pose proof (insert_ProcessIncomingRequest_base GetChunkKeys ShortDebugString
                    request r tables_) as Hbase.
      destruct (InsertStream.ProcessIncomingRequest _ _ _ _ _) as [[[st r'] tb] effs].
      simpl in Hw, Hbase. destruct (ok st); simpl.
      * intros [= <-]. rewrite Hw, Hbase. simpl. split; [lia|].
        intros Hi. rewrite (Hidle Hi). lia.
      * unfold SetReactorAsFinished. rewrite Hbase, Hf. simpl.
        intros [= <-]. rewrite filter_app, Hw. simpl. split; [lia|]. by intros [? ?].
    + unfold SetReactorAsFinished. rewrite Hf. simpl.
      intros [= <-]. split; [lia|]. by intros [? ?].
  - destruct n as [|m]; [done|]. assert (m = 0%nat) as -> by lia.
    unfold InsertStream.OnWriteDone, Base_OnWriteDone.
    destruct (is_finished_ (InsertStream.base r)) eqn:Hf; simpl.
    { intros [= <-]. rewrite Hf. split; [lia|]. by intros [? ?]. }
    destruct write_ok; simpl.
    + unfold MaybeSendNextResponse. simpl.
      destruct (tail (responses_to_send_ (InsertStream.base r))); simpl;
        intros [= <-]; (split; [lia|]); [done|by intros [? ?]].
    + unfold SetReactorAsFinished. rewrite Hf. simpl.
      intros [= <-]. split; [lia|]. by intros [? ?].
  - destruct (is_finished_ (InsertStream.base r)) eqn:Hf.
    + unfold InsertStream.insert_completed_.
      destruct (negb (InsertStream.read_in_flight_ r)); simpl; rewrite Hf; simpl.
      all: intros [= <-]; split; [lia|]; intros [Hx _]; simpl in Hx; congruence.
    + pose proof (insert_completed_unfinished k r Hf) as (Hf1 & Hq & Hw).
      cbv zeta in Hq, Hw.
      destruct (InsertStream.insert_completed_ k r) as [r1 effs1].
      cbn [fst snd] in *. rewrite Hw, Hq, Hf1. clear Hw Hq.
      destruct (responses_to_send_ (InsertStream.base r)) as [|front [|second rest]].
      * rewrite Hidle by done. simpl. intros [= <-]. split; [lia|]. by intros [? ?].
      * simpl. intros [= <-]. split; [lia|]. by intros [? ?].
      * pose proof (back_add_keys_length (second :: rest) k) as Hlen.
        replace (length (front :: second :: rest) <? 2)%nat with false by done.
        change (InsertStream.back_add_keys (front :: second :: rest) k)
          with (front :: InsertStream.back_add_keys (second :: rest) k).
        replace (length (front :: InsertStream.back_add_keys (second :: rest) k) =? 1)%nat
          with false by (by rewrite length_cons, Hlen).
        simpl. intros [= <-]. split; [lia|]. by intros [? ?].
Qed.

(** X10. At most one write is in flight on an insert stream at any time:
    counting the writes started and completed along any run of callbacks from
    the construction in which a write completes only if one is in flight, the
    number in flight never exceeds one. *)
Theorem insert_stream_has_at_most_one_write_in_flight
    (evs : list InsertStream.Event) (tables_ : gmap string Table) (n : nat) :
  insert_in_flight GetChunkKeys ShortDebugString is_StartWrite is_WriteDone evs
    (InsertStream.new_reactor).1 tables_ 0 = Some n →
  (n ≤ 1)%nat.
Proof.
  assert (∀ evs (r : InsertStream.WorkerlessInsertReactor) (tables_ : gmap string Table)
            n0 n,
            (n0 ≤ 1)%nat
            ∧ (is_finished_ (InsertStream.base r) = false
               ∧ responses_to_send_ (InsertStream.base r) = [] → n0 = 0%nat) →
            insert_in_flight GetChunkKeys ShortDebugString is_StartWrite is_WriteDone
              evs r tables_ n0 = Some n →
            (n ≤ 1)%nat) as Hrun.
  { clear. induction evs as [|ev evs IH]; intros r tables_ n0 n Hn0; simpl.
    - intros [= <-]. by destruct Hn0.
    - pose proof (insert_step_writes ev r tables_ n0) as Hstep. cbv zeta in Hstep.
      destruct (InsertStream.step _ _ ev r tables_) as [[r1 tb1] effs1].
      simpl in Hstep.
      destruct (in_flight_after is_StartWrite (is_WriteDone ev) effs1 n0) as [n1|];
        [|done].
      apply (IH r1 tb1 n1). by apply Hstep. }
  apply Hrun. simpl. split; [lia|done].
Qed.
End insert_runs.

Lemma completed_keys_are_acknowledged_in_order_witness :
  let res := InsertStream.run example_GetChunkKeys example_ShortDebugString
               example_insert_run (InsertStream.new_reactor).1 example_tables in
  written_keys res.2 = [9%N; 2%N; 1%N]
  ∧ written_keys res.2
    ++ queued_keys (tail (responses_to_send_ (InsertStream.base res.1.1)))
    = completed_keys example_insert_run.
Proof.
  split; [vm_compute; reflexivity|].
  apply (completed_keys_are_acknowledged_in_order example_GetChunkKeys
           example_ShortDebugString example_insert_run example_tables).
  vm_compute. reflexivity.
Defined.

Lemma insert_stream_has_at_most_one_read_in_flight_witness :
  insert_in_flight example_GetChunkKeys example_ShortDebugString is_StartRead
    is_ReadDone example_insert_run (InsertStream.new_reactor).1 example_tables 1
  = Some 1%nat
  ∧ (1 ≤ 1)%nat.
Proof.
  split; [vm_compute; reflexivity|].
  apply (insert_stream_has_at_most_one_read_in_flight example_GetChunkKeys
           example_ShortDebugString example_insert_run example_tables 1).
  vm_compute. reflexivity.
Defined.

Lemma insert_stream_has_at_most_one_write_in_flight_witness :
  insert_in_flight example_GetChunkKeys example_ShortDebugString is_StartWrite
    is_WriteDone example_insert_run (InsertStream.new_reactor).1 example_tables 0
  = Some 1%nat
  ∧ (1 ≤ 1)%nat.
Proof.
  split; [vm_compute; reflexivity|].
  apply (insert_stream_has_at_most_one_write_in_flight example_GetChunkKeys
           example_ShortDebugString example_insert_run example_tables 1).
  vm_compute. reflexivity.
Defined.

(** ** SampleStream: what packing leaves alone *)

Section packing_more.
Import SampleStream.

Local Abbreviation open_ctx es e tis :=
  (mkCtx (mkSampleStreamResponse (es ++ [e])) tis).

Lemma modify_back_app {A : Type} (f : A → A) (l1 l2 : list A) :
  l2 ≠ [] → modify_back f (l1 ++ l2) = l1 ++ modify_back f l2.
Proof.
  intros Hl2. destruct (exists_last Hl2) as (init & x & ->).
  by rewrite app_assoc, !modify_back_snoc, app_assoc.
Qed.

Lemma all_table_items_app (q1 q2 : Queue) :
  all_table_items (q1 ++ q2) = all_table_items q1 ++ all_table_items q2.
Proof. unfold all_table_items. by rewrite fmap_app, concat_app. Qed.

(** The loop leaves the responses before the one it started in as they are,
    ends in a response whose last entry is the one being filled, and attaches
    no sampled item: the items attached are those the response it started in
    had, or none if it has opened a new response. With at least one chunk,
    the entry it ends in holds the last chunk and has end_of_sequence set. *)
Lemma chunk_loop_shape sample n cs :
  ∀ i qs es e tis bytes,
    (i + length cs = n)%nat →
    ∃ mid es' e' tis',
      (chunk_loop sample n i cs (qs ++ [open_ctx es e tis]) bytes).1
      = qs ++ mid ++ [open_ctx es' e' tis']
      ∧ all_table_items (mid ++ [open_ctx es' e' tis']) = tis
      ∧ (cs = [] → mid = [] ∧ es' = es ∧ e' = e ∧ tis' = tis)
      ∧ (cs ≠ [] → end_of_sequence e' = true ∧ last (data e') = last cs).
Proof.
  induction cs as [|chunk rest IH]; intros i qs es e tis bytes Hn.
  - exists [], es, e, tis. simpl. unfold all_table_items. simpl.
    by rewrite app_nil_r.
  - rewrite chunk_loop_cons. cbv zeta.
    remember (add_data chunk
                (if (i =? 0)%nat
                 then set_info sample (set_end_of_sequence (i + 1 =? n)%nat e)
                 else set_end_of_sequence (i + 1 =? n)%nat e)) as e3 eqn:He3.
    assert (data e3 = data e ++ [chunk]) as Hdata.
    { rewrite He3. by destruct (i =? 0)%nat. }
    assert (end_of_sequence e3 = (i + 1 =? n)%nat) as Heos.
    { rewrite He3. by destruct (i =? 0)%nat. }
    clear He3. rewrite length_cons in Hn.
    destruct ((i <? n - 1)%nat && _) eqn:Hsplit.
    + apply andb_prop in Hsplit as [Hi _]. apply Nat.ltb_lt in Hi.
      assert (rest ≠ []) as Hrest.
      { destruct rest; [|done]. rewrite length_nil in Hn. lia. }
      destruct (IH (S i) (qs ++ [open_ctx es e3 tis]) [] Entry_default [] 0)
        as (mid & es' & e' & tis' & Heq & Hitems & _ & Hlast); [lia|].
      exists (open_ctx es e3 tis :: mid), es', e', tis'.
      rewrite Heq, <- app_assoc. split; [done|]. split.
      { change ((open_ctx es e3 tis :: mid) ++ [open_ctx es' e' tis'])
          with ([open_ctx es e3 tis] ++ (mid ++ [open_ctx es' e' tis'])).
        rewrite all_table_items_app, Hitems. unfold all_table_items. simpl.
        by rewrite !app_nil_r. }
      split; [done|]. intros _. destruct (Hlast Hrest) as [-> ->].
      split; [done|]. destruct rest; [done|]. done.
    + destruct (IH (S i) qs es e3 tis
                  (wrap_int64 (bytes + Z.of_N (ByteSizeLong chunk))))
        as (mid & es' & e' & tis' & Heq & Hitems & Hnil & Hlast); [lia|].
      exists mid, es', e', tis'. rewrite Heq.
      split; [done|]. split; [done|]. split; [done|]. intros _.
      destruct rest as [|c' rest'].
      * destruct (Hnil eq_refl) as (-> & -> & -> & ->).
        rewrite Heos, Hdata, last_snoc. split; [|done].
        apply Nat.eqb_eq. rewrite length_nil in Hn. lia.
      * destruct (Hlast ltac:(done)) as [-> ->]. done.
Qed.

(** [ProcessSample] up to the loop, with what is known when it continues in
    the back response. *)
Lemma ProcessSample_start (sample : SampledItem) (write_in_flight : bool)
    (q : Queue) (bytes : Z) :
  ∃ qs c b0,
    ProcessSample sample write_in_flight q bytes
    = (let res :=
         chunk_loop sample (length (chunks (ref sample))) 0 (chunks (ref sample))
           (qs ++ [open_ctx (entries (payload c)) Entry_default (table_items c)]) b0 in
       (modify_back (AddTableItem (ref sample)) res.1, res.2))
    ∧ ((q = qs ++ [c] ∧ b0 = bytes ∧ bytes ≤ kMaxSampleResponseSizeBytes
        ∧ (length q = 1%nat → write_in_flight = false))
       ∨ (qs = q ∧ c = Ctx_default ∧ b0 = 0
          ∧ (q = [] ∨ (length q = 1%nat ∧ write_in_flight = true)
             ∨ kMaxSampleResponseSizeBytes < bytes))).
Proof.
  unfold ProcessSample.
  destruct ((length q =? 0)%nat || (length q =? 1)%nat && write_in_flight
            || (bytes >? kMaxSampleResponseSizeBytes)) eqn:Hnew.
  - exists q, Ctx_default, 0. rewrite modify_back_snoc.
    split; [by destruct (chunk_loop _ _ _ _ _ _)|].
    right. split; [done|]. split; [done|]. split; [done|].
    apply orb_prop in Hnew as [Hnew|Hbytes].
    + apply orb_prop in Hnew as [Hlen|Hone].
      * left. by destruct q.
      * right. left. apply andb_prop in Hone as [Hlen ->].
        by apply Nat.eqb_eq in Hlen.
    + right. right. destruct (Z.gtb_spec bytes kMaxSampleResponseSizeBytes); [lia|done].
  - apply orb_false_elim in Hnew as [Hnew Hbytes].
    apply orb_false_elim in Hnew as [Hlen Hone].
    assert (q ≠ []) as Hne by (by destruct q).
    destruct (exists_last Hne) as (qs & c & ->).
    exists qs, c, bytes. rewrite modify_back_snoc.
    split; [by destruct (chunk_loop _ _ _ _ _ _)|].
    left. split; [done|]. split; [done|]. split.
    + destruct (Z.gtb_spec bytes kMaxSampleResponseSizeBytes); [done|lia].
    + intros Hl. rewrite Hl in Hone. simpl in Hone. done.
Qed.

(** [ProcessSample] in terms of the responses it leaves alone. *)
Lemma ProcessSample_shape (sample : SampledItem) (write_in_flight : bool)
    (q : Queue) (bytes : Z) :
  ∃ kept mid c,
    (ProcessSample sample write_in_flight q bytes).1 = kept ++ mid ++ [c]
    ∧ (kept = q ∨ ∃ back, q = kept ++ [back]
                          ∧ (length q = 1%nat → write_in_flight = false))
    ∧ all_table_items (kept ++ mid ++ [c]) = all_table_items q ++ [ref sample]
    ∧ last (table_items c) = Some (ref sample)
    ∧ ∃ e, last (entries (payload c)) = Some e
           ∧ (chunks (ref sample) ≠ [] →
              end_of_sequence e = true
              ∧ last (data e) = last (chunks (ref sample))).
Proof.
  destruct (ProcessSample_start sample write_in_flight q bytes)
    as (qs & c0 & b0 & Heq & Hstart).
  destruct (chunk_loop_shape sample (length (chunks (ref sample)))
              (chunks (ref sample)) 0 qs (entries (payload c0)) Entry_default
              (table_items c0) b0 eq_refl)
    as (mid & es' & e' & tis' & Hloop & Hitems & _ & Hlast).
  exists qs, mid, (AddTableItem (ref sample) (open_ctx es' e' tis')).
  rewrite Heq. cbv zeta. cbn [fst]. rewrite Hloop.
  rewrite app_assoc, modify_back_snoc, <- app_assoc.
  split; [done|]. split; [|split; [|split]].
  - destruct Hstart as [(-> & _ & _ & Hone)|(-> & _)]; [|by left].
    right. by exists c0.
  - rewrite !all_table_items_app.
    assert (all_table_items q = all_table_items qs ++ table_items c0) as ->.
    { destruct Hstart as [(-> & _)|(-> & -> & _)].
      - rewrite all_table_items_app. unfold all_table_items. simpl.
        by rewrite app_nil_r.
      - unfold all_table_items. simpl. by rewrite !app_nil_r. }
    rewrite all_table_items_app in Hitems. rewrite <- Hitems.
    unfold all_table_items. simpl. rewrite !app_nil_r.
    by rewrite <- !app_assoc.
  - simpl. by rewrite last_snoc.
  - exists e'. simpl. rewrite last_snoc. split; [done|]. apply Hlast.
Qed.

Lemma ProcessSample_keeps_front (sample : SampledItem)
    (front : SampleStreamResponseCtx) (q : Queue) (bytes : Z) :
  ∃ rest, (ProcessSample sample true (front :: q) bytes).1 = front :: rest.
Proof.
  destruct (ProcessSample_shape sample true (front :: q) bytes)
    as (kept & mid & c & -> & Hkept & _).
  destruct Hkept as [->|(back & Hq & Hone)]; [by eexists|].
  destruct kept as [|x kept].
  - simpl in Hq. injection Hq as -> ->. by specialize (Hone eq_refl).
  - simpl in Hq. injection Hq as -> _. by eexists.
Qed.

Lemma process_samples_keeps_front (ss : list SampledItem) :
  ∀ (front : SampleStreamResponseCtx) (q : Queue) (bytes : Z),
    ∃ rest, (process_samples ss true (front :: q) bytes).1 = front :: rest.
Proof.
  induction ss as [|sample ss IH]; intros front q bytes; simpl; [by eexists|].
  destruct (ProcessSample_keeps_front sample front q bytes) as (rest & Hrest).
  destruct (ProcessSample sample true (front :: q) bytes) as [q1 b1].
  simpl in Hrest. subst q1. apply IH.
Qed.

(** X11. Packing never touches a response that may be on the wire.
    [ProcessSample] changes at most the back response of the queue and
    appends; when called with a write in flight it leaves the front response
    as it is even if that is the only one. So [sampling_done_], on a batch
    with OK status, leaves the front response of a non-empty queue exactly as
    it was. *)
Theorem packing_leaves_the_front_response_alone :
  (∀ sample write_in_flight (q : Queue) bytes,
      ∃ rest, (ProcessSample sample write_in_flight q bytes).1
              = take (length q - 1) q ++ rest)
  ∧ (∀ sample front (q : Queue) bytes,
      ∃ rest, (ProcessSample sample true (front :: q) bytes).1 = front :: rest)
  ∧ (∀ batch (r : WorkerlessSampleReactor) front q,
      ok (status batch) = true →
      responses_to_send_ (base r) = front :: q →
      ∃ rest, responses_to_send_ (base (sampling_done_ batch r).1) = front :: rest).
Proof.
  split; [|split].
  - intros sample write_in_flight q bytes.
    destruct (ProcessSample_shape sample write_in_flight q bytes)
      as (kept & mid & c & -> & Hkept & _).
    destruct Hkept as [->|(back & -> & _)].
    + exists (drop (length q - 1) q ++ mid ++ [c]).
      rewrite (app_assoc (take _ _)), take_drop. done.
    + exists (mid ++ [c]). rewrite length_app. simpl.
      replace (length kept + 1 - 1)%nat with (length kept) by lia.
      by rewrite take_app_length.
  - intros. apply ProcessSample_keeps_front.
  - intros batch r front q Hok Hq. unfold sampling_done_. rewrite Hok.
    cbn [negb]. cbn [base set_waiting_for_enqueued_sample_ set_task_info_
                     task_info_ current_response_size_bytes_
                     waiting_for_enqueued_sample_].
    rewrite Hq. cbn [length Nat.eqb negb].
    destruct (process_samples_keeps_front (samples batch) front q
                (current_response_size_bytes_ r)) as (rest & Hrest).
    destruct (process_samples (samples batch) true (front :: q)
                (current_response_size_bytes_ r)) as [q1 b1].
    simpl in Hrest. subst q1.
    destruct (negb (NextSampleSize _ =? 0)).
    + match goal with
      | |- context [MaybeStartSampling ?x] =>
          pose proof (MaybeStartSampling_keeps x) as (Hb & _);
          destruct (MaybeStartSampling x) as [r' calls]
      end.
      simpl in *. rewrite Hb. by eexists.
    + simpl. by eexists.
Qed.

Lemma process_samples_table_items (ss : list SampledItem) (write_in_flight : bool) :
  ∀ (q : Queue) (bytes : Z),
    all_table_items (process_samples ss write_in_flight q bytes).1
    = all_table_items q ++ (ref <$> ss).
Proof.
  induction ss as [|sample ss IH]; intros q bytes; simpl; [by rewrite app_nil_r|].
  destruct (ProcessSample_shape sample write_in_flight q bytes)
    as (kept & mid & c & Heq & _ & Hitems & _).
  destruct (ProcessSample sample write_in_flight q bytes) as [q1 b1].
  simpl in Heq. subst q1. rewrite IH, Hitems, <- app_assoc. done.
Qed.

(** X12. A sampled item is kept alive by exactly one response, the last one
    that carries it: [ProcessSample] attaches the item once, to the response
    at the back of the queue it leaves, and the last entry of that response
    is the item's last entry (end_of_sequence set, holding the item's last
    chunk, when the item has chunks). Over a batch, the attached items are
    those already attached followed by the batch's items, in order. *)
Theorem sampled_item_is_attached_to_its_last_response :
  (∀ sample write_in_flight (q : Queue) bytes,
      all_table_items (ProcessSample sample write_in_flight q bytes).1
      = all_table_items q ++ [ref sample]
      ∧ ∃ init c e,
          (ProcessSample sample write_in_flight q bytes).1 = init ++ [c]
          ∧ last (table_items c) = Some (ref sample)
          ∧ last (entries (payload c)) = Some e
          ∧ (chunks (ref sample) ≠ [] →
             end_of_sequence e = true
             ∧ last (data e) = last (chunks (ref sample))))
  ∧ (∀ ss write_in_flight (q : Queue) bytes,
      all_table_items (process_samples ss write_in_flight q bytes).1
      = all_table_items q ++ (ref <$> ss)).
Proof.
  split; [|intros; apply process_samples_table_items].
  intros sample write_in_flight q bytes.
  destruct (ProcessSample_shape sample write_in_flight q bytes)
    as (kept & mid & c & Heq & _ & Hitems & Hlast & e & He & Hend).
  rewrite Heq. split; [done|].
  exists (kept ++ mid), c, e. by rewrite <- app_assoc.
Qed.

(** X13. A sampled item without chunks still gets an entry: [ProcessSample]
    appends one entry that has no info block, no data, and end_of_sequence
    false (the loop that fills them in does not run), and attaches the
    item. *)
Theorem sample_without_chunks_gets_an_empty_entry (sample : SampledItem)
    (write_in_flight : bool) (q : Queue) (bytes : Z) :
  chunks (ref sample) = [] →
  all_entries (ProcessSample sample write_in_flight q bytes).1
  = all_entries q ++ [mkEntry None [] false]
  ∧ all_table_items (ProcessSample sample write_in_flight q bytes).1
    = all_table_items q ++ [ref sample]
  ∧ (length (ProcessSample sample write_in_flight q bytes).1 ≤ length q + 1)%nat.
Proof.
  intros Hchunks.
  destruct (ProcessSample_entries sample write_in_flight q bytes)
    as (out & Hall & Hlen & _ & _ & Hnil & _).
  rewrite (Hnil Hchunks) in Hall, Hlen.
  destruct (ProcessSample_shape sample write_in_flight q bytes)
    as (kept & mid & c & Heq & _ & Hitems & _).
  rewrite Heq in *. done.
Qed.

(** While the counter stays within the limit the loop opens no response: all
    chunks go into the entry being filled. *)
Lemma chunk_loop_no_split sample n cs :
  ∀ i qs es e tis bytes,
    0 ≤ bytes →
    bytes + chunk_bytes cs ≤ kMaxSampleResponseSizeBytes →
    ∃ e',
      chunk_loop sample n i cs (qs ++ [open_ctx es e tis]) bytes
      = (qs ++ [open_ctx es e' tis], bytes + chunk_bytes cs)
      ∧ data e' = data e ++ cs.
Proof.
  induction cs as [|chunk rest IH]; intros i qs es e tis bytes Hpos Hle.
  - exists e. simpl. rewrite app_nil_r. split; [|done]. f_equal. lia.
  - rewrite chunk_loop_cons. cbv zeta.
    remember (add_data chunk
                (if (i =? 0)%nat
                 then set_info sample (set_end_of_sequence (i + 1 =? n)%nat e)
                 else set_end_of_sequence (i + 1 =? n)%nat e)) as e3 eqn:He3.
    assert (data e3 = data e ++ [chunk]) as Hdata.
    { rewrite He3. by destruct (i =? 0)%nat. }
    clear He3. simpl in Hle.
    pose proof (chunk_bytes_nonneg rest) as Hrest.
    assert (kMaxSampleResponseSizeBytes = 1048576) as Hmax by done.
    assert (2 ^ 63 = 9223372036854775808) as Hpow by done.
    rewrite wrap_int64_small by lia.
    replace (bytes + Z.of_N (ByteSizeLong chunk) >? kMaxSampleResponseSizeBytes)
      with false.
    2:{ symmetry. destruct (Z.gtb_spec (bytes + Z.of_N (ByteSizeLong chunk))
                             kMaxSampleResponseSizeBytes); [lia|done]. }
    rewrite andb_false_r.
    destruct (IH (S i) qs es e3 tis (bytes + Z.of_N (ByteSizeLong chunk)))
      as (e' & Heq & He'); [lia|lia|].
    exists e'. rewrite Heq, He', Hdata, <- app_assoc. split; [|done].
    f_equal. simpl. lia.
Qed.

(** A sample whose chunks fit goes into the only response of the queue when
    no write is in flight. *)
Lemma ProcessSample_same_response (sample : SampledItem)
    (c : SampleStreamResponseCtx) (bytes : Z) :
  0 ≤ bytes →
  bytes + chunk_bytes (chunks (ref sample)) ≤ kMaxSampleResponseSizeBytes →
  ∃ e,
    ProcessSample sample false [c] bytes
    = ([mkCtx (mkSampleStreamResponse (entries (payload c) ++ [e]))
              (table_items c ++ [ref sample])],
       bytes + chunk_bytes (chunks (ref sample)))
    ∧ data e = chunks (ref sample).
Proof.
  intros Hpos Hle. unfold ProcessSample.
  pose proof (chunk_bytes_nonneg (chunks (ref sample))) as Hch.
  replace ((length [c] =? 0)%nat || (length [c] =? 1)%nat && false
           || (bytes >? kMaxSampleResponseSizeBytes)) with false.
  2:{ simpl. symmetry.
      destruct (Z.gtb_spec bytes kMaxSampleResponseSizeBytes); [lia|done]. }
  destruct (chunk_loop_no_split sample (length (chunks (ref sample)))
              (chunks (ref sample)) 0 [] (entries (payload c)) Entry_default
              (table_items c) bytes Hpos Hle) as (e & Heq & He).
  exists e. rewrite app_nil_l in Heq. cbv beta iota zeta.
  change (modify_back add_entries [c])
    with [open_ctx (entries (payload c)) Entry_default (table_items c)].
  rewrite Heq. done.
Qed.

Lemma batch_chunks_cons (sample : SampledItem) (ss : list SampledItem) :
  batch_chunks (sample :: ss) = chunks (ref sample) ++ batch_chunks ss.
Proof. done. Qed.

Lemma process_samples_same_response (ss : list SampledItem) :
  ∀ (c : SampleStreamResponseCtx) (bytes : Z),
    0 ≤ bytes →
    bytes + chunk_bytes (batch_chunks ss) ≤ kMaxSampleResponseSizeBytes →
    ∃ new,
      process_samples ss false [c] bytes
      = ([mkCtx (mkSampleStreamResponse (entries (payload c) ++ new))
                (table_items c ++ (ref <$> ss))],
         bytes + chunk_bytes (batch_chunks ss))
      ∧ data <$> new = (λ s, chunks (ref s)) <$> ss.
Proof.
  induction ss as [|sample ss IH]; intros c bytes Hpos Hle.
  - exists []. simpl. rewrite !app_nil_r. split; [|done].
    destruct c as [[es] tis]. simpl. f_equal. unfold batch_chunks. simpl. lia.
  - rewrite batch_chunks_cons, chunk_bytes_app in Hle.
    pose proof (chunk_bytes_nonneg (batch_chunks ss)) as Hrest.
    pose proof (chunk_bytes_nonneg (chunks (ref sample))) as Hfirst.
    destruct (ProcessSample_same_response sample c bytes Hpos) as (e & Heq & He);
      [lia|].
    simpl. rewrite Heq.
    destruct (IH (mkCtx (mkSampleStreamResponse (entries (payload c) ++ [e]))
                        (table_items c ++ [ref sample]))
                 (bytes + chunk_bytes (chunks (ref sample))))
      as (new & Heq' & Hnew); [lia|lia|].
    exists (e :: new). rewrite Heq'. cbn [payload entries table_items].
    rewrite <- !app_assoc. split.
    + f_equal. rewrite batch_chunks_cons, chunk_bytes_app. lia.
    + by rewrite !fmap_cons, He, Hnew.
Qed.

(** X14. Small samples share a response: with an empty queue, a non-empty
    batch whose chunks add up to at most 1 048 576 bytes is packed into ONE
    response, with one entry per sampled item holding all chunks of that
    item, in batch order; the response keeps every item of the batch alive,
    and the byte counter ends at the size of the batch. *)
Theorem small_batch_goes_into_one_response (ss : list SampledItem) (bytes0 : Z) :
  ss ≠ [] →
  chunk_bytes (batch_chunks ss) ≤ kMaxSampleResponseSizeBytes →
  ∃ c,
    process_samples ss false [] bytes0 = ([c], chunk_bytes (batch_chunks ss))
    ∧ data <$> entries (payload c) = (λ s, chunks (ref s)) <$> ss
    ∧ table_items c = ref <$> ss.
Proof.
  intros Hss Hle.
  assert (process_samples ss false [] bytes0 = process_samples ss false [Ctx_default] 0)
    as ->.
  { destruct ss as [|sample ss]; [done|]. simpl.
    assert (ProcessSample sample false [] bytes0
            = ProcessSample sample false [Ctx_default] 0) as ->; [|done].
    unfold ProcessSample. simpl. done. }
  destruct (process_samples_same_response ss Ctx_default 0) as (new & Heq & Hnew);
    [done|lia|].
  eexists. split; [by rewrite Heq|]. simpl. done.
Qed.
End packing_more.

Lemma sample_without_chunks_gets_an_empty_entry_witness :
  let sample := example_sampled 1 [] in
  all_entries (SampleStream.ProcessSample sample false [] 0).1
  = all_entries [] ++ [SampleStream.mkEntry None [] false]
  ∧ all_table_items (SampleStream.ProcessSample sample false [] 0).1
    = all_table_items [] ++ [SampleStream.ref sample]
  ∧ (length (SampleStream.ProcessSample sample false [] 0).1 ≤ length ([] : SampleStream.Queue) + 1)%nat.
Proof.
  apply (sample_without_chunks_gets_an_empty_entry (example_sampled 1 []) false [] 0).
  reflexivity.
Defined.

Lemma small_batch_goes_into_one_response_witness :
  let ss := SampleStream.samples example_batch_three_small in
  ∃ c,
    SampleStream.process_samples ss false [] 0 = ([c], chunk_bytes (batch_chunks ss))
    ∧ SampleStream.data <$> SampleStream.entries (SampleStream.payload c)
      = (λ s, chunks (SampleStream.ref s)) <$> ss
    ∧ SampleStream.table_items c = SampleStream.ref <$> ss.
Proof.
  apply (small_batch_goes_into_one_response
           (SampleStream.samples example_batch_three_small) 0).
  - discriminate.
  - vm_compute. discriminate.
Defined.

(** ** SampleStream: the counter and the requests in flight *)

Section sample_runs.
Import SampleStream.
Context {Table : Type} `{!TableOps Table}.
Variable kAutoSelectValue : Z.

(** X15. The byte counter is the size of the response being filled: along
    every run of the sample reactor from its construction (the chunk sizes
    not overflowing 64 bits), whenever the queue is not empty,
    [current_response_size_bytes_] equals the bytes of the chunks in the back
    response. *)
Theorem byte_counter_is_the_size_of_the_back_response
    (tables_ : gmap string Table) (evs : list Event)
    (t0 : SampleTaskInfo) (bytes0 : Z) :
  Forall event_chunks_fit evs →
  let res := run kAutoSelectValue tables_ evs (new_reactor t0 bytes0).1 in
  ∀ init back,
    responses_to_send_ (base res.1) = init ++ [back] →
    current_response_size_bytes_ res.1 = chunk_bytes (response_chunks back).
Proof.
  intros Hfit.
  assert (∀ r,
            (Forall within_limit_before_last_chunk (responses_to_send_ (base r))
             ∧ ∀ qs c, responses_to_send_ (base r) = qs ++ [c] →
                       current_response_size_bytes_ r = chunk_bytes (response_chunks c)) →
            let res := run kAutoSelectValue tables_ evs r in
            Forall within_limit_before_last_chunk (responses_to_send_ (base res.1))
            ∧ ∀ qs c, responses_to_send_ (base res.1) = qs ++ [c] →
                      current_response_size_bytes_ res.1
                      = chunk_bytes (response_chunks c)) as Hrun.
  { induction Hfit as [|ev evs Hev _ IH]; intros r Hpacked; [done|].
    simpl. pose proof (step_packed kAutoSelectValue tables_ ev r Hev Hpacked) as Hstep.
    cbv zeta in Hstep.
    destruct (step kAutoSelectValue tables_ ev r) as [r1 effs1].
    simpl in Hstep. destruct Hstep as [Hp1 _].
    specialize (IH r1 Hp1). cbv zeta in IH.
    by destruct (run kAutoSelectValue tables_ evs r1) as [r2 effs2]. }
  intros res init back Hq.
  destruct (Hrun (new_reactor t0 bytes0).1) as [_ Hcounter].
  - split; [done|]. intros qs c Hnil. by destruct qs.
  - by apply (Hcounter init back).
Qed.

Lemma MaybeStartSampling_in_flight (r : WorkerlessSampleReactor) (n : nat) :
  (n ≤ if waiting_for_enqueued_sample_ r then 1 else 0)%nat →
  (n + length (filter (λ e, is_CallEnqueSampleRequest e = true) (MaybeStartSampling r).2)
   ≤ if waiting_for_enqueued_sample_ (MaybeStartSampling r).1 then 1 else 0)%nat.
Proof.
  unfold MaybeStartSampling.
  destruct (NextSampleSize (task_info_ r) =? 0); [simpl; lia|].
  destruct (waiting_for_enqueued_sample_ r) eqn:Hw; [simpl; rewrite Hw; lia|].
  destruct (kMaxQueuedResponses <=? length (responses_to_send_ (base r)))%nat;
    [simpl; rewrite Hw; lia|].
  simpl. destruct (task_table (task_info_ r)); simpl; lia.
Qed.

Lemma sample_ProcessIncomingRequest_in_flight (request : SampleStreamRequest)
    (r : WorkerlessSampleReactor) (tables_ : gmap string Table) (n : nat) :
  let res := ProcessIncomingRequest kAutoSelectValue request r tables_ in
  (n ≤ if waiting_for_enqueued_sample_ r then 1 else 0)%nat →
  (n + length (filter (λ e, is_CallEnqueSampleRequest e = true) res.2)
   ≤ if waiting_for_enqueued_sample_ res.1.2 then 1 else 0)%nat.
Proof.
  intros res Hn. subst res. unfold ProcessIncomingRequest.
  destruct (num_samples request <=? 0); [simpl; lia|].
  destruct (_ && _); [simpl; lia|].
  destruct (TableByName tables_ (req_table request)) as [tbl|]; [|simpl; lia].
  match goal with
  | |- context [MaybeStartSampling ?x] =>
      pose proof (MaybeStartSampling_in_flight x n Hn) as Hmss;
      destruct (MaybeStartSampling x) as [r' calls]
  end.
  done.
Qed.

(** One callback keeps the sampling requests in flight within what
    [waiting_for_enqueued_sample_] says. *)
Lemma sample_step_in_flight (tables_ : gmap string Table) (ev : Event)
    (r : WorkerlessSampleReactor) (n n' : nat) :
  let res := step kAutoSelectValue tables_ ev r in
  (n ≤ if waiting_for_enqueued_sample_ r then 1 else 0)%nat →
  in_flight_after is_CallEnqueSampleRequest (is_SamplingDone ev) res.2 n = Some n' →
  (n' ≤ if waiting_for_enqueued_sample_ res.1 then 1 else 0)%nat.
Proof.
  intros res Hn. subst res. unfold in_flight_after.
  destruct ev as [read_ok read_failed request|write_ok write_failed|sample]; simpl.
  - unfold OnReadDone. destruct (is_finished_ (base r)) eqn:Hf; simpl.
    { intros [= <-]. lia. }
    destruct read_ok; simpl.
    + pose proof (sample_ProcessIncomingRequest_in_flight request r tables_ n Hn)
        as Hpir. cbv zeta in Hpir.
      destruct (ProcessIncomingRequest _ _ _ _) as [[st r'] effs]. simpl in Hpir.
      destruct (ok st); simpl; [by intros [= <-]|].
      unfold SetReactorAsFinished. destruct (is_finished_ (base r')); simpl.
      * intros [= <-]. by rewrite app_nil_r.
      * intros [= <-]. rewrite filter_app, length_app. simpl. lia.
    + unfold SetReactorAsFinished. rewrite Hf. simpl. intros [= <-]. lia.
  - unfold OnWriteDone.
    assert (length (filter (λ e, is_CallEnqueSampleRequest e = true)
                      (Base_OnWriteDone payload write_ok write_failed (base r)).2)
            = 0%nat) as Hbase.
    { unfold Base_OnWriteDone. destruct (is_finished_ (base r)) eqn:Hf; [done|].
      destruct write_ok; simpl.
      - unfold MaybeSendNextResponse. simpl. by destruct (tail _).
      - unfold SetReactorAsFinished. by rewrite Hf. }
    destruct (Base_OnWriteDone payload write_ok write_failed (base r)) as [b effs].
    simpl in Hbase.
    pose proof (MaybeStartSampling_in_flight (set_base b r) n Hn) as Hmss.
    destruct (MaybeStartSampling (set_base b r)) as [r' calls]. simpl in *.
    intros [= <-]. rewrite filter_app, length_app, Hbase. lia.
  - destruct n as [|m]; [done|]. intros [= <-].
    assert (m = 0%nat) as -> by (destruct (waiting_for_enqueued_sample_ r); lia).
    unfold sampling_done_. destruct (ok (status sample)); simpl.
    + destruct (process_samples _ _ _ _) as [q bytes].
      destruct (negb (NextSampleSize _ =? 0)).
      * match goal with
        | |- context [MaybeStartSampling ?x] =>
            pose proof (MaybeStartSampling_in_flight x 0) as Hmss;
            destruct (MaybeStartSampling x) as [r' calls]
        end.
        simpl in *. rewrite filter_app, length_app.
        assert (length (filter (λ e, is_CallEnqueSampleRequest e = true)
                          (if negb (negb (length (responses_to_send_ (base r)) =? 0)%nat)
                           then MaybeSendNextResponse payload
                                  (mkBase q (is_finished_ (base r)))
                           else [])) = 0%nat) as ->.
        { destruct (negb (negb _)); [|done]. unfold MaybeSendNextResponse. simpl.
          by destruct q. }
        apply Hmss. lia.
      * simpl. rewrite filter_app, length_app.
        assert (length (filter (λ e, is_CallEnqueSampleRequest e = true)
                          (if negb (negb (length (responses_to_send_ (base r)) =? 0)%nat)
                           then MaybeSendNextResponse payload
                                  (mkBase q (is_finished_ (base r)))
                           else [])) = 0%nat) as ->.
        { destruct (negb (negb _)); [|done]. unfold MaybeSendNextResponse. simpl.
          by destruct q. }
        unfold MaybeStartRead. simpl. destruct (is_finished_ (base r)); simpl; lia.
    + destruct (is_finished_ (base r)) eqn:Hf; simpl; [lia|].
      unfold SetReactorAsFinished. simpl. rewrite Hf. simpl. lia.
Qed.

(** X16. At most one sampling request is outstanding on the table at any
    time: counting the requests enqueued and the [sampling_done_] callbacks
    along any run of the sample reactor in which a callback arrives only for
    an outstanding request, the number outstanding never exceeds one. *)
Theorem at_most_one_sampling_request_in_flight
    (tables_ : gmap string Table) (evs : list Event)
    (t0 : SampleTaskInfo) (bytes0 : Z) (n : nat) :
  sampling_in_flight kAutoSelectValue tables_ evs (new_reactor t0 bytes0).1 0 = Some n →
  (n ≤ 1)%nat.
Proof.
  assert (∀ evs (r : WorkerlessSampleReactor) n0 n,
            (n0 ≤ if waiting_for_enqueued_sample_ r then 1 else 0)%nat →
            sampling_in_flight kAutoSelectValue tables_ evs r n0 = Some n →
            (n ≤ 1)%nat) as Hrun.
  { clear. induction evs as [|ev evs IH]; intros r n0 n Hn0; simpl.
    - intros [= <-]. destruct (waiting_for_enqueued_sample_ r); lia.
    - pose proof (sample_step_in_flight tables_ ev r n0) as Hstep. cbv zeta in Hstep.
      destruct (step kAutoSelectValue tables_ ev r) as [r1 effs1].
      simpl in Hstep.
      destruct (in_flight_after is_CallEnqueSampleRequest (is_SamplingDone ev) effs1 n0)
        as [n1|]; [|done].
      apply (IH r1 n1). by apply Hstep. }
  apply Hrun. simpl. lia.
Qed.
End sample_runs.

Lemma byte_counter_is_the_size_of_the_back_response_witness :
  let res := SampleStream.run (-1) example_tables example_sample_run
               (SampleStream.new_reactor example_task_info 0).1 in
  length (responses_to_send_ (SampleStream.base res.1)) = 3%nat
  ∧ ∀ init back,
      responses_to_send_ (SampleStream.base res.1) = init ++ [back] →
      SampleStream.current_response_size_bytes_ res.1
      = chunk_bytes (response_chunks back).
Proof.
  split; [vm_compute; reflexivity|].
  apply (byte_counter_is_the_size_of_the_back_response (-1) example_tables
           example_sample_run example_task_info 0).
  repeat (constructor; try done).
Defined.

Lemma at_most_one_sampling_request_in_flight_witness :
  sampling_in_flight (-1) example_tables (take 2 example_sample_run)
    (SampleStream.new_reactor example_task_info 0).1 0 = Some 1%nat
  ∧ (1 ≤ 1)%nat.
Proof.
  split; [vm_compute; reflexivity|].
  apply (at_most_one_sampling_request_in_flight (-1) example_tables
           (take 2 example_sample_run) example_task_info 0 1).
  vm_compute. reflexivity.
Defined.

(** ** The service facade: loading, names and the unary handlers *)

Section facade.
Context {Table : Type} `{!TableOps Table} `{!TableAdminOps Table}.
Variable Save : @Checkpointer Table → list Table → Z → Status * string.

(** X17. [Initialize] with a checkpointer: the fallback checkpoint is tried
    exactly when loading the latest one answers NotFound, and it is handed
    the table vector the first attempt left. An error other than NotFound of
    the attempt that counts is returned as it is and the service is left
    untouched; OK and NotFound both lead to an initialised service, whose
    registry is built from the vector the loaders left (the last table of a
    name wins over earlier ones and over one registered before). *)
Theorem Initialize_with_checkpointer (cp : @Checkpointer Table)
    (tables : list Table) (rnd_high rnd_low : N)
    (registered : gmap string Table) (id0 : N) :
  let svc := mkService (Some cp) registered id0 in
  let latest := LoadLatest cp tables in
  let final :=
    if IsNotFound latest.1 then LoadFallbackCheckpoint cp latest.2 else latest in
  let res := Initialize tables rnd_high rnd_low svc in
  (ok final.1 = false ∧ IsNotFound final.1 = false → res = (final.1, svc))
  ∧ (ok final.1 = true ∨ IsNotFound final.1 = true →
     res.1 = Status_OK
     ∧ checkpointer_ res.2 = Some cp
     ∧ tables_state_id_ res.2 = MakeUint128 rnd_high rnd_low
     ∧ ∀ n, TableByName (tables_ res.2) n
            = SetCallbackExecutor
                <$> match last (filter (λ tbl, name tbl = n) final.2) with
                    | Some tbl => Some tbl
                    | None => registered !! n
                    end).
Proof.
  intros svc latest final res.
  assert (load_checkpoint (Some cp) tables = final) as Hload.
  { unfold load_checkpoint. subst final latest.
    destruct (LoadLatest cp tables) as [st tbls]. simpl.
    by destruct (IsNotFound st). }
  assert (Initialize tables rnd_high rnd_low svc
          = if negb (ok final.1) && negb (IsNotFound final.1)
            then (final.1, svc)
            else (Status_OK,
                  mkService (Some cp)
                    (SetCallbackExecutor <$> register_tables final.2 registered)
                    (MakeUint128 rnd_high rnd_low))) as Hinit.
  { unfold Initialize. change (checkpointer_ svc) with (Some cp).
    rewrite Hload. by destruct final. }
  subst res. rewrite Hinit. clear Hinit Hload.
  destruct final as [st tbls]. cbn [fst snd]. split.
  - intros [Hok Hnf]. by rewrite Hok, Hnf.
  - intros Hst.
    replace (negb (ok st) && negb (IsNotFound st)) with false
      by (destruct Hst as [Hst|Hst]; rewrite Hst; [done|by rewrite andb_false_r]).
    cbn [fst snd checkpointer_ tables_ tables_state_id_].
    split; [done|]. split; [done|]. split; [done|].
    intros n. unfold TableByName. by rewrite lookup_fmap, register_tables_lookup.
Qed.

Lemma Create_without_checkpointer (tables : list Table) (rnd_high rnd_low : N) :
  ∃ svc,
    Create tables None rnd_high rnd_low = (Status_OK, Some svc)
    ∧ checkpointer_ svc = None
    ∧ ∀ n, TableByName (tables_ svc) n
           = SetCallbackExecutor <$> last (filter (λ tbl, name tbl = n) tables).
Proof.
  unfold Create, Initialize. simpl. eexists. split; [done|]. split; [done|].
  intros n. unfold TableByName. simpl.
  rewrite lookup_fmap, register_tables_lookup, lookup_empty.
  by destruct (last _).
Qed.

Lemma last_filter_name (tables : list Table) (n : string) :
  (n ∈ name <$> tables → is_Some (last (filter (λ tbl, name tbl = n) tables)))
  ∧ (n ∉ name <$> tables → last (filter (λ tbl, name tbl = n) tables) = None).
Proof.
  split.
  - intros Hin. apply list_elem_of_fmap in Hin as (tbl & -> & Hin).
    destruct (last (filter (λ t, name t = name tbl) tables)) eqn:Hl; [by eexists|].
    apply last_None in Hl.
    assert (tbl ∈ filter (λ t, name t = name tbl) tables) as Hf
      by (by apply list_elem_of_filter).
    rewrite Hl in Hf. by apply elem_of_nil in Hf.
  - intros Hnin.
    destruct (last (filter (λ t, name t = n) tables)) as [tbl|] eqn:Hl; [|done].
    exfalso. apply Hnin. apply last_Some_elem_of in Hl.
    apply list_elem_of_filter in Hl as [<- Hin]. apply list_elem_of_fmap. by exists tbl.
Qed.

(** X18. The names given at creation, and only those, can be addressed. On a
    service created without checkpointer, a name carried by a table of the
    vector resolves to a table, and [MutatePriorities] and [Reset] on it
    answer with the status of that table's own call; a name no table carries
    does not resolve, and both handlers answer NotFound, "Priority table
    <name> was not found", and leave every table as it is. *)
Theorem handlers_address_exactly_the_names_created
    (tables : list Table) (rnd_high rnd_low : N) :
  ∃ svc,
    Create tables None rnd_high rnd_low = (Status_OK, Some svc)
    ∧ ∀ request,
        let n := mutate_table request in
        (n ∈ name <$> tables →
           ∃ tbl,
             TableByName (tables_ svc) n = Some tbl
             ∧ (MutatePriorities request (tables_ svc)).1
               = (MutateItems (updates request) (delete_keys request) tbl).1
             ∧ (ServiceReset n (tables_ svc)).1 = (Reset tbl).1)
        ∧ (n ∉ name <$> tables →
             TableByName (tables_ svc) n = None
             ∧ MutatePriorities request (tables_ svc)
               = (mkStatus NOT_FOUND ("Priority table " +:+ n +:+ " was not found"),
                  tables_ svc)
             ∧ ServiceReset n (tables_ svc)
               = (mkStatus NOT_FOUND ("Priority table " +:+ n +:+ " was not found"),
                  tables_ svc)).
Proof.
  destruct (Create_without_checkpointer tables rnd_high rnd_low)
    as (svc & Hcreate & _ & Hlookup).
  exists svc. split; [done|]. intros request n.
  destruct (last_filter_name tables n) as [Hin Hnin]. split.
  - intros Hn. destruct (Hin Hn) as [tbl0 Htbl0].
    exists (SetCallbackExecutor tbl0).
    assert (TableByName (tables_ svc) n = Some (SetCallbackExecutor tbl0)) as Hres
      by (by rewrite Hlookup, Htbl0).
    split; [done|]. unfold MutatePriorities, ServiceReset. fold n. rewrite Hres.
    split.
    + by destruct (MutateItems _ _ _).
    + by destruct (Reset _).
  - intros Hn.
    assert (TableByName (tables_ svc) n = None) as Hres
      by (by rewrite Hlookup, (Hnin Hn)).
    split; [done|]. unfold MutatePriorities, ServiceReset. fold n. by rewrite Hres.
Qed.

(** X19. [Checkpoint] needs a checkpointer: a service created without one
    answers InvalidArgument and stores no path, whatever tables it holds and
    whatever the checkpointer would do. With a checkpointer, [Save] is handed
    every registered table exactly once, and its status and path are what
    the handler answers. *)
Theorem Checkpoint_needs_a_checkpointer :
  (∀ tables rnd_high rnd_low,
      ∃ svc, Create tables None rnd_high rnd_low = (Status_OK, Some svc)
             ∧ Checkpoint Save svc
               = (mkStatus INVALID_ARGUMENT
                    "no Checkpointer configured for the replay service.", ""))
  ∧ (∀ (svc : @ReverbServiceImpl Table) cp,
      checkpointer_ svc = Some cp →
      ∃ saved,
        Checkpoint Save svc = Save cp saved 1
        ∧ length saved = size (tables_ svc)
        ∧ ∀ tbl, tbl ∈ saved ↔ ∃ n, tables_ svc !! n = Some tbl).
Proof.
  split.
  - intros tables rnd_high rnd_low.
    destruct (Create_without_checkpointer tables rnd_high rnd_low)
      as (svc & Hcreate & Hcp & _).
    exists svc. split; [done|]. unfold Checkpoint. by rewrite Hcp.
  - intros svc cp Hcp. exists ((map_to_list (tables_ svc)).*2).
    unfold Checkpoint. rewrite Hcp. unfold ToGrpcStatus.
    split; [by destruct (Save _ _ _)|]. split.
    + by rewrite length_fmap, length_map_to_list.
    + intros tbl. rewrite list_elem_of_fmap. split.
      * intros ([n t] & -> & Hin). exists n. by apply elem_of_map_to_list in Hin.
      * intros [n Hn]. exists (n, tbl). split; [done|].
        by apply elem_of_map_to_list.
Qed.
End facade.

(** ** InitializeConnection *)

Section initialize_connection.
Import InitializeConnection.
Context {Table : Type}.
Variable server_pid : Z.

(** What one callback can write and what it does to the heap cell. *)
Lemma connection_step (tables_ : gmap string Table) (ev : Event) (r : Reactor) :
  let res := step server_pid tables_ ev r in
  (∀ p, StartWrite p ∈ res.2 →
        (address p = 0 ∧ address (response_ res.1) = 0)
        ∨ (∃ incoming,
             ev = ReadDone true incoming (address p)
             ∧ pid incoming = server_pid
             ∧ is_Some (TableByName tables_ (table_name incoming))
             ∧ table_ptr_ r = None
             ∧ table_ptr_ res.1
               = Some (mkHeapCell (address p) (table_name incoming))))
  ∧ (∀ cell, table_ptr_ r = Some cell → table_ptr_ res.1 = Some cell)
  ∧ (∀ cell, table_ptr_ res.1 = Some cell →
             table_ptr_ r = Some cell
             ∨ StartWrite (mkResponse (cell_address cell)) ∈ res.2).
Proof.
  destruct ev as [read_ok incoming new_address|write_ok]; simpl.
  - unfold OnReadDone. destruct read_ok; simpl.
    2:{ split; [|split; [done|by intros; left]].
        intros p Hp. apply list_elem_of_singleton in Hp. done. }
    destruct (Z.eqb_spec (pid incoming) server_pid) as [Hpid|Hpid]; simpl.
    2:{ split; [|split; [done|by intros; left]].
        intros p Hp. apply list_elem_of_singleton in Hp. injection Hp as ->.
        by left. }
    destruct (table_ptr_ r) as [cell0|] eqn:Hptr; simpl.
    { split; [|split; [done|by intros; left]].
      intros p Hp. apply elem_of_app in Hp as [Hp|Hp].
      - destruct (negb (ownership_transferred incoming));
          [|by apply elem_of_nil in Hp].
        apply list_elem_of_singleton in Hp. done.
      - apply list_elem_of_singleton in Hp. done. }
    destruct (TableByName tables_ (table_name incoming)) as [tbl|] eqn:Htbl; simpl.
    2:{ split; [|split; [done|by intros; left]].
        intros p Hp. apply list_elem_of_singleton in Hp. done. }
    split; [|split; [done|]].
    + intros p Hp. apply list_elem_of_singleton in Hp. injection Hp as ->.
      right. exists incoming. simpl. by repeat split; try eexists.
    + intros cell [= <-]. right. simpl. apply list_elem_of_here.
  - unfold OnWriteDone. destruct write_ok; simpl.
    2:{ split; [|split; [done|by intros; left]].
        intros p Hp. apply list_elem_of_singleton in Hp. done. }
    destruct (address (response_ r) =? 0); simpl.
    all: (split; [|split; [done|by intros; left]]).
    all: intros p Hp; apply list_elem_of_singleton in Hp; done.
Qed.

(** X20. A table address goes only to a client in the server's own process
    that names a registered table: along every run of the handshake from the
    constructor, each response written carries address 0, or it answers a
    request that was read successfully, carries the server's pid and names a
    table of the registry, and the address is the one of the heap cell
    allocated for that request. *)
Theorem table_address_only_for_same_process_and_known_table
    (tables_ : gmap string Table) (evs : list Event) (peer_is_local : bool)
    (p : InitializeConnectionResponse) :
  StartWrite p ∈ (run server_pid tables_ evs (new_reactor peer_is_local).1).2 →
  address p ≠ 0 →
  ∃ incoming,
    ReadDone true incoming (address p) ∈ evs
    ∧ pid incoming = server_pid
    ∧ is_Some (TableByName tables_ (table_name incoming)).
Proof.
  generalize (new_reactor peer_is_local).1. intros r. revert r.
  induction evs as [|ev evs IH]; intros r Hin Hp; simpl in Hin.
  - by apply elem_of_nil in Hin.
  - pose proof (connection_step tables_ ev r) as (Hstep & _). cbv zeta in Hstep.
    destruct (step server_pid tables_ ev r) as [r1 effs1].
    specialize (IH r1).
    destruct (run server_pid tables_ evs r1) as [r2 effs2].
    simpl in *. apply elem_of_app in Hin as [Hin|Hin].
    + destruct (Hstep p Hin) as [[Hzero _]|(incoming & -> & Hpid & Htbl & _)]; [done|].
      exists incoming. split; [apply list_elem_of_here|done].
    + destruct (IH Hin Hp) as (incoming & Hev & Hrest).
      exists incoming. split; [by apply list_elem_of_further|done].
Qed.

(** X21. A callback calls [Finish] at most once, with one exception: a
    request read when the heap cell is already allocated, from the server's
    own pid and without [ownership_transferred], makes [OnReadDone] call
    [Finish] twice, first with Internal "Received unexpected request" and
    then with OK (the first call is not followed by a return). *)
Theorem unexpected_request_calls_Finish_twice
    (tables_ : gmap string Table) (ev : Event) (r : Reactor) :
  let effs := (step server_pid tables_ ev r).2 in
  let unexpected :=
    ∃ incoming new_address,
      ev = ReadDone true incoming new_address
      ∧ pid incoming = server_pid
      ∧ is_Some (table_ptr_ r)
      ∧ ownership_transferred incoming = false in
  (unexpected →
     effs = [Finish (Internal "Received unexpected request"); Finish Status_OK])
  ∧ (¬ unexpected → (length (filter (λ e, is_Finish e = true) effs) ≤ 1)%nat).
Proof.
  intros effs unexpected. subst effs unexpected. split.
  - intros (incoming & new_address & -> & Hpid & [cell Hcell] & Hown). simpl.
    unfold OnReadDone. simpl. rewrite Hpid, Z.eqb_refl, Hcell, Hown. done.
  - intros Hnot. destruct ev as [read_ok incoming new_address|write_ok]; simpl.
    + unfold OnReadDone. destruct read_ok; simpl; [|lia].
      destruct (Z.eqb_spec (pid incoming) server_pid) as [Hpid|Hpid]; simpl; [|lia].
      destruct (table_ptr_ r) as [cell|] eqn:Hcell; simpl.
      * destruct (ownership_transferred incoming) eqn:Hown; simpl; [lia|].
        exfalso. apply Hnot. exists incoming, new_address.
        repeat split; try done; by eexists.
      * destruct (TableByName tables_ (table_name incoming)); simpl; lia.
    + unfold OnWriteDone. destruct write_ok; simpl; [|lia].
      destruct (address (response_ r) =? 0); simpl; lia.
Qed.

Lemma connection_run_cell (tables_ : gmap string Table) (evs : list Event) :
  ∀ r : Reactor,
    let res := run server_pid tables_ evs r in
    (∀ cell, table_ptr_ r = Some cell → table_ptr_ res.1 = Some cell)
    ∧ (∀ cell, table_ptr_ res.1 = Some cell →
               table_ptr_ r = Some cell
               ∨ StartWrite (mkResponse (cell_address cell)) ∈ res.2)
    ∧ (∀ p, StartWrite p ∈ res.2 → address p ≠ 0 →
            ∃ cell, table_ptr_ res.1 = Some cell ∧ cell_address cell = address p).
Proof.
  induction evs as [|ev evs IH]; intros r; simpl.
  - split; [done|]. split; [by left|]. intros p Hp. by apply elem_of_nil in Hp.
  - pose proof (connection_step tables_ ev r) as (Hwrite & Hkeep & Hnew).
    cbv zeta in Hwrite, Hkeep, Hnew.
    destruct (step server_pid tables_ ev r) as [r1 effs1].
    specialize (IH r1). cbv zeta in IH.
    destruct (run server_pid tables_ evs r1) as [r2 effs2].
    simpl in *. destruct IH as (IHkeep & IHnew & IHwrite).
    split; [|split].
    + intros cell Hcell. by apply IHkeep, Hkeep.
    + intros cell Hcell. destruct (IHnew cell Hcell) as [Hr1|Hw].
      * destruct (Hnew cell Hr1) as [Hr|Hw]; [by left|].
        right. apply elem_of_app. by left.
      * right. apply elem_of_app. by right.
    + intros p Hp Hnz. apply elem_of_app in Hp as [Hp|Hp].
      * destruct (Hwrite p Hp) as [[Hzero _]|(incoming & _ & _ & _ & _ & Hcell)];
          [done|].
        eexists. split; [by apply IHkeep|done].
      * by apply IHwrite.
Qed.

(** X22. The server frees exactly the heap cell whose address it sent: along
    every run from the constructor the cell is allocated at most once and
    never replaced, so [OnDone] deletes nothing if no cell was allocated, and
    otherwise deletes one cell, whose address was written to the client; and
    every non-zero address written to the client is the address [OnDone]
    deletes. *)
Theorem OnDone_frees_the_cell_that_was_sent
    (tables_ : gmap string Table) (evs : list Event) (peer_is_local : bool) :
  let res := run server_pid tables_ evs (new_reactor peer_is_local).1 in
  (OnDone res.1 = []
   ∨ ∃ a, OnDone res.1 = [a] ∧ StartWrite (mkResponse a) ∈ res.2)
  ∧ (∀ p, StartWrite p ∈ res.2 → address p ≠ 0 → OnDone res.1 = [address p]).
Proof.
  intros res.
  destruct (connection_run_cell tables_ evs (new_reactor peer_is_local).1)
    as (_ & Hnew & Hwrite).
  fold res in Hnew, Hwrite. split.
  - unfold OnDone. destruct (table_ptr_ res.1) as [cell|] eqn:Hcell; [|by left].
    right. exists (cell_address cell). split; [done|].
    destruct (Hnew cell eq_refl) as [Hinit|Hw]; [|done].
    unfold new_reactor in Hinit. by destruct (negb peer_is_local).
  - intros p Hp Hnz. destruct (Hwrite p Hp Hnz) as (cell & Hcell & <-).
    unfold OnDone. by rewrite Hcell.
Qed.

(** X23. The two ways the handshake ends well. A local client of the
    server's process that names a registered table gets the address of a
    fresh heap cell, the server reads again after the write, and on the
    acknowledgement with [ownership_transferred] it finishes OK once;
    [OnDone] then frees the cell. A local client of another process gets
    address 0 and the stream is finished OK after the write, with no cell
    allocated. *)
Theorem handshake_outcomes (tables_ : gmap string Table)
    (first ack : InitializeConnectionRequest) (a a' : Z) :
  (pid first = server_pid →
   is_Some (TableByName tables_ (table_name first)) →
   a ≠ 0 →
   pid ack = server_pid →
   ownership_transferred ack = true →
   let res := run server_pid tables_
                [ReadDone true first a; WriteDone true; ReadDone true ack a']
                (new_reactor true).1 in
   (new_reactor true).2 = [StartRead]
   ∧ res.2 = [StartWrite (mkResponse a); StartRead; Finish Status_OK]
   ∧ OnDone res.1 = [a])
  ∧ (pid first ≠ server_pid →
     let res := run server_pid tables_ [ReadDone true first a; WriteDone true]
                  (new_reactor true).1 in
     res.2 = [StartWrite (mkResponse 0); Finish Status_OK]
     ∧ OnDone res.1 = []).
Proof.
  split.
  - intros Hpid [tbl Htbl] Ha Hack Hown. simpl.
    unfold OnReadDone, OnWriteDone. simpl.
    rewrite Hpid, Z.eqb_refl. simpl. rewrite Htbl. simpl.
    destruct (Z.eqb_spec a 0) as [?|_]; [done|]. simpl.
    rewrite Hack, Z.eqb_refl, Hown. simpl. done.
  - intros Hpid. simpl. unfold OnReadDone, OnWriteDone. simpl.
    destruct (Z.eqb_spec (pid first) server_pid) as [?|_]; [done|]. simpl. done.
Qed.
End initialize_connection.

Lemma table_address_only_for_same_process_and_known_table_witness :
  StartWrite (InitializeConnection.mkResponse 4096)
    ∈ (InitializeConnection.run 7 example_tables example_handshake
         (InitializeConnection.new_reactor true).1).2
  ∧ ∃ incoming,
      InitializeConnection.ReadDone true incoming 4096 ∈ example_handshake
      ∧ InitializeConnection.pid incoming = 7
      ∧ is_Some (TableByName example_tables
                   (InitializeConnection.table_name incoming)).
Proof.
  assert (Hw : StartWrite (InitializeConnection.mkResponse 4096)
                 ∈ (InitializeConnection.run 7 example_tables example_handshake
                      (InitializeConnection.new_reactor true).1).2).
  { vm_compute. apply list_elem_of_here. }
  split; [exact Hw|].
  apply (table_address_only_for_same_process_and_known_table 7 example_tables
           example_handshake true (InitializeConnection.mkResponse 4096) Hw).
  simpl. lia.
Defined.

Lemma unexpected_request_calls_Finish_twice_witness :
  (InitializeConnection.step 7 example_tables
     (InitializeConnection.ReadDone true
        (InitializeConnection.mkRequest 7 "open" false) 8192)
     example_connected_reactor).2
  = [Finish (Internal "Received unexpected request"); Finish Status_OK].
Proof.
  apply (proj1 (unexpected_request_calls_Finish_twice 7 example_tables
                  (InitializeConnection.ReadDone true
                     (InitializeConnection.mkRequest 7 "open" false) 8192)
                  example_connected_reactor)).
  eexists _, _. split; [reflexivity|]. split; [reflexivity|].
  split; [|reflexivity]. vm_compute. eexists. reflexivity.
Defined.

Lemma handshake_outcomes_witness :
  (InitializeConnection.run 7 example_tables example_handshake
     (InitializeConnection.new_reactor true).1).2
  = [StartWrite (InitializeConnection.mkResponse 4096); StartRead;
     Finish Status_OK]
  ∧ (InitializeConnection.run 7 example_tables
       [InitializeConnection.ReadDone true
          (InitializeConnection.mkRequest 8 "open" false) 4096;
        InitializeConnection.WriteDone true]
       (InitializeConnection.new_reactor true).1).2
    = [StartWrite (InitializeConnection.mkResponse 0); Finish Status_OK].
Proof.
  split.
  - apply (proj1 (handshake_outcomes 7 example_tables
                    (InitializeConnection.mkRequest 7 "open" false)
                    (InitializeConnection.mkRequest 7 "open" true) 4096 0));
      [reflexivity|vm_compute; eexists; reflexivity|lia|reflexivity|reflexivity].
  - apply (proj2 (handshake_outcomes 7 example_tables
                    (InitializeConnection.mkRequest 8 "open" false)
                    (InitializeConnection.mkRequest 8 "open" true) 4096 0)).
    simpl. lia.
Defined.
